(** * Process Tree Visualizer: the tree builder, the renderer and the search

    A shallow embedding of [process-tree-python.py].  The heap of
    [ProcessInfo] objects is the [processes] dictionary itself: every object
    is created once by [collect_processes] and stored under one key, so an
    object reference is modelled by the key the object is stored under, and
    the [children] list of a node is a list of such references.  A structure
    with a cycle or a shared child is therefore an ordinary finite value. *)

From Stdlib Require Import ZArith QArith Qround Lqa String Ascii List Sorted Lia.
From stdpp Require Import base list gmap strings pretty.

#[local] Set Warnings "-clear-no-such-hyp".

Local Open Scope Z_scope.
Local Open Scope string_scope.
Local Open Scope list_scope.

(** ** Data model *)

(** [ProcessInfo] (the dataclass).  The Python floats [cpu_percent],
    [memory_mb] and [create_time] are finite numbers that the program only
    compares with integer constants, subtracts and floors; they are carried
    as rationals.  [children] holds references (dictionary keys). *)
Record ProcessInfo := mkProcessInfo {
  pid : Z;
  ppid : Z;
  name : string;
  username : string;
  status : string;
  cpu_percent : Q;
  memory_mb : Q;
  num_threads : Z;
  create_time : Q;
  cmdline : string;
  children : list Z
}.

Definition set_children (p : ProcessInfo) (cs : list Z) : ProcessInfo :=
  mkProcessInfo (pid p) (ppid p) (name p) (username p) (status p)
    (cpu_percent p) (memory_mb p) (num_threads p) (create_time p)
    (cmdline p) cs.

(** A Python [dict] keeps insertion order and has unique keys: an
    association list whose keys are pairwise distinct ([dict_ok]). *)
Abbreviation dict := (list (Z * ProcessInfo)).

Definition keys (d : dict) : list Z := map fst d.
Definition values (d : dict) : list ProcessInfo := map snd d.
Definition dict_ok (d : dict) : Prop := NoDup (keys d).

(** [d[k]] *)
Fixpoint dict_get (d : dict) (k : Z) : option ProcessInfo :=
  match d with
  | [] => None
  | (k', p) :: d' => if Z.eqb k' k then Some p else dict_get d' k
  end.

(** [k in d] *)
Definition dict_mem (d : dict) (k : Z) : bool :=
  match dict_get d k with Some _ => true | None => false end.

(** [d[k] = p]: a key that is present keeps its place and gets the new
    value; a new key goes to the end. *)
Fixpoint dict_set (d : dict) (k : Z) (p : ProcessInfo) : dict :=
  match d with
  | [] => [(k, p)]
  | (k', p') :: d' =>
      if Z.eqb k' k then (k, p) :: d' else (k', p') :: dict_set d' k p
  end.

(** [d[parent].children.append(child)]: an in-place update of the one
    object stored under [parent]. *)
Definition append_child (d : dict) (parent child : Z) : dict :=
  map (fun kp : Z * ProcessInfo =>
         if Z.eqb (fst kp) parent
         then (fst kp, set_children (snd kp) (children (snd kp) ++ [child]))
         else kp) d.

(** [ProcessTree]: the fields that the builder, the renderer, the search
    and the statistics use ([total_processes] and [collection_errors] only
    serve the messages of [collect_processes]). *)
Record ProcessTree := mkProcessTree {
  processes : dict;
  root_processes : list Z;
  show_resources : bool;
  verbose : bool
}.

(** ** [ProcessTree.build_tree] *)

(** One iteration of the first loop, on the item [(key, proc)].  Only
    [children] lists are written during the loop, so [proc.ppid] is the
    value read when the iteration starts. *)
Definition link_step (t : ProcessTree) (item : Z * ProcessInfo) : ProcessTree :=
  if dict_mem (processes t) (ppid (snd item))
  then mkProcessTree
         (append_child (processes t) (ppid (snd item)) (fst item))
         (root_processes t) (show_resources t) (verbose t)
  else mkProcessTree (processes t) (root_processes t ++ [fst item])
         (show_resources t) (verbose t).

Definition link_pass (t : ProcessTree) : ProcessTree :=
  fold_left link_step (processes t) t.

(** [list.sort(key=lambda p: p.pid)] is a stable sort; the stable sorted
    arrangement of a list is unique, here computed by insertion. *)
Fixpoint insert_by (key : Z -> Z) (x : Z) (l : list Z) : list Z :=
  match l with
  | [] => [x]
  | y :: l' => if Z.leb (key x) (key y) then x :: l else y :: insert_by key x l'
  end.

Definition sort_by (key : Z -> Z) (l : list Z) : list Z :=
  fold_right (insert_by key) [] l.

(** [p.pid] for the object behind a reference. *)
Definition pid_of (d : dict) (r : Z) : Z :=
  match dict_get d r with Some p => pid p | None => 0 end.

Definition sort_children (d : dict) : dict :=
  map (fun kp : Z * ProcessInfo =>
         (fst kp, set_children (snd kp) (sort_by (pid_of d) (children (snd kp))))) d.

Definition build_tree (t : ProcessTree) : ProcessTree :=
  let t1 := link_pass t in
  mkProcessTree (sort_children (processes t1))
                (sort_by (pid_of (processes t1)) (root_processes t1))
                (show_resources t) (verbose t).

(** A record as [collect_processes] creates it: no children yet. *)
Definition proc (p pp : Z) (nm : string) : ProcessInfo :=
  mkProcessInfo p pp nm "root" "sleeping" 0 0 1 0 nm [].

(** A tree as [collect_processes] leaves it, for the records [ps] in the
    order they were read: [self.processes[pid] = process_info] for each,
    and no roots yet. *)
Definition snapshot (ps : list ProcessInfo) (res verb : bool) : ProcessTree :=
  mkProcessTree (fold_left (fun d p => dict_set d (pid p) p) ps []) [] res verb.

Definition children_of (d : dict) (r : Z) : list Z :=
  match dict_get d r with Some p => children p | None => [] end.

(** ** The environment of the renderer and of the search

    What the program takes from Python and from [colorama]: the colour and
    style codes, the format specification [.1f], [int(str)] (with [None]
    for [ValueError]) and [str.lower]. *)
Inductive Color := RED | GREEN | YELLOW | BLUE | CYAN | MAGENTA | WHITE.

Record Env := mkEnv {
  Fore : Color -> string;
  BRIGHT : string;
  DIM : string;
  RESET_ALL : string;
  fmt_1f : Q -> string;
  py_int : string -> option Z;
  py_lower : string -> string
}.

(** ** [ProcessInfo.format_memory], [ProcessInfo.format_uptime] *)

Definition Qgtb (a b : Q) : bool := negb (Qle_bool a b).

Definition format_memory (E : Env) (p : ProcessInfo) : string :=
  if Qle_bool 1024 (memory_mb p)
  then fmt_1f E (memory_mb p / 1024)%Q +:+ "GB"
  else fmt_1f E (memory_mb p) +:+ "MB".

(** [now] is the value [time.time()] returns in this call. *)
Definition format_uptime (now : Q) (p : ProcessInfo) : string :=
  let uptime := (now - create_time p)%Q in
  let hours := Qfloor (uptime / 3600)%Q in
  let minutes := Qfloor ((uptime - 3600 * inject_Z hours) / 60)%Q in
  if Z.ltb 0 hours
  then pretty hours +:+ "h" +:+ pretty minutes +:+ "m"
  else pretty minutes +:+ "m".

(** ** [ProcessTree.display_tree] *)

(** A node that the traversal prints: the reference it was reached by, the
    object behind it, and the [prefix] and [is_last] arguments of the call. *)
Record Visit := mkVisit {
  v_ref : Z;
  v_proc : ProcessInfo;
  v_prefix : string;
  v_is_last : bool
}.

Definition connector (is_last : bool) : string :=
  if is_last then "└── " else "├── ".

Definition extension (is_last : bool) : string :=
  if is_last then "    " else "│   ".

Definition name_color (st : string) : Color :=
  if String.eqb st "running" then GREEN
  else if String.eqb st "sleeping" then CYAN
  else if String.eqb st "stopped" || String.eqb st "zombie" then RED
  else WHITE.

Definition cpu_color (c : Q) : Color :=
  if Qgtb c 50 then RED else if Qgtb c 10 then GREEN else WHITE.

Definition mem_color (m : Q) : Color :=
  if Qgtb m 500 then RED else if Qgtb m 100 then YELLOW else WHITE.

(** The string passed to [print(output)]. *)
Definition primary_line (E : Env) (t : ProcessTree) (now : Q) (v : Visit) : string :=
  let process := v_proc v in
  let output :=
    v_prefix v +:+ connector (v_is_last v) +:+ Fore E (name_color (status process))
      +:+ BRIGHT E +:+ name process +:+ RESET_ALL E +:+ " "
      +:+ Fore E YELLOW +:+ "[PID: " +:+ pretty (pid process) +:+ "]" +:+ RESET_ALL E in
  let output :=
    if show_resources t
    then output
      +:+ " " +:+ Fore E (cpu_color (cpu_percent process)) +:+ "CPU: "
      +:+ fmt_1f E (cpu_percent process) +:+ "%" +:+ RESET_ALL E
      +:+ " " +:+ Fore E (mem_color (memory_mb process)) +:+ "MEM: "
      +:+ format_memory E process +:+ RESET_ALL E
    else output in
  if verbose t
  then output
    +:+ " " +:+ Fore E MAGENTA +:+ "User: " +:+ username process +:+ RESET_ALL E
    +:+ " " +:+ Fore E BLUE +:+ "Threads: " +:+ pretty (num_threads process) +:+ RESET_ALL E
    +:+ " " +:+ Fore E CYAN +:+ "Uptime: " +:+ format_uptime now process +:+ RESET_ALL E
  else output.

Definition max_cmd_len : nat := 80.

(** A Python [str] is a sequence of code points; it is carried here as the
    bytes of its UTF-8 encoding.  [len] and slices count code points: a
    byte [10xxxxxx] continues the code point that the bytes before it
    began, every other byte begins one. *)
Definition is_continuation (c : ascii) : bool :=
  match c with
  | Ascii _ _ _ _ _ _ b6 b7 => b7 && negb b6
  end.

(** [len(s)] *)
Fixpoint py_len (s : string) : nat :=
  match s with
  | EmptyString => O
  | String c s' => if is_continuation c then py_len s' else S (py_len s')
  end.

(** [s[:n]] *)
Fixpoint py_slice_to (n : nat) (s : string) : string :=
  match s with
  | EmptyString => EmptyString
  | String c s' =>
      if is_continuation c then String c (py_slice_to n s')
      else match n with
           | O => EmptyString
           | S n' => String c (py_slice_to n' s')
           end
  end.

(** [cmd_display]: the slice [cmdline[:max_cmd_len]], with the dots when
    [len(cmdline)] is more than [max_cmd_len]. *)
Definition cmd_display (process : ProcessInfo) : string :=
  let shown := py_slice_to max_cmd_len (cmdline process) in
  if Nat.ltb max_cmd_len (py_len (cmdline process))
  then shown +:+ "..." else shown.

Definition cmd_line (E : Env) (v : Visit) : string :=
  (v_prefix v +:+ extension (v_is_last v))
    +:+ Fore E WHITE +:+ DIM E +:+ "└─ " +:+ cmd_display (v_proc v) +:+ RESET_ALL E.

(** Everything one call prints for its own node (before the children). *)
Definition display_node (E : Env) (t : ProcessTree) (now : Q) (v : Visit) : list string :=
  primary_line E t now v ::
  (if verbose t && negb (String.eqb (cmdline (v_proc v)) (name (v_proc v)))
   then [cmd_line E v] else []).

(** [for i, x in enumerate(xs): body(x, i == len(xs) - 1, visited)], where
    [n] is [len(xs)] of the whole list and the one [visited] set is handed
    from each call to the next. [None] is a call that ran out of fuel. *)
Fixpoint enum_loop (body : Z -> bool -> gset Z -> option (gset Z * list Visit))
    (n i : nat) (xs : list Z) (visited : gset Z) : option (gset Z * list Visit) :=
  match xs with
  | [] => Some (visited, [])
  | x :: xs' =>
      match body x (Nat.eqb i (n - 1)) visited with
      | None => None
      | Some (visited1, out1) =>
          match enum_loop body n (S i) xs' visited1 with
          | None => None
          | Some (visited2, out2) => Some (visited2, out1 ++ out2)
          end
      end
  end.

(** [display_tree(process, prefix, is_last, visited)] for a given process:
    the final [visited] set and the nodes printed, in order.  [fuel] bounds
    the depth of the recursion. *)
Fixpoint display_from (fuel : nat) (d : dict) (r : Z) (prefix : string)
    (is_last : bool) (visited : gset Z) : option (gset Z * list Visit) :=
  match fuel with
  | O => None
  | S fuel' =>
      match dict_get d r with
      | None => Some (visited, [])
      | Some process =>
          if decide (pid process ∈ visited) then Some (visited, [])
          else
            match enum_loop
                    (fun child is_last_child =>
                       display_from fuel' d child (prefix +:+ extension is_last)
                                    is_last_child)
                    (length (children process)) 0 (children process)
                    ({[pid process]} ∪ visited) with
            | None => None
            | Some (visited', out) =>
                Some (visited', mkVisit r process prefix is_last :: out)
            end
      end
  end.

(** [display_tree()]: all the roots, with one fresh [visited] set. *)
Definition display_roots (fuel : nat) (t : ProcessTree) : option (gset Z * list Visit) :=
  enum_loop (fun root is_last_root => display_from fuel (processes t) root "" is_last_root)
            (length (root_processes t)) 0 (root_processes t) ∅.

(** [display_tree(process)]: one subtree, with a fresh [visited] set. *)
Definition display_subtree (fuel : nat) (t : ProcessTree) (r : Z) : option (gset Z * list Visit) :=
  display_from fuel (processes t) r "" true ∅.

(** The lines printed for a sequence of visits; [clock k] is the value of
    [time.time()] when the line of the process with pid [k] is formatted. *)
Definition printed (E : Env) (t : ProcessTree) (clock : Z -> Q) (out : list Visit) : list string :=
  flat_map (fun v => display_node E t (clock (pid (v_proc v))) v) out.

(** The recursion is as deep as the longest chain of distinct pids, plus
    the call that finds its pid visited. *)
Definition enough_fuel (d : dict) : nat := S (length d).

Definition display_tree (E : Env) (t : ProcessTree) (clock : Z -> Q) : option (list string) :=
  match display_roots (enough_fuel (processes t)) t with
  | Some (_, out) => Some (printed E t clock out)
  | None => None
  end.

(** ** [ProcessTree.find_process] *)

(** [needle in hay] on strings. *)
Definition str_in (needle hay : string) : bool :=
  match index 0 needle hay with Some _ => true | None => false end.

Definition find_process (E : Env) (t : ProcessTree) (query : string) : list ProcessInfo :=
  match py_int E query with
  | Some pid =>
      match dict_get (processes t) pid with
      | Some p => [p]
      | None => []
      end
  | None =>
      filter (fun p => Is_true (str_in (py_lower E query) (py_lower E (name p))))
             (values (processes t))
  end.

(** ** [ProcessTree.get_statistics] *)

Record Stats := mkStats {
  total_processes : nat;
  n_root_processes : nat;
  total_memory_mb : Q;
  total_threads : Z;
  running : nat;
  sleeping : nat;
  zombie : nat
}.

Definition Qsum (l : list Q) : Q := fold_left Qplus l 0%Q.
Definition Zsum (l : list Z) : Z := fold_left Z.add l 0.
Definition count_status (s : string) (ps : list ProcessInfo) : nat :=
  length (filter (fun p => Is_true (String.eqb (status p) s)) ps).

(** The aggregation of [get_statistics] over a sequence of records and a
    number of roots. *)
Definition aggregate (ps : list ProcessInfo) (nroots : nat) : Stats :=
  mkStats (length ps) nroots
          (Qsum (map memory_mb ps)) (Zsum (map num_threads ps))
          (count_status "running" ps) (count_status "sleeping" ps)
          (count_status "zombie" ps).

Definition get_statistics (t : ProcessTree) : Stats :=
  aggregate (values (processes t)) (length (root_processes t)).

(** ** Two environments, for closed examples

    Without [colorama] every colour and style code is the empty string;
    with it they are the ANSI escape sequences.  [fixed1], [ascii_int] and
    [ascii_lower] are Python's [.1f], [int] and [str.lower] on finite
    rationals and on ASCII strings. *)

(** One digit after the point, nearest to the value, ties to even. *)
Definition fixed1 (q : Q) : string :=
  let a := Z.abs (Qnum q) * 10 in
  let den := Z.pos (Qden q) in
  let r := a / den in
  let rem := a mod den in
  let r' := if Z.ltb den (2 * rem) then r + 1
            else if Z.eqb (2 * rem) den then (if Z.even r then r else r + 1)
            else r in
  (if Z.ltb (Qnum q) 0 then "-" else "")
    +:+ pretty (r' / 10) +:+ "." +:+ pretty (r' mod 10).

Definition is_digit (c : ascii) : bool :=
  let n := nat_of_ascii c in Nat.leb 48 n && Nat.leb n 57.

Definition is_space (c : ascii) : bool :=
  let n := nat_of_ascii c in
  (Nat.leb 9 n && Nat.leb n 13) || (Nat.leb 28 n && Nat.leb n 32).

Fixpoint lstrip (l : list ascii) : list ascii :=
  match l with
  | c :: l' => if is_space c then lstrip l' else l
  | [] => []
  end.

Definition strip (l : list ascii) : list ascii :=
  rev (lstrip (rev (lstrip l))).

(** Decimal digits, with single underscores between digits. *)
Fixpoint digits (acc : Z) (after_digit : bool) (l : list ascii) : option Z :=
  match l with
  | [] => if after_digit then Some acc else None
  | c :: l' =>
      if is_digit c
      then digits (10 * acc + (Z.of_nat (nat_of_ascii c) - 48)) true l'
      else if Ascii.eqb c "_" && after_digit then digits acc false l'
      else None
  end.

Definition ascii_int (s : string) : option Z :=
  match strip (list_ascii_of_string s) with
  | c :: l =>
      if Ascii.eqb c "-" then Z.opp <$> digits 0 false l
      else if Ascii.eqb c "+" then digits 0 false l
      else digits 0 false (c :: l)
  | [] => None
  end.

Definition lower_char (c : ascii) : ascii :=
  let n := nat_of_ascii c in
  if Nat.leb 65 n && Nat.leb n 90 then ascii_of_nat (n + 32) else c.

Definition ascii_lower (s : string) : string :=
  string_of_list_ascii (map lower_char (list_ascii_of_string s)).

Definition plain_env : Env :=
  mkEnv (fun _ => "") "" "" "" fixed1 ascii_int ascii_lower.

Definition esc (code : string) : string :=
  String (ascii_of_nat 27) ("[" +:+ code +:+ "m").

Definition colorama_env : Env :=
  mkEnv (fun c => match c with
                  | RED => esc "31" | GREEN => esc "32" | YELLOW => esc "33"
                  | BLUE => esc "34" | MAGENTA => esc "35" | CYAN => esc "36"
                  | WHITE => esc "37"
                  end)
        (esc "1") (esc "2") (esc "0") fixed1 ascii_int ascii_lower.

(** ** The same structure with other memory values *)

(** The record with its [memory_mb] replaced. *)
Definition with_memory (m : Q) (p : ProcessInfo) : ProcessInfo :=
  mkProcessInfo (pid p) (ppid p) (name p) (username p) (status p)
    (cpu_percent p) m (num_threads p) (create_time p) (cmdline p) (children p).

(** The tree in which the record stored under [k] has memory [f k]. *)
Definition with_memories (f : Z -> Q) (t : ProcessTree) : ProcessTree :=
  mkProcessTree
    (map (fun kp : Z * ProcessInfo => (fst kp, with_memory (f (fst kp)) (snd kp)))
         (processes t))
    (root_processes t) (show_resources t) (verbose t).

(** Which node a visit prints, and where: all of a visit but the record. *)
Definition visit_shape (v : Visit) : Z * string * bool :=
  (v_ref v, v_prefix v, v_is_last v).

(** The name contains the query, case-insensitively. *)
Definition contains_ci (E : Env) (query nm : string) : Prop :=
  exists a b, py_lower E nm = a +:+ py_lower E query +:+ b.

(** ** Well-formed inputs of the builder *)

(** A tree before [build_tree], as [__init__] and [collect_processes] leave
    it: no roots yet and no [children] yet. *)
Definition fresh (t : ProcessTree) : Prop :=
  root_processes t = [] /\
  forall k p, dict_get (processes t) k = Some p -> children p = [].

(** Every record is stored under its own pid ([self.processes[pid] = ...]). *)
Definition indexed_by_pid (d : dict) : Prop :=
  forall k p, dict_get d k = Some p -> pid p = k.

(** The keys whose record names [q] as parent, in dictionary order. *)
Definition kids (items : dict) (q : Z) : list Z :=
  map fst (filter (fun kp : Z * ProcessInfo => ppid (snd kp) = q) items).

(** The keys whose declared parent is not a key of [d], in the order of
    [items]. *)
Definition orphans (d items : dict) : list Z :=
  map fst (filter (fun kp : Z * ProcessInfo =>
                     dict_mem d (ppid (snd kp)) = false) items).

(** ** Parent chains in the input *)

(** The record reached from [k] by following [n] parent-pid links, each
    taken from a record of the index; [None] when the chain has left the
    index before. *)
Fixpoint nth_parent (d : dict) (n : nat) (k : Z) : option Z :=
  match n with
  | O => Some k
  | S n' =>
      match dict_get d k with
      | Some p => nth_parent d n' (ppid p)
      | None => None
      end
  end.

(** [k] lies on a parent-pid cycle (of length [n + 1]; a record that is
    its own parent has [n = 0]). *)
Definition on_cycle (d : dict) (k : Z) : Prop :=
  exists n, nth_parent d (S n) k = Some k.

(** The chain of parents of [k] leaves the index: it ends at a record
    whose parent pid is no key. *)
Definition rooted (d : dict) (k : Z) : Prop :=
  exists n, nth_parent d n k = None.

Definition acyclic (d : dict) : Prop :=
  forall k, k ∈ keys d -> rooted d k.

(** ** The forest after the build *)

(** The nodes a traversal from the roots can reach. *)
Inductive reachable (t : ProcessTree) : Z -> Prop :=
| reach_root r : r ∈ root_processes t -> reachable t r
| reach_child q c :
    reachable t q -> c ∈ children_of (processes t) q -> reachable t c.

(** [a] is a proper ancestor of [c] along [children] references. *)
Inductive ancestor (d : dict) : Z -> Z -> Prop :=
| anc_child a c : c ∈ children_of d a -> ancestor d a c
| anc_step a b c : ancestor d a b -> c ∈ children_of d b -> ancestor d a c.

(** Every place where a reference is stored: the root list, then the
    [children] list of every record. *)
Definition placements (t : ProcessTree) : list Z :=
  root_processes t ++ concat (map children (values (processes t))).

(** ** The traversal as a relation

    [walk d r prefix is_last visited visited' out]: the call
    [display_tree(r, prefix, is_last, visited)] returns with the set
    [visited'], having printed the nodes [out]; [walk_loop] is its loop over
    the children (and the loop over the roots). *)
Inductive walk (d : dict) :
    Z -> string -> bool -> gset Z -> gset Z -> list Visit -> Prop :=
| walk_absent r pre last V :
    dict_get d r = None -> walk d r pre last V V []
| walk_seen r p pre last V :
    dict_get d r = Some p -> pid p ∈ V -> walk d r pre last V V []
| walk_node r p pre last V V' out :
    dict_get d r = Some p -> pid p ∉ V ->
    walk_loop d (pre +:+ extension last) (length (children p)) 0 (children p)
              ({[pid p]} ∪ V) V' out ->
    walk d r pre last V V' (mkVisit r p pre last :: out)
with walk_loop (d : dict) :
    string -> nat -> nat -> list Z -> gset Z -> gset Z -> list Visit -> Prop :=
| loop_nil pre n i V : walk_loop d pre n i [] V V []
| loop_cons pre n i x xs V V1 V2 o1 o2 :
    walk d x pre (Nat.eqb i (n - 1)) V V1 o1 ->
    walk_loop d pre n (S i) xs V1 V2 o2 ->
    walk_loop d pre n i (x :: xs) V V2 (o1 ++ o2).

Scheme walk_mut := Minimality for walk Sort Prop
  with walk_loop_mut := Minimality for walk_loop Sort Prop.

Combined Scheme walk_both from walk_mut, walk_loop_mut.

Definition visit_pids (out : list Visit) : list Z :=
  map (fun v => pid (v_proc v)) out.

Definition dict_pids (d : dict) : gset Z :=
  list_to_set (map (fun kp : Z * ProcessInfo => pid (snd kp)) d).

(** [v] was printed by a call made from the loop of [u], for the [j]-th
    child of [u]. *)
Definition child_visit (u v : Visit) (j : nat) : Prop :=
  children (v_proc u) !! j = Some (v_ref v) /\
  v_is_last v = Nat.eqb j (length (children (v_proc u)) - 1) /\
  v_prefix v = v_prefix u +:+ extension (v_is_last u).

(** A sibling group of a rendering: the root list, or the [children] list
    of a node that was printed. *)
Definition sibling_group (t : ProcessTree) (out : list Visit) (G : list Z) : Prop :=
  G = root_processes t \/ exists u, u ∈ out /\ G = children (v_proc u).

(** ** Statistics by a walk of the forest *)

Definition walk_statistics (t : ProcessTree) : option Stats :=
  match display_roots (enough_fuel (processes t)) t with
  | Some (_, out) => Some (aggregate (map v_proc out) (length (root_processes t)))
  | None => None
  end.

(** ** Properties of a traversal *)

(** Ascending order of the sort key. *)
Definition key_le (key : Z -> Z) (a b : Z) : Prop := key a <= key b.

(** The pids printed are pairwise distinct, were not visited before, and
    are exactly what the call adds to the set. *)
Definition adds (V V' : gset Z) (out : list Visit) : Prop :=
  V' = V ∪ list_to_set (visit_pids out) /\
  NoDup (visit_pids out) /\
  forall k, k ∈ visit_pids out -> k ∉ V.

(** Every visit shows the object stored under its reference. *)
Definition from_dict (d : dict) (out : list Visit) : Prop :=
  forall v, v ∈ out -> dict_get d (v_ref v) = Some (v_proc v).

(** Whatever a printed node refers to as a child has its pid in the final
    set: it is printed too, or was visited before. *)
Definition closed_out (d : dict) (V' : gset Z) (out : list Visit) : Prop :=
  forall v c pc, v ∈ out -> c ∈ children (v_proc v) ->
                 dict_get d c = Some pc -> pid pc ∈ V'.

(** Where a visit comes from: the call at hand, or the loop of an earlier
    visit, at an index of that node's [children] that fixes [is_last]. *)
Definition placed_in (out : list Visit) (v : Visit) : Prop :=
  exists u j, u ∈ out /\ child_visit u v j.

(** The pids not yet visited: each call that prints removes one. *)
Definition unvisited (d : dict) (V : gset Z) : nat := size (dict_pids d ∖ V).

(** A visit and a dictionary with the memory values of [f]. *)
Definition visit_with_memory (f : Z -> Q) (v : Visit) : Visit :=
  mkVisit (v_ref v) (with_memory (f (v_ref v)) (v_proc v))
          (v_prefix v) (v_is_last v).

Definition dict_with_memories (f : Z -> Q) (d : dict) : dict :=
  map (fun kp : Z * ProcessInfo => (fst kp, with_memory (f (fst kp)) (snd kp))) d.

(** ** Sample inputs *)

(** The two records (pid 1, ppid 2) and (pid 2, ppid 1). *)
Definition two_cycle : ProcessTree :=
  snapshot [proc 1 2 "a"; proc 2 1 "b"] false false.

Definition four_processes : ProcessTree :=
  snapshot [proc 1 0 "init"; proc 10 1 "shell";
            proc 20 10 "editor"; proc 99 5000 "orphan"] false false.

(** A structure with a shared child, as a caller other than [build_tree]
    could hand it over: 1 and 2 both list 3, and 3 lists 1. *)
Definition shared_child : ProcessTree :=
  mkProcessTree
    [(1, mkProcessInfo 1 0 "a" "u" "running" 0 0 1 0 "a" [3]);
     (2, mkProcessInfo 2 0 "b" "u" "running" 0 0 1 0 "b" [3]);
     (3, mkProcessInfo 3 1 "c" "u" "running" 0 0 1 0 "c" [1])]
    [1; 2] false false.

Definition verbose_init : ProcessTree :=
  snapshot [proc 1 0 "init"] false true.

Definition named_42 : ProcessTree := snapshot [proc 42 1 "42"] false false.

Definition named_42_pid_7 : ProcessTree :=
  snapshot [proc 7 1 "42"; proc 8 1 "app42"] false false.

(** ** [ProcessTree.collect_processes]

    [psutil] is outside the program: what its calls give is a parameter.  A
    call returns a value, raises [AccessDenied] or [NoSuchProcess]
    ([Denied], with the text of the exception), or raises any other
    exception ([Raised]). *)
Inductive Read (A : Type) : Type :=
| Ok (a : A)
| Denied (e : string)
| Raised (e : string).

Arguments Ok {A} a.
Arguments Denied {A} e.
Arguments Raised {A} e.

Record Psutil := mkPsutil {
  ps_pids : Read (list Z);
  ps_Process : Z -> Read unit;
  ps_name : Z -> Read string;
  ps_ppid : Z -> Read Z;
  ps_username : Z -> Read string;
  ps_status : Z -> Read string;
  ps_cpu_percent : Z -> Read Q;
  ps_rss : Z -> Read Z;
  ps_num_threads : Z -> Read Z;
  ps_create_time : Z -> Read Q;
  ps_cmdline : Z -> Read (list string);
  ps_time : Z -> Q
}.

(** The tree with the two counters of [__init__] that only
    [collect_processes] writes. *)
Record Collector := mkCollector {
  c_tree : ProcessTree;
  c_total_processes : nat;
  c_collection_errors : nat
}.

(** [ProcessTree(show_resources, verbose)] *)
Definition new_tree (res verb : bool) : Collector :=
  mkCollector (mkProcessTree [] [] res verb) 0 0.

(** One of the inner [try] blocks: the two [psutil] exceptions give the
    default, any other exception leaves the body of the loop ([inl]). *)
Definition field {A : Type} (r : Read A) (default : A) : string + A :=
  match r with
  | Ok a => inr a
  | Denied _ => inr default
  | Raised e => inl e
  end.

Definition and_then {A B : Type} (c : string + A) (k : A -> string + B) : string + B :=
  match c with
  | inl e => inl e
  | inr a => k a
  end.

Notation "'let*' x ':=' c 'in' k" := (and_then c (fun x => k))
  (at level 10, x name, c at level 100, k at level 200).

(** The fields of one process, read in the order of the source, and the
    [ProcessInfo] made of them ([children] is [None], which
    [__post_init__] turns into the empty list). *)
Definition read_record (ps : Psutil) (show : bool) (pid : Z) : string + ProcessInfo :=
  let* name := field (ps_name ps pid) "<unknown>" in
  let* ppid := field (ps_ppid ps pid) 0 in
  let* username := field (ps_username ps pid) "<unknown>" in
  let* status := field (ps_status ps pid) "unknown" in
  let* cpu_percent := (if show then field (ps_cpu_percent ps pid) 0%Q else inr 0%Q) in
  let* memory_mb := match ps_rss ps pid with
               | Ok rss => inr (inject_Z rss / (1024 * 1024))%Q
               | Denied _ => inr 0%Q
               | Raised e => inl e
               end in
  let* num_threads := field (ps_num_threads ps pid) 0 in
  let* create_time := field (ps_create_time ps pid) (ps_time ps pid) in
  let* cmdline := match ps_cmdline ps pid with
             | Ok parts =>
                 let cmdline := String.concat " " parts in
                 inr (if String.eqb cmdline "" then name else cmdline)
             | Denied _ => inr name
             | Raised e => inl e
             end in
  inr (mkProcessInfo pid ppid name username status cpu_percent memory_mb
                     num_threads create_time cmdline []).

Definition count_error (st : Collector) : Collector :=
  mkCollector (c_tree st) (c_total_processes st) (S (c_collection_errors st)).

(** [self.processes[pid] = process_info] *)
Definition store (st : Collector) (pid : Z) (info : ProcessInfo) : Collector :=
  mkCollector
    (mkProcessTree (dict_set (processes (c_tree st)) pid info)
                   (root_processes (c_tree st))
                   (show_resources (c_tree st)) (verbose (c_tree st)))
    (c_total_processes st) (c_collection_errors st).

(** The body of the loop for one pid: the new state and what it prints. *)
Definition collect_one (E : Env) (ps : Psutil) (st : Collector) (pid : Z)
    : Collector * list string :=
  let warning e :=
    if verbose (c_tree st)
    then [Fore E YELLOW +:+ "Warning: Cannot access PID " +:+ pretty pid
            +:+ ": " +:+ e +:+ RESET_ALL E]
    else [] in
  let error e :=
    if verbose (c_tree st)
    then [Fore E RED +:+ "Error processing PID " +:+ pretty pid
            +:+ ": " +:+ e +:+ RESET_ALL E]
    else [] in
  match ps_Process ps pid with
  | Ok _ =>
      match read_record ps (show_resources (c_tree st)) pid with
      | inr process_info => (store st pid process_info, [])
      | inl e => (count_error st, error e)
      end
  | Denied e => (count_error st, warning e)
  | Raised e => (count_error st, error e)
  end.

Definition collect_loop (E : Env) (ps : Psutil) (pids : list Z) (st : Collector)
    : Collector * list string :=
  fold_left (fun acc pid =>
               let r := collect_one E ps (fst acc) pid in
               (fst r, snd acc ++ snd r))
            pids (st, []).

Definition collect_processes (E : Env) (ps : Psutil) (st : Collector)
    : Collector * list string :=
  let started :=
    [Fore E CYAN +:+ "Collecting process information..." +:+ RESET_ALL E] in
  match ps_pids ps with
  | Ok pids =>
      let st1 := mkCollector (c_tree st) (length pids) (c_collection_errors st) in
      let r := collect_loop E ps pids st1 in
      (fst r,
       started ++ snd r
         ++ [Fore E GREEN +:+ "Collected "
               +:+ pretty (length (processes (c_tree (fst r))))
               +:+ " processes" +:+ RESET_ALL E]
         ++ (if Nat.ltb 0 (c_collection_errors (fst r))
             then [Fore E YELLOW +:+ "("
                     +:+ pretty (c_collection_errors (fst r))
                     +:+ " processes inaccessible)" +:+ RESET_ALL E]
             else []))
  | Denied e | Raised e =>
      (st, started ++ [Fore E RED +:+ "Error getting process list: " +:+ e
                         +:+ RESET_ALL E])
  end.

(** What the body of the loop stores for [pid], if it stores anything. *)
Definition stored_record (ps : Psutil) (show : bool) (pid : Z) : option ProcessInfo :=
  match ps_Process ps pid with
  | Ok _ =>
      match read_record ps show pid with
      | inr process_info => Some process_info
      | inl _ => None
      end
  | _ => None
  end.

(** The value of a call, or [default] when it raised. *)
Definition or_default {A : Type} (r : Read A) (default : A) : A :=
  match r with
  | Ok a => a
  | _ => default
  end.

(** The call raised nothing but the two [psutil] exceptions. *)
Definition quiet {A : Type} (r : Read A) : Prop :=
  forall e, r <> Raised e.

(** No call made for [pid] raised anything but the two [psutil]
    exceptions. *)
Definition best_effort (ps : Psutil) (show : bool) (pid : Z) : Prop :=
  quiet (ps_name ps pid) /\ quiet (ps_ppid ps pid) /\
  quiet (ps_username ps pid) /\ quiet (ps_status ps pid) /\
  (show = true -> quiet (ps_cpu_percent ps pid)) /\
  quiet (ps_rss ps pid) /\ quiet (ps_num_threads ps pid) /\
  quiet (ps_create_time ps pid) /\ quiet (ps_cmdline ps pid).

(** The pids of [pids] whose body of the loop stores a record. *)
Definition readable (ps : Psutil) (show : bool) (pid : Z) : Prop :=
  exists info, ps_Process ps pid = Ok tt /\ read_record ps show pid = inr info.

(** ** [display_process_subtree], [display_header], [display_statistics],
       [export_to_file] *)

Definition newline : string := String (ascii_of_nat 10) "".

(** [s * n] *)
Fixpoint str_repeat (s : string) (n : nat) : string :=
  match n with
  | O => ""
  | S n' => s +:+ str_repeat s n'
  end.

(** The lines of the tree, once the traversal has returned. *)
Definition tree_lines (E : Env) (t : ProcessTree) (clock : Z -> Q)
    (res : option (gset Z * list Visit)) : list string :=
  match res with
  | Some (_, out) => printed E t clock out
  | None => []
  end.

Definition display_process_subtree (E : Env) (t : ProcessTree) (clock : Z -> Q)
    (pid : Z) : list string :=
  match dict_get (processes t) pid with
  | None =>
      [Fore E RED +:+ "Process with PID " +:+ pretty pid +:+ " not found"
         +:+ RESET_ALL E]
  | Some process =>
      [newline +:+ Fore E CYAN +:+ "Process Subtree for: " +:+ BRIGHT E
         +:+ name process +:+ RESET_ALL E;
       Fore E CYAN +:+ str_repeat "═" 70 +:+ RESET_ALL E +:+ newline]
      ++ tree_lines E t clock (display_subtree (enough_fuel (processes t)) t pid)
  end.

(** [stamp] is [datetime.now().strftime('%Y-%m-%d %H:%M:%S')]. *)
Definition display_header (E : Env) (t : ProcessTree) (stamp : string) : list string :=
  [Fore E CYAN +:+ BRIGHT E +:+ str_repeat "═" 70 +:+ RESET_ALL E;
   Fore E CYAN +:+ BRIGHT E +:+ "Process Tree Visualizer" +:+ RESET_ALL E;
   Fore E CYAN +:+ "Created by: Michael Semera" +:+ RESET_ALL E;
   Fore E CYAN +:+ "Timestamp: " +:+ stamp +:+ RESET_ALL E;
   Fore E CYAN +:+ "Total Processes: " +:+ pretty (length (processes t))
     +:+ RESET_ALL E;
   Fore E CYAN +:+ BRIGHT E +:+ str_repeat "═" 70 +:+ RESET_ALL E +:+ newline].

Definition display_statistics (E : Env) (t : ProcessTree) : list string :=
  let stats := get_statistics t in
  [newline +:+ Fore E CYAN +:+ BRIGHT E +:+ "Process Statistics:" +:+ RESET_ALL E;
   Fore E WHITE +:+ "Total Processes: " +:+ Fore E GREEN
     +:+ pretty (total_processes stats) +:+ RESET_ALL E;
   Fore E WHITE +:+ "Root Processes: " +:+ Fore E GREEN
     +:+ pretty (n_root_processes stats) +:+ RESET_ALL E;
   Fore E WHITE +:+ "Total Memory: " +:+ Fore E YELLOW
     +:+ fmt_1f E (total_memory_mb stats) +:+ " MB" +:+ RESET_ALL E;
   Fore E WHITE +:+ "Total Threads: " +:+ Fore E CYAN
     +:+ pretty (total_threads stats) +:+ RESET_ALL E;
   Fore E WHITE +:+ "Running: " +:+ Fore E GREEN +:+ pretty (running stats)
     +:+ RESET_ALL E +:+ " | "
     +:+ "Sleeping: " +:+ Fore E CYAN +:+ pretty (sleeping stats)
     +:+ RESET_ALL E +:+ " | "
     +:+ "Zombie: " +:+ Fore E RED +:+ pretty (zombie stats) +:+ RESET_ALL E].

(** What one call of the function [display_tree] of [main] meets outside
    the program: [psutil], the time stamps and the clocks of the rendering
    on the terminal and of the rendering into the file, and [open], which
    gives the text of its exception when it fails. *)
Record World := mkWorld {
  w_psutil : Psutil;
  w_stamp : string;
  w_clock : Z -> Q;
  w_file_stamp : string;
  w_file_clock : Z -> Q;
  w_open : string -> option string
}.

(** [export_to_file]: the lines written to the file, if it could be
    opened, and the line printed afterwards. *)
Definition export_to_file (E : Env) (W : World) (t : ProcessTree) (filename : string)
    : option (list string) * list string :=
  match w_open W filename with
  | None =>
      (Some (display_header E t (w_file_stamp W)
               ++ tree_lines E t (w_file_clock W)
                    (display_roots (enough_fuel (processes t)) t)),
       [Fore E GREEN +:+ "Process tree exported to " +:+ filename
          +:+ RESET_ALL E])
  | Some e =>
      (None, [Fore E RED +:+ "Error exporting to file: " +:+ e +:+ RESET_ALL E])
  end.

(** ** The function [display_tree] of [main] *)

(** The arguments of the command line that this function reads. *)
Record Args := mkArgs {
  a_resources : bool;
  a_verbose : bool;
  a_pid : option Z;
  a_search : option string;
  a_output : option string;
  a_stats : bool
}.

(** [if args.pid], [if args.search]: [None], 0 and the empty string are
    false. *)
Definition given_pid (a : Args) : option Z :=
  match a_pid a with
  | Some n => if Z.eqb n 0 then None else Some n
  | None => None
  end.

Definition given_string (o : option string) : option string :=
  match o with
  | Some s => if String.eqb s "" then None else Some s
  | None => None
  end.

(** The lines of the mode that the arguments select. *)
Definition mode_lines (E : Env) (W : World) (a : Args) (t : ProcessTree) : list string :=
  match given_string (a_search a) with
  | Some query =>
      match find_process E t query with
      | [] =>
          [Fore E RED +:+ "No processes found matching '" +:+ query +:+ "'"
             +:+ RESET_ALL E]
      | matches =>
          [Fore E GREEN +:+ "Found " +:+ pretty (length matches)
             +:+ " matching process(es):" +:+ RESET_ALL E +:+ newline]
          ++ flat_map (fun proc =>
                         display_process_subtree E t (w_clock W) (pid proc))
                      matches
      end
  | None =>
      match given_pid a with
      | Some n => display_process_subtree E t (w_clock W) n
      | None =>
          tree_lines E t (w_clock W)
                     (display_roots (enough_fuel (processes t)) t)
      end
  end.

(** Everything printed, and the file written if any. *)
Definition main_display_tree (E : Env) (W : World) (a : Args)
    : list string * option (string * list string) :=
  let collected :=
    collect_processes E (w_psutil W) (new_tree (a_resources a) (a_verbose a)) in
  let t := build_tree (c_tree (fst collected)) in
  let shown :=
    snd collected ++ display_header E t (w_stamp W) ++ mode_lines E W a t
      ++ (if a_stats a then display_statistics E t else []) in
  match given_string (a_output a) with
  | Some filename =>
      let exported := export_to_file E W t filename in
      (shown ++ snd exported,
       match fst exported with
       | Some content => Some (filename, content)
       | None => None
       end)
  | None => (shown, None)
  end.

(** ** Descendants *)

(** [k] is [r] or below [r] along [children] references. *)
Definition descends (d : dict) (r k : Z) : Prop := k = r \/ ancestor d r k.

(** Pre-order: every node of [out] is a top node (a root of the call) or
    was printed by the loop of a node that stands before it in [out]. *)
Definition preorder (top : Visit -> Prop) (out : list Visit) : Prop :=
  forall l1 v l2, out = l1 ++ v :: l2 ->
    top v \/ exists u j, u ∈ l1 /\ child_visit u v j.

(** The visit of a call made by a loop over [xs] that started at index
    [i] of a list of length [n], with the prefix [pre]. *)
Definition loop_top (pre : string) (n i : nat) (xs : list Z) (v : Visit) : Prop :=
  exists j, xs !! j = Some (v_ref v) /\
            v_is_last v = Nat.eqb (i + j) (n - 1) /\ v_prefix v = pre.

(** A source in which every process can be read, with the records [ps]. *)
Definition source_of (ps : list ProcessInfo) : Psutil :=
  let get {A : Type} (f : ProcessInfo -> A) (default : A) (k : Z) : Read A :=
    match find (fun p => Z.eqb (pid p) k) ps with
    | Some p => Ok (f p)
    | None => Denied "gone"
    end in
  mkPsutil (Ok (map pid ps)) (get (fun _ => tt) tt)
           (get name "") (get ppid 0) (get username "") (get status "")
           (get cpu_percent 0%Q) (get (fun _ => 0) 0) (get num_threads 0)
           (get create_time 0%Q) (get (fun p => [cmdline p]) []) (fun _ => 0%Q).

(** A source in which pid 2 denies every detail and pid 3 is gone. *)
Definition guarded_source : Psutil :=
  mkPsutil (Ok [1; 2; 3])
           (fun k => if Z.eqb k 3 then Denied "no such process" else Ok tt)
           (fun k => if Z.eqb k 1 then Ok "init" else Denied "access denied")
           (fun k => if Z.eqb k 1 then Ok 0 else Denied "access denied")
           (fun k => if Z.eqb k 1 then Ok "root" else Denied "access denied")
           (fun k => if Z.eqb k 1 then Ok "sleeping" else Denied "access denied")
           (fun k => if Z.eqb k 1 then Ok 0%Q else Denied "access denied")
           (fun k => if Z.eqb k 1 then Ok 1048576 else Denied "access denied")
           (fun k => if Z.eqb k 1 then Ok 1 else Denied "access denied")
           (fun k => if Z.eqb k 1 then Ok 0%Q else Denied "access denied")
           (fun k => if Z.eqb k 1 then Ok ["/sbin/init"; "splash"]
                     else Denied "access denied")
           (fun _ => 1000%Q).

(** [v1] stands before [v2] in the output. *)
Definition before (out : list Visit) (v1 v2 : Visit) : Prop :=
  exists l1 l2 l3, out = l1 ++ v1 :: l2 ++ v2 :: l3.

(** Three processes in verbose mode: a command line of 50 two-byte
    characters, one of 81 two-byte characters, and one equal to the name. *)
Definition verbose_cmdlines : ProcessTree :=
  snapshot [mkProcessInfo 1 0 "init" "root" "sleeping" 0 0 1 0
                          (str_repeat "é" 50) [];
            mkProcessInfo 2 1 "app" "root" "sleeping" 0 0 1 0
                          (str_repeat "é" 81) [];
            proc 3 1 "sh"] false true.

(** A run in which [psutil.pids()] raises. *)
Definition unavailable_world : World :=
  mkWorld (mkPsutil (Raised "permission denied")
             (ps_Process guarded_source) (ps_name guarded_source)
             (ps_ppid guarded_source) (ps_username guarded_source)
             (ps_status guarded_source) (ps_cpu_percent guarded_source)
             (ps_rss guarded_source) (ps_num_threads guarded_source)
             (ps_create_time guarded_source) (ps_cmdline guarded_source)
             (ps_time guarded_source))
          "2024-01-01 00:00:00" (fun _ => 0%Q)
          "2024-01-01 00:00:01" (fun _ => 0%Q)
          (fun _ => None).

(** A run in which the four processes of [four_processes] are read and
    the file can be opened. *)
Definition sample_world : World :=
  mkWorld (source_of [proc 1 0 "init"; proc 10 1 "shell";
                      proc 20 10 "editor"; proc 99 5000 "orphan"])
          "2024-01-01 00:00:00" (fun _ => 0%Q)
          "2024-01-01 00:00:01" (fun _ => 60%Q)
          (fun _ => None).

(** The tree of one call of the function [display_tree] of [main], after
    [collect_processes] and [build_tree]. *)
Definition main_tree (E : Env) (W : World) (a : Args) : ProcessTree :=
  build_tree
    (c_tree (fst (collect_processes E (w_psutil W)
                    (new_tree (a_resources a) (a_verbose a))))).

(** * Facts about dictionaries *)

Section Dict.

Implicit Types (d : dict) (k q c : Z) (p : ProcessInfo).

Lemma children_set_children p cs : children (set_children p cs) = cs.
Proof. reflexivity. Qed.

Lemma set_children_twice p cs cs' :
  set_children (set_children p cs) cs' = set_children p cs'.
Proof. reflexivity. Qed.

Lemma set_children_id p : set_children p (children p) = p.
Proof. by destruct p. Qed.

Lemma dict_get_Some_elem d k p : dict_get d k = Some p -> (k, p) ∈ d.
Proof.
  induction d as [|[k' p'] d IH]; simpl; [done|].
  destruct (Z.eqb_spec k' k) as [->|Hne]; intros H.
  - injection H as ->. left.
  - right. by apply IH.
Qed.

Lemma dict_get_Some_key d k p : dict_get d k = Some p -> k ∈ keys d.
Proof.
  intros H%dict_get_Some_elem. unfold keys.
  apply list_elem_of_fmap. by exists (k, p).
Qed.

Lemma dict_get_key d k : k ∈ keys d -> exists p, dict_get d k = Some p.
Proof.
  induction d as [|[k' p'] d IH]; simpl; intros H.
  - by apply elem_of_nil in H.
  - destruct (Z.eqb_spec k' k) as [->|Hne]; [by eexists|].
    apply elem_of_cons in H as [H|H]; [congruence|]. by apply IH.
Qed.

Lemma dict_get_elem d k p : dict_ok d -> (k, p) ∈ d -> dict_get d k = Some p.
Proof.
  unfold dict_ok, keys. induction d as [|[k' p'] d IH]; simpl; intros Hnd H.
  - by apply elem_of_nil in H.
  - apply NoDup_cons in Hnd as [Hnotin Hnd].
    apply elem_of_cons in H as [H|H].
    + injection H as -> ->. by rewrite Z.eqb_refl.
    + destruct (Z.eqb_spec k' k) as [->|Hne]; [|by apply IH].
      exfalso. apply Hnotin. apply list_elem_of_fmap. by exists (k, p).
Qed.

Lemma dict_mem_true d k : dict_mem d k = true <-> k ∈ keys d.
Proof.
  unfold dict_mem. split.
  - destruct (dict_get d k) eqn:E; [|done]. intros _. by eapply dict_get_Some_key.
  - intros [p ->]%dict_get_key. done.
Qed.

Lemma dict_mem_false d k : dict_mem d k = false <-> k ∉ keys d.
Proof.
  rewrite <- dict_mem_true. destruct (dict_mem d k); split; congruence.
Qed.

Lemma dict_get_map (f : Z -> ProcessInfo -> ProcessInfo) d k :
  dict_get (map (fun kp : Z * ProcessInfo => (fst kp, f (fst kp) (snd kp))) d) k
  = f k <$> dict_get d k.
Proof.
  induction d as [|[k' p'] d IH]; simpl; [done|].
  destruct (Z.eqb_spec k' k) as [->|Hne]; [done|]. apply IH.
Qed.

Lemma keys_map (f : Z -> ProcessInfo -> ProcessInfo) d :
  keys (map (fun kp : Z * ProcessInfo => (fst kp, f (fst kp) (snd kp))) d) = keys d.
Proof. unfold keys. rewrite map_map. done. Qed.

Lemma append_child_as_map d q c :
  append_child d q c =
  map (fun kp : Z * ProcessInfo =>
         (fst kp, (fun k p => if Z.eqb k q
                              then set_children p (children p ++ [c]) else p)
                    (fst kp) (snd kp))) d.
Proof.
  unfold append_child. apply map_ext. intros [k p]. simpl.
  by destruct (Z.eqb k q).
Qed.

Lemma dict_get_append_child d q c k :
  dict_get (append_child d q c) k =
  (fun p => if Z.eqb k q then set_children p (children p ++ [c]) else p)
    <$> dict_get d k.
Proof.
  rewrite append_child_as_map.
  apply (dict_get_map (fun k p => if Z.eqb k q
                                  then set_children p (children p ++ [c]) else p)).
Qed.

Lemma keys_append_child d q c : keys (append_child d q c) = keys d.
Proof.
  rewrite append_child_as_map.
  apply (keys_map (fun k p => if Z.eqb k q
                              then set_children p (children p ++ [c]) else p)).
Qed.

Lemma dict_mem_append_child d q c k :
  dict_mem (append_child d q c) k = dict_mem d k.
Proof.
  unfold dict_mem. rewrite dict_get_append_child. by destruct (dict_get d k).
Qed.

Lemma dict_get_sort_children d k :
  dict_get (sort_children d) k =
  (fun p => set_children p (sort_by (pid_of d) (children p))) <$> dict_get d k.
Proof.
  unfold sort_children.
  apply (dict_get_map (fun _ p => set_children p (sort_by (pid_of d) (children p)))).
Qed.

Lemma keys_sort_children d : keys (sort_children d) = keys d.
Proof.
  unfold sort_children.
  apply (keys_map (fun _ p => set_children p (sort_by (pid_of d) (children p)))).
Qed.

End Dict.

(** * Facts about the stable sort *)

Section Sort.

Variable key : Z -> Z.

Lemma insert_by_perm x l : insert_by key x l ≡ₚ x :: l.
Proof.
  induction l as [|y l IH]; simpl; [done|].
  destruct (Z.leb (key x) (key y)); [done|].
  rewrite IH. apply Permutation_swap.
Qed.

Lemma sort_by_perm l : sort_by key l ≡ₚ l.
Proof.
  induction l as [|x l IH]; simpl; [done|].
  rewrite insert_by_perm. by rewrite IH.
Qed.

Lemma elem_of_sort_by x l : x ∈ sort_by key l <-> x ∈ l.
Proof. by rewrite sort_by_perm. Qed.

Lemma length_sort_by l : length (sort_by key l) = length l.
Proof. by rewrite sort_by_perm. Qed.

Lemma NoDup_sort_by l : NoDup l -> NoDup (sort_by key l).
Proof. by rewrite sort_by_perm. Qed.

Lemma insert_by_sorted x l :
  StronglySorted (key_le key) l -> StronglySorted (key_le key) (insert_by key x l).
Proof.
  induction 1 as [|y l Hs IH Hall]; simpl.
  - repeat constructor.
  - destruct (Z.leb_spec (key x) (key y)) as [Hle|Hgt].
    + constructor; [by constructor|].
      constructor; [done|].
      eapply Forall_impl; [exact Hall|]. unfold key_le. intros; simpl in *; lia.
    + constructor; [done|].
      rewrite insert_by_perm. constructor; [unfold key_le; lia|done].
Qed.

Lemma sort_by_sorted l : StronglySorted (key_le key) (sort_by key l).
Proof.
  induction l as [|x l IH]; simpl; [constructor|]. by apply insert_by_sorted.
Qed.

(** Stability: a list that is already in order is left as it is. *)
Lemma sort_by_id l : StronglySorted (key_le key) l -> sort_by key l = l.
Proof.
  induction 1 as [|x l Hs IH Hall]; simpl; [done|].
  rewrite IH. destruct Hall as [|y l Hxy _]; simpl; [done|].
  unfold key_le in Hxy. destruct (Z.leb_spec (key x) (key y)); [done|lia].
Qed.

End Sort.

(** * The first loop of [build_tree] *)

Section Link.

Implicit Types (d items : dict) (t : ProcessTree) (k q c : Z).

Lemma kids_cons c pc items q :
  kids ((c, pc) :: items) q =
  if decide (ppid pc = q) then c :: kids items q else kids items q.
Proof. unfold kids. rewrite filter_cons. simpl. by destruct (decide _). Qed.

Lemma orphans_cons d c pc items :
  orphans d ((c, pc) :: items) =
  if dict_mem d (ppid pc) then orphans d items else c :: orphans d items.
Proof.
  unfold orphans. rewrite filter_cons. simpl.
  destruct (dict_mem d (ppid pc)); by destruct (decide _).
Qed.

Lemma orphans_ext d d' items :
  (forall k, dict_mem d k = dict_mem d' k) -> orphans d items = orphans d' items.
Proof.
  intros H. induction items as [|[c pc] items IH]; [done|].
  rewrite !orphans_cons, IH, H. done.
Qed.

Lemma elem_of_kids items c q :
  c ∈ kids items q <-> exists pc, (c, pc) ∈ items /\ ppid pc = q.
Proof.
  unfold kids. rewrite list_elem_of_fmap. split.
  - intros [[c' pc] [-> [H1 H2]%list_elem_of_filter]]. by exists pc.
  - intros [pc [H1 H2]]. exists (c, pc). split; [done|].
    by apply list_elem_of_filter.
Qed.

Lemma elem_of_orphans d items c :
  c ∈ orphans d items <-> exists pc, (c, pc) ∈ items /\ ppid pc ∉ keys d.
Proof.
  unfold orphans. rewrite list_elem_of_fmap. split.
  - intros [[c' pc] [-> [H1 H2]%list_elem_of_filter]]. exists pc.
    split; [done|]. by apply dict_mem_false.
  - intros [pc [H1 H2]]. exists (c, pc). split; [done|].
    apply list_elem_of_filter. split; [|done]. by apply dict_mem_false.
Qed.

Lemma link_step_true t c pc :
  dict_mem (processes t) (ppid pc) = true ->
  link_step t (c, pc) =
  mkProcessTree (append_child (processes t) (ppid pc) c) (root_processes t)
                (show_resources t) (verbose t).
Proof. unfold link_step. simpl. by intros ->. Qed.

Lemma link_step_false t c pc :
  dict_mem (processes t) (ppid pc) = false ->
  link_step t (c, pc) =
  mkProcessTree (processes t) (root_processes t ++ [c])
                (show_resources t) (verbose t).
Proof. unfold link_step. simpl. by intros ->. Qed.

(** The state after the loop has run over [items]. *)
Lemma link_fold items : forall t,
  (forall k, dict_get (processes (fold_left link_step items t)) k =
             (fun p => set_children p (children p ++ kids items k))
               <$> dict_get (processes t) k) /\
  root_processes (fold_left link_step items t) =
    root_processes t ++ orphans (processes t) items /\
  show_resources (fold_left link_step items t) = show_resources t /\
  verbose (fold_left link_step items t) = verbose t.
Proof.
  induction items as [|[c pc] items IH]; intros t; simpl.
  - split; [|by rewrite app_nil_r].
    intros k. destruct (dict_get (processes t) k) as [p|]; simpl; [|done].
    unfold kids. simpl. by rewrite app_nil_r, set_children_id.
  - destruct (dict_mem (processes t) (ppid pc)) eqn:Hmem;
      [rewrite (link_step_true _ _ _ Hmem)|rewrite (link_step_false _ _ _ Hmem)];
      match goal with |- context [fold_left link_step items ?t1] =>
        destruct (IH t1) as (Hget & Hroots & Hres & Hverb) end; simpl in *.
    + split; [|split; [|by split]].
      * intros k. rewrite Hget, dict_get_append_child, kids_cons.
        destruct (dict_get (processes t) k) as [p|]; simpl; [|done]. f_equal.
        destruct (Z.eqb_spec k (ppid pc)) as [->|Hne].
        -- rewrite decide_True by done. simpl. by rewrite <- app_assoc.
        -- rewrite decide_False by congruence. done.
      * rewrite Hroots, orphans_cons, Hmem.
        f_equal. apply orphans_ext. intros k. apply dict_mem_append_child.
    + split; [|split; [|by split]].
      * intros k. rewrite Hget, kids_cons.
        destruct (dict_get (processes t) k) as [p|] eqn:Hk; simpl; [|done].
        rewrite decide_False; [done|]. intros Heq.
        unfold dict_mem in Hmem. by rewrite Heq, Hk in Hmem.
      * rewrite Hroots, orphans_cons, Hmem. by rewrite <- app_assoc.
Qed.

Lemma link_pass_get t k :
  dict_get (processes (link_pass t)) k =
  (fun p => set_children p (children p ++ kids (processes t) k))
    <$> dict_get (processes t) k.
Proof. apply (link_fold (processes t) t). Qed.

Lemma link_pass_roots t :
  root_processes (link_pass t) =
  root_processes t ++ orphans (processes t) (processes t).
Proof. apply (link_fold (processes t) t). Qed.

Lemma link_pass_pid_of t r :
  pid_of (processes (link_pass t)) r = pid_of (processes t) r.
Proof.
  unfold pid_of. rewrite link_pass_get.
  by destruct (dict_get (processes t) r).
Qed.

Lemma sort_by_ext (f g : Z -> Z) l :
  (forall x, f x = g x) -> sort_by f l = sort_by g l.
Proof.
  intros H. induction l as [|x l IH]; simpl; [done|]. rewrite IH.
  generalize (sort_by g l). intros m.
  induction m as [|y m IHm]; simpl; [done|]. by rewrite !H, IHm.
Qed.

(** The state after [build_tree], in terms of the state before it. *)
Lemma build_tree_get t k :
  dict_get (processes (build_tree t)) k =
  (fun p => set_children p
              (sort_by (pid_of (processes t))
                       (children p ++ kids (processes t) k)))
    <$> dict_get (processes t) k.
Proof.
  unfold build_tree. simpl. rewrite dict_get_sort_children, link_pass_get.
  destruct (dict_get (processes t) k) as [p|]; simpl; [|done].
  f_equal. f_equal. apply sort_by_ext, link_pass_pid_of.
Qed.

Lemma build_tree_roots t :
  root_processes (build_tree t) =
  sort_by (pid_of (processes t))
          (root_processes t ++ orphans (processes t) (processes t)).
Proof.
  unfold build_tree. simpl. rewrite link_pass_roots.
  apply sort_by_ext, link_pass_pid_of.
Qed.

Lemma build_tree_keys t : keys (processes (build_tree t)) = keys (processes t).
Proof.
  unfold build_tree. simpl. rewrite keys_sort_children.
  unfold link_pass. generalize (processes t) at 1. intros items. revert t.
  induction items as [|[c pc] items IH]; intros t; simpl; [done|].
  rewrite IH. unfold link_step. simpl.
  destruct (dict_mem _ _); simpl; [apply keys_append_child|done].
Qed.

Lemma build_tree_pid_of t r :
  pid_of (processes (build_tree t)) r = pid_of (processes t) r.
Proof.
  unfold pid_of. rewrite build_tree_get. by destruct (dict_get (processes t) r).
Qed.

Lemma build_tree_children_of t q :
  children_of (processes (build_tree t)) q =
  match dict_get (processes t) q with
  | Some p => sort_by (pid_of (processes t)) (children p ++ kids (processes t) q)
  | None => []
  end.
Proof.
  unfold children_of. rewrite build_tree_get.
  by destruct (dict_get (processes t) q).
Qed.

(** Who is a child of whom, and who is a root, for a fresh snapshot. *)
Lemma child_after_build t q c :
  fresh t -> dict_ok (processes t) ->
  c ∈ children_of (processes (build_tree t)) q <->
  q ∈ keys (processes t) /\
  exists pc, dict_get (processes t) c = Some pc /\ ppid pc = q.
Proof.
  intros [_ Hfresh] Hok. rewrite build_tree_children_of.
  destruct (dict_get (processes t) q) as [p|] eqn:Hq.
  - rewrite elem_of_sort_by, (Hfresh _ _ Hq). simpl. rewrite elem_of_kids.
    split.
    + intros [pc [H1 H2]]. split; [by eapply dict_get_Some_key|].
      exists pc. split; [by apply dict_get_elem|done].
    + intros [_ [pc [H1 H2]]]. exists pc. split; [by apply dict_get_Some_elem|done].
  - split; [by intros ?%elem_of_nil|].
    intros [[p Hp]%dict_get_key _]. congruence.
Qed.

Lemma root_after_build t c :
  fresh t -> dict_ok (processes t) ->
  c ∈ root_processes (build_tree t) <->
  exists pc, dict_get (processes t) c = Some pc /\
             ppid pc ∉ keys (processes t).
Proof.
  intros [Hroots _] Hok. rewrite build_tree_roots, elem_of_sort_by, Hroots.
  simpl. rewrite elem_of_orphans. split.
  - intros [pc [H1 H2]]. exists pc. split; [by apply dict_get_elem|done].
  - intros [pc [H1 H2]]. exists pc. split; [by apply dict_get_Some_elem|done].
Qed.

End Link.

(** * The traversal *)

Section Traversal.

Variable d : dict.

Implicit Types (r x : Z) (pre : string) (last : bool) (V W : gset Z)
  (out : list Visit) (xs : list Z).

(** What the functions compute is in the relation. *)
Lemma enum_loop_walk body pre n :
  (forall x last V V' o, body x last V = Some (V', o) -> walk d x pre last V V' o) ->
  forall xs i V V' out,
  enum_loop body n i xs V = Some (V', out) -> walk_loop d pre n i xs V V' out.
Proof.
  intros Hbody. induction xs as [|x xs IH]; intros i V V' out; simpl.
  - intros [= <- <-]. constructor.
  - destruct (body x (Nat.eqb i (n - 1)) V) as [[V1 o1]|] eqn:H1; [|done].
    destruct (enum_loop body n (S i) xs V1) as [[V2 o2]|] eqn:H2; [|done].
    intros [= <- <-]. econstructor; eauto.
Qed.

Lemma display_from_walk fuel : forall r pre last V V' out,
  display_from fuel d r pre last V = Some (V', out) ->
  walk d r pre last V V' out.
Proof.
  induction fuel as [|fuel IH]; intros r pre last V V' out; simpl; [done|].
  destruct (dict_get d r) as [p|] eqn:Hr.
  - destruct (decide (pid p ∈ V)) as [Hin|Hnotin].
    + intros [= <- <-]. by eapply walk_seen.
    + destruct (enum_loop _ _ _ _ _) as [[V1 o1]|] eqn:Hloop; [|done].
      intros [= <- <-]. eapply walk_node; [done..|].
      eapply enum_loop_walk; [|exact Hloop]. intros. by apply IH.
  - intros [= <- <-]. by apply walk_absent.
Qed.

(** The [visited] set only grows. *)
Lemma walk_both_mono :
  (forall r pre last V V' out, walk d r pre last V V' out -> V ⊆ V') /\
  (forall pre n i xs V V' out, walk_loop d pre n i xs V V' out -> V ⊆ V').
Proof. apply walk_both; intros; set_solver. Qed.

Lemma walk_mono r pre last V V' out : walk d r pre last V V' out -> V ⊆ V'.
Proof. apply walk_both_mono. Qed.

Lemma walk_loop_mono pre n i xs V V' out :
  walk_loop d pre n i xs V V' out -> V ⊆ V'.
Proof. apply walk_both_mono. Qed.

Lemma adds_nil V : adds V V [].
Proof. unfold adds. simpl. split; [set_solver|]. split; [constructor|set_solver]. Qed.

Lemma adds_app V V1 V2 o1 o2 :
  adds V V1 o1 -> adds V1 V2 o2 -> adds V V2 (o1 ++ o2).
Proof.
  unfold adds, visit_pids. intros (-> & Hnd1 & Hd1) (-> & Hnd2 & Hd2).
  rewrite map_app. split; [|split].
  - rewrite list_to_set_app_L. set_solver.
  - apply NoDup_app. split; [done|]. split; [|done].
    intros k Hk1 Hk2. apply (Hd2 k Hk2). set_solver.
  - intros k [Hk|Hk]%elem_of_app; [by apply Hd1|].
    specialize (Hd2 k Hk). set_solver.
Qed.

Lemma adds_cons V V' v out :
  pid (v_proc v) ∉ V -> adds ({[pid (v_proc v)]} ∪ V) V' out ->
  adds V V' (v :: out).
Proof.
  unfold adds, visit_pids. intros Hv (-> & Hnd & Hd). simpl.
  split; [set_solver|]. split.
  - constructor; [|done]. intros Hk. specialize (Hd _ Hk). set_solver.
  - intros k [->|Hk]%elem_of_cons; [done|]. specialize (Hd _ Hk). set_solver.
Qed.

Lemma walk_both_adds :
  (forall r pre last V V' out, walk d r pre last V V' out -> adds V V' out) /\
  (forall pre n i xs V V' out, walk_loop d pre n i xs V V' out -> adds V V' out).
Proof.
  apply walk_both; intros; eauto using adds_nil, adds_app.
  match goal with |- adds _ _ (?v :: _) => by apply (adds_cons _ _ v) end.
Qed.

Lemma walk_loop_adds pre n i xs V V' out :
  walk_loop d pre n i xs V V' out -> adds V V' out.
Proof. apply walk_both_adds. Qed.

Lemma walk_both_from_dict :
  (forall r pre last V V' out, walk d r pre last V V' out -> from_dict d out) /\
  (forall pre n i xs V V' out, walk_loop d pre n i xs V V' out -> from_dict d out).
Proof.
  apply walk_both; unfold from_dict.
  - intros r pre last V _ v Hv. by apply elem_of_nil in Hv.
  - intros r p pre last V _ _ v Hv. by apply elem_of_nil in Hv.
  - intros r p pre last V V' out Hr _ _ IH v [->|Hv]%elem_of_cons; auto.
  - intros pre n i V v Hv. by apply elem_of_nil in Hv.
  - intros pre n i x xs V V1 V2 o1 o2 _ IH1 _ IH2 v [Hv|Hv]%elem_of_app; auto.
Qed.

Lemma walk_loop_from_dict pre n i xs V V' out :
  walk_loop d pre n i xs V V' out -> from_dict d out.
Proof. apply walk_both_from_dict. Qed.

Lemma closed_out_mono V V' out : V ⊆ V' -> closed_out d V out -> closed_out d V' out.
Proof. unfold closed_out. intros HV H v c pc Hv Hc Hpc. apply HV. eauto. Qed.

Lemma walk_both_closed :
  (forall r pre last V V' out, walk d r pre last V V' out ->
     (forall p, dict_get d r = Some p -> pid p ∈ V') /\ closed_out d V' out) /\
  (forall pre n i xs V V' out, walk_loop d pre n i xs V V' out ->
     (forall x p, x ∈ xs -> dict_get d x = Some p -> pid p ∈ V') /\
     closed_out d V' out).
Proof.
  apply walk_both.
  - intros r pre last V Hr. split; [congruence|].
    intros v c pc Hv. by apply elem_of_nil in Hv.
  - intros r p pre last V Hr Hin. split; [congruence|].
    intros v c pc Hv. by apply elem_of_nil in Hv.
  - intros r p pre last V V' out Hr Hnotin Hloop [IHtop IHout].
    apply walk_loop_mono in Hloop. split.
    + intros p' Hp'. assert (p' = p) as -> by congruence. set_solver.
    + intros v c pc [->|Hv]%elem_of_cons Hc Hpc; simpl in *; eauto.
  - intros pre n i V. split.
    + intros x p Hx. by apply elem_of_nil in Hx.
    + intros v c pc Hv. by apply elem_of_nil in Hv.
  - intros pre n i x xs V V1 V2 o1 o2 Hw [IH1top IH1out] Hloop [IH2top IH2out].
    apply walk_loop_mono in Hloop. split.
    + intros y p [->|Hy]%elem_of_cons Hp; [|eauto]. apply Hloop. eauto.
    + intros v c pc [Hv|Hv]%elem_of_app Hc Hpc; [|eauto]. apply Hloop. eauto.
Qed.

Lemma walk_loop_closed pre n i xs V V' out :
  walk_loop d pre n i xs V V' out ->
  (forall x p, x ∈ xs -> dict_get d x = Some p -> pid p ∈ V') /\
  closed_out d V' out.
Proof. apply walk_both_closed. Qed.

Lemma placed_in_mono out out' v :
  (forall u, u ∈ out -> u ∈ out') -> placed_in out v -> placed_in out' v.
Proof. intros H (u & j & Hu & Hv). exists u, j. auto. Qed.

Lemma walk_both_placed :
  (forall r pre last V V' out, walk d r pre last V V' out ->
     forall v, v ∈ out ->
       (v_ref v = r /\ v_prefix v = pre /\ v_is_last v = last) \/
       placed_in out v) /\
  (forall pre n i xs V V' out, walk_loop d pre n i xs V V' out ->
     forall v, v ∈ out ->
       (exists j, xs !! j = Some (v_ref v) /\
                  v_is_last v = Nat.eqb (i + j) (n - 1) /\ v_prefix v = pre) \/
       placed_in out v).
Proof.
  apply walk_both.
  - intros r pre last V _ v Hv. by apply elem_of_nil in Hv.
  - intros r p pre last V _ _ v Hv. by apply elem_of_nil in Hv.
  - intros r p pre last V V' out Hr Hnotin _ IH v [->|Hv]%elem_of_cons.
    + by left.
    + right. destruct (IH v Hv) as [(j & Hj & Hlast & Hpre)|Hplaced].
      * exists (mkVisit r p pre last), j. split; [left|]. by split.
      * eapply placed_in_mono; [|exact Hplaced]. intros u Hu. by right.
  - intros pre n i V v Hv. by apply elem_of_nil in Hv.
  - intros pre n i x xs V V1 V2 o1 o2 _ IH1 _ IH2 v [Hv|Hv]%elem_of_app.
    + destruct (IH1 v Hv) as [(Href & Hpre & Hlast)|Hplaced].
      * left. exists 0%nat. simpl. rewrite Nat.add_0_r. by subst.
      * right. eapply placed_in_mono; [|exact Hplaced].
        intros u Hu. apply elem_of_app. by left.
    + destruct (IH2 v Hv) as [(j & Hj & Hlast & Hpre)|Hplaced].
      * left. exists (S j). simpl. by rewrite Nat.add_succ_r.
      * right. eapply placed_in_mono; [|exact Hplaced].
        intros u Hu. apply elem_of_app. by right.
Qed.

Lemma walk_loop_placed pre n i xs V V' out :
  walk_loop d pre n i xs V V' out ->
  forall v, v ∈ out ->
    (exists j, xs !! j = Some (v_ref v) /\
               v_is_last v = Nat.eqb (i + j) (n - 1) /\ v_prefix v = pre) \/
    placed_in out v.
Proof. apply walk_both_placed. Qed.

End Traversal.

(** * Termination of the traversal *)

Section Termination.

Variable d : dict.

Implicit Types (r x : Z) (pre : string) (last : bool) (V W : gset Z)
  (out : list Visit) (xs : list Z).

Lemma dict_get_pid r p : dict_get d r = Some p -> pid p ∈ dict_pids d.
Proof.
  intros H%dict_get_Some_elem. unfold dict_pids.
  apply elem_of_list_to_set, list_elem_of_fmap. by exists (r, p).
Qed.

Lemma unvisited_mono V W : V ⊆ W -> (unvisited d W <= unvisited d V)%nat.
Proof. intros H. unfold unvisited. apply subseteq_size. set_solver. Qed.

Lemma unvisited_add V k :
  k ∈ dict_pids d -> k ∉ V -> (unvisited d ({[k]} ∪ V) < unvisited d V)%nat.
Proof. intros Hk Hnot. unfold unvisited. apply subset_size. set_solver. Qed.

Lemma size_list_to_set_le (l : list Z) :
  (size (list_to_set l : gset Z) <= length l)%nat.
Proof.
  induction l as [|x l IH].
  - rewrite list_to_set_nil, size_empty. done.
  - rewrite list_to_set_cons, size_union_alt, size_singleton. simpl.
    assert (size (list_to_set l ∖ {[x]} : gset Z) <= size (list_to_set l : gset Z))%nat.
    { apply subseteq_size. set_solver. }
    lia.
Qed.

Lemma unvisited_le V : (unvisited d V <= length d)%nat.
Proof.
  unfold unvisited. etransitivity.
  - apply (subseteq_size (dict_pids d ∖ V) (dict_pids d)). set_solver.
  - unfold dict_pids. etransitivity; [apply size_list_to_set_le|].
    by rewrite length_map.
Qed.

Lemma enum_loop_total body pre n (bound : nat) :
  (forall x last W, (unvisited d W <= bound)%nat ->
                    exists W' o, body x last W = Some (W', o)) ->
  (forall x last W W' o, body x last W = Some (W', o) ->
                         walk d x pre last W W' o) ->
  forall xs i W, (unvisited d W <= bound)%nat ->
                 exists W' o, enum_loop body n i xs W = Some (W', o).
Proof.
  intros Htotal Hwalk. induction xs as [|x xs IH]; intros i W HW; simpl.
  - eauto.
  - destruct (Htotal x (Nat.eqb i (n - 1)) W HW) as (W1 & o1 & H1).
    rewrite H1. apply Hwalk, walk_mono, unvisited_mono in H1.
    destruct (IH (S i) W1) as (W2 & o2 & H2); [lia|].
    rewrite H2. eauto.
Qed.

(** A call returns as soon as the fuel exceeds the number of pids that
    are still unvisited. *)
Lemma display_from_total fuel : forall r pre last V,
  (unvisited d V < fuel)%nat ->
  exists V' out, display_from fuel d r pre last V = Some (V', out).
Proof.
  induction fuel as [|fuel IH]; intros r pre last V HV; [lia|]. simpl.
  destruct (dict_get d r) as [p|] eqn:Hr; [|eauto].
  destruct (decide (pid p ∈ V)) as [Hin|Hnotin]; [eauto|].
  pose proof (unvisited_add V (pid p) (dict_get_pid _ _ Hr) Hnotin) as Hlt.
  destruct (enum_loop_total
              (fun child is_last_child =>
                 display_from fuel d child (pre +:+ extension last) is_last_child)
              (pre +:+ extension last) (length (children p))
              (unvisited d ({[pid p]} ∪ V))) with (xs := children p) (i := 0%nat)
              (W := {[pid p]} ∪ V) as (V' & out & Hloop).
  - intros x l W HW. apply IH. lia.
  - intros x l W W' o. apply display_from_walk.
  - lia.
  - rewrite Hloop. eauto.
Qed.

End Termination.

Lemma display_roots_total t :
  exists V' out, display_roots (enough_fuel (processes t)) t = Some (V', out).
Proof.
  unfold display_roots, enough_fuel.
  eapply (enum_loop_total (processes t) _ "" _ (length (processes t))).
  - intros x l W _. apply display_from_total.
    pose proof (unvisited_le (processes t) W). lia.
  - intros x l W W' o. apply display_from_walk.
  - apply unvisited_le.
Qed.

Lemma display_roots_walk fuel t V' out :
  display_roots fuel t = Some (V', out) ->
  walk_loop (processes t) "" (length (root_processes t)) 0 (root_processes t)
            ∅ V' out.
Proof.
  unfold display_roots. apply enum_loop_walk.
  intros x l W W' o. apply display_from_walk.
Qed.

(** * Parent chains *)

Section Chains.

Variable d : dict.

Implicit Types (k q c : Z) (n m : nat).

Lemma nth_parent_add n m k :
  nth_parent d (n + m) k =
  match nth_parent d n k with Some q => nth_parent d m q | None => None end.
Proof.
  revert k. induction n as [|n IH]; intros k; simpl; [done|].
  destruct (dict_get d k); [apply IH|done].
Qed.

Lemma nth_parent_None_le n m k :
  nth_parent d n k = None -> (n <= m)%nat -> nth_parent d m k = None.
Proof.
  intros Hn Hle. replace m with (n + (m - n))%nat by lia.
  by rewrite nth_parent_add, Hn.
Qed.

(** A record on a cycle has a parent chain that never leaves the index. *)
Lemma on_cycle_not_rooted k : on_cycle d k -> ~ rooted d k.
Proof.
  intros [n Hn] [m Hm]. revert Hm.
  induction (lt_wf m) as [m _ IH]. intros Hm.
  destruct (Nat.lt_ge_cases m (S n)) as [Hlt|Hge].
  - rewrite (nth_parent_None_le m (S n) k) in Hn by (done || lia). done.
  - apply (IH (m - S n)%nat); [lia|].
    replace m with (S n + (m - S n))%nat in Hm by lia.
    by rewrite nth_parent_add, Hn in Hm.
Qed.

Lemma on_cycle_key k : on_cycle d k -> k ∈ keys d.
Proof.
  intros [n Hn]. simpl in Hn.
  destruct (dict_get d k) eqn:E; [|done]. by eapply dict_get_Some_key.
Qed.

End Chains.

(** * The forest that [build_tree] leaves *)

Section Forest.

Variable t : ProcessTree.
Hypothesis Hfresh : fresh t.
Hypothesis Hok : dict_ok (processes t).

Local Abbreviation d := (processes t).
Local Abbreviation t' := (build_tree t).

Implicit Types (k q c : Z) (n m : nat).

(** A parent link of the input is a child edge of the output. *)
Lemma parent_is_child k p :
  dict_get d k = Some p -> ppid p ∈ keys d ->
  k ∈ children_of (processes t') (ppid p).
Proof. intros Hk Hp. apply child_after_build; eauto. Qed.

Lemma child_is_parent q c :
  c ∈ children_of (processes t') q ->
  exists pc, dict_get d c = Some pc /\ ppid pc = q /\ q ∈ keys d.
Proof.
  intros (Hq & pc & Hc & Hpc)%child_after_build; [|done..]. eauto.
Qed.

(** Following parent links upwards is following child edges downwards. *)
Lemma nth_parent_ancestor n k q :
  nth_parent d (S n) k = Some q -> q ∈ keys d -> ancestor (processes t') q k.
Proof.
  revert k. induction n as [|n IH]; intros k; simpl.
  - destruct (dict_get d k) as [p|] eqn:Hk; [|done]. intros [= <-] Hq.
    apply anc_child. by apply parent_is_child.
  - destruct (dict_get d k) as [p|] eqn:Hk; [|done]. intros Hn Hq.
    eapply anc_step; [apply (IH (ppid p)); [exact Hn|done]|].
    apply parent_is_child; [done|].
    simpl in Hn. destruct (dict_get d (ppid p)) eqn:E; [|done].
    by eapply dict_get_Some_key.
Qed.

Lemma ancestor_nth_parent a c :
  ancestor (processes t') a c -> exists n, nth_parent d (S n) c = Some a.
Proof.
  induction 1 as [a c Hc|a b c Hab [n IH] Hc].
  - apply child_is_parent in Hc as (pc & Hc & <- & _).
    exists 0%nat. simpl. by rewrite Hc.
  - apply child_is_parent in Hc as (pc & Hc & <- & _).
    exists (S n). simpl. rewrite Hc. exact IH.
Qed.

Lemma ancestor_self_on_cycle k :
  ancestor (processes t') k k <-> on_cycle d k.
Proof.
  split; [apply ancestor_nth_parent|].
  intros [n Hn]. apply (nth_parent_ancestor n); [done|].
  by apply on_cycle_key; exists n.
Qed.

(** What a traversal from the roots reaches has a chain that ends. *)
Lemma reachable_rooted k : reachable t' k -> rooted d k.
Proof.
  induction 1 as [r Hr|q c Hq [n IH] Hc].
  - apply root_after_build in Hr as (pc & Hr & Hpc); [|done..].
    exists 2%nat. simpl. rewrite Hr.
    apply dict_mem_false in Hpc. unfold dict_mem in Hpc.
    by destruct (dict_get (processes t) (ppid pc)).
  - apply child_is_parent in Hc as (pc & Hc & <- & _).
    exists (S n). simpl. by rewrite Hc.
Qed.

Lemma rooted_reachable k : k ∈ keys d -> rooted d k -> reachable t' k.
Proof.
  intros Hk [n Hn]. revert k Hk Hn.
  induction n as [|n IH]; intros k Hk; simpl; [done|].
  destruct (dict_get_key _ _ Hk) as [p Hp]. rewrite Hp. intros Hn.
  destruct (decide (ppid p ∈ keys d)) as [Hin|Hnotin].
  - eapply reach_child; [apply (IH (ppid p)); done|]. by apply parent_is_child.
  - apply reach_root. apply root_after_build; eauto.
Qed.

Lemma reachable_key k : reachable t' k -> k ∈ keys d.
Proof.
  destruct 1 as [r Hr|q c _ Hc].
  - apply root_after_build in Hr as (pc & Hr & _); [|done..].
    by eapply dict_get_Some_key.
  - apply child_is_parent in Hc as (pc & Hc & _). by eapply dict_get_Some_key.
Qed.

End Forest.

(** * Every record is stored in one place *)

Section Placements.

Implicit Types (d items : dict) (k q c : Z).

Lemma dict_ext d1 d2 :
  keys d1 = keys d2 -> dict_ok d1 ->
  (forall k, dict_get d1 k = dict_get d2 k) -> d1 = d2.
Proof.
  unfold dict_ok, keys. revert d2.
  induction d1 as [|[k1 p1] d1 IH]; intros [|[k2 p2] d2]; simpl; try done.
  intros Hkeys Hnd Hget. inversion Hkeys as [[Hk Hkeys']]. subst k2.
  apply NoDup_cons in Hnd as [Hnotin Hnd].
  pose proof (Hget k1) as H1. rewrite Z.eqb_refl in H1. injection H1 as <-.
  f_equal. apply IH; [done..|]. intros k. specialize (Hget k).
  destruct (Z.eqb_spec k1 k) as [Heq|Hne]; [subst k|done].
  destruct (dict_get d1 k1) as [p|] eqn:E1.
  { apply dict_get_Some_key in E1. done. }
  destruct (dict_get d2 k1) as [p|] eqn:E2; [|done].
  apply dict_get_Some_key in E2. unfold keys in E2. by rewrite <- Hkeys' in E2.
Qed.

(** The dictionary after [build_tree], entry by entry. *)
Lemma build_tree_processes t :
  dict_ok (processes t) ->
  processes (build_tree t) =
  map (fun kp : Z * ProcessInfo =>
         (fst kp, set_children (snd kp)
                    (sort_by (pid_of (processes t))
                             (children (snd kp) ++ kids (processes t) (fst kp)))))
      (processes t).
Proof.
  intros Hok.
  pose (f := fun k p => set_children p
                          (sort_by (pid_of (processes t))
                                   (children p ++ kids (processes t) k))).
  apply dict_ext.
  - rewrite build_tree_keys. symmetry. apply (keys_map f).
  - unfold dict_ok. by rewrite build_tree_keys.
  - intros k. rewrite build_tree_get. symmetry. apply (dict_get_map f).
Qed.

Lemma filter_elem_split items q (Q : list Z) :
  q ∉ Q ->
  filter (fun kp : Z * ProcessInfo => ppid (snd kp) ∈ q :: Q) items ≡ₚ
  filter (fun kp : Z * ProcessInfo => ppid (snd kp) = q) items ++
  filter (fun kp : Z * ProcessInfo => ppid (snd kp) ∈ Q) items.
Proof.
  intros Hq. induction items as [|[c pc] items IH]; [done|].
  rewrite !filter_cons. simpl.
  destruct (decide (ppid pc = q)) as [Heq|Hne].
  - rewrite decide_True by (rewrite Heq; left).
    rewrite decide_False by (rewrite Heq; done). simpl. by rewrite IH.
  - destruct (decide (ppid pc ∈ Q)) as [Hin|Hnotin].
    + rewrite decide_True by by right.
      rewrite IH. apply Permutation_middle.
    + rewrite decide_False; [done|]. by intros [?|?]%elem_of_cons.
Qed.

Lemma concat_kids items (Q : list Z) :
  NoDup Q ->
  concat (map (kids items) Q) ≡ₚ
  map fst (filter (fun kp : Z * ProcessInfo => ppid (snd kp) ∈ Q) items).
Proof.
  induction 1 as [|q Q Hq Hnd IH]; simpl.
  - rewrite (list_filter_iff _ (fun _ => False)).
    + induction items as [|kp items IHi]; [done|].
      rewrite filter_cons. by destruct (decide False).
    + intros kp. split; [by intros ?%elem_of_nil|done].
  - rewrite IH, (filter_elem_split items q Q Hq), map_app. done.
Qed.

Lemma placements_perm t :
  fresh t -> dict_ok (processes t) ->
  placements (build_tree t) ≡ₚ keys (processes t).
Proof.
  intros [Hroots Hfresh] Hok. unfold placements.
  rewrite build_tree_processes by done.
  rewrite build_tree_roots, Hroots, sort_by_perm, app_nil_l.
  unfold values. rewrite map_map, map_map. simpl.
  assert (concat (map (fun kp : Z * ProcessInfo =>
                         sort_by (pid_of (processes t))
                           (children (snd kp) ++ kids (processes t) (fst kp)))
                      (processes t))
          ≡ₚ concat (map (kids (processes t)) (keys (processes t)))) as ->.
  { unfold keys. rewrite map_map.
    assert (forall kp, kp ∈ processes t -> children (snd kp) = []) as Hnil.
    { intros [k p] Hkp. simpl. eapply Hfresh. by apply dict_get_elem. }
    revert Hnil. generalize (kids (processes t)) as g.
    generalize (pid_of (processes t)) as f. clear Hfresh Hok Hroots.
    induction (processes t) as [|kp l IH]; intros f g Hnil; simpl; [done|].
    rewrite sort_by_perm, (Hnil kp) by left. simpl.
    apply Permutation_app; [done|].
    apply IH. intros kp' Hkp'. apply Hnil. by right. }
  rewrite concat_kids by exact Hok.
  unfold orphans. rewrite <- map_app.
  rewrite (list_filter_iff (fun kp : Z * ProcessInfo => dict_mem (processes t) (ppid kp.2) = false)
             (fun kp : Z * ProcessInfo => ~ ppid kp.2 ∈ keys (processes t)))
    by (intros kp; apply dict_mem_false).
  rewrite (Permutation_app_comm (filter _ _)).
  by rewrite filter_app_complement.
Qed.

End Placements.

(** * Snapshots are well-formed inputs *)

Lemma dict_set_elem d k p k' p' :
  (k', p') ∈ dict_set d k p -> (k', p') = (k, p) \/ (k', p') ∈ d.
Proof.
  induction d as [|[k0 p0] d IH]; simpl.
  - intros ->%list_elem_of_singleton. by left.
  - destruct (Z.eqb k0 k).
    + intros [->|H]%elem_of_cons; [by left|]. right. by right.
    + intros [->|H]%elem_of_cons; [right; left|].
      destruct (IH H) as [?|?]; [by left|]. right. by right.
Qed.

Lemma dict_set_ok d k p : dict_ok d -> dict_ok (dict_set d k p).
Proof.
  unfold dict_ok, keys. induction d as [|[k0 p0] d IH]; simpl.
  - intros _. apply NoDup_singleton.
  - intros [Hnotin Hnd]%NoDup_cons.
    destruct (Z.eqb_spec k0 k) as [->|Hne]; simpl.
    + by apply NoDup_cons.
    + apply NoDup_cons. split; [|by apply IH].
      intros ([k1 p1] & Hk1 & [[=]|H]%dict_set_elem)%list_elem_of_fmap;
        simpl in *; subst; [done|].
      apply Hnotin. apply list_elem_of_fmap. by exists (k1, p1).
Qed.

Lemma snapshot_elem ps : forall d k p,
  (k, p) ∈ fold_left (fun d p => dict_set d (pid p) p) ps d ->
  (p ∈ ps /\ k = pid p) \/ (k, p) ∈ d.
Proof.
  induction ps as [|p0 ps IH]; intros d k p; simpl; [by right|].
  intros [[H1 H2]|H]%IH.
  - left. split; [by right|done].
  - apply dict_set_elem in H as [[= -> ->]|H]; [|by right].
    left. split; [left|done].
Qed.

Lemma snapshot_ok ps res verb : dict_ok (processes (snapshot ps res verb)).
Proof.
  simpl. assert (dict_ok []) as H by constructor. revert H.
  generalize (@nil (Z * ProcessInfo)) as d.
  induction ps as [|p ps IH]; intros d Hd; simpl; [done|].
  by apply IH, dict_set_ok.
Qed.

Lemma indexed_snapshot ps res verb :
  indexed_by_pid (processes (snapshot ps res verb)).
Proof.
  intros k p H%dict_get_Some_elem. simpl in H.
  apply snapshot_elem in H as [[_ ->]|H]; [done|]. by apply elem_of_nil in H.
Qed.

Lemma snapshot_is_fresh ps res verb :
  Forall (fun p => children p = []) ps -> fresh (snapshot ps res verb).
Proof.
  intros Hall. split; [done|]. intros k p H%dict_get_Some_elem. simpl in H.
  apply snapshot_elem in H as [[Hp _]|H]; [|by apply elem_of_nil in H].
  by apply (proj1 (Forall_forall _ _) Hall).
Qed.

Lemma two_cycle_fresh : fresh two_cycle.
Proof. apply snapshot_is_fresh. repeat constructor. Qed.

Lemma two_cycle_ok : dict_ok (processes two_cycle).
Proof. apply snapshot_ok. Qed.

Lemma four_processes_fresh : fresh four_processes.
Proof. apply snapshot_is_fresh. repeat constructor. Qed.

Lemma four_processes_ok : dict_ok (processes four_processes).
Proof. apply snapshot_ok. Qed.

Lemma four_processes_acyclic : acyclic (processes four_processes).
Proof.
  intros k Hk. exists 4%nat. simpl in Hk.
  repeat (apply elem_of_cons in Hk as [->|Hk]; [reflexivity|]).
  by apply elem_of_nil in Hk.
Qed.

(** * Claims about [build_tree] *)

Example build_example :
  let t := build_tree (snapshot [proc 1 0 "init"; proc 10 1 "shell";
                                 proc 20 10 "editor"; proc 99 5000 "orphan"]
                                false false) in
  root_processes t = [1; 99] /\
  children_of (processes t) 1 = [10] /\
  children_of (processes t) 10 = [20] /\
  children_of (processes t) 20 = [] /\
  children_of (processes t) 99 = [].
Proof. vm_compute. repeat split; reflexivity. Qed.

Example build_cycle2 :
  let t := build_tree (snapshot [proc 1 2 "a"; proc 2 1 "b"] false false) in
  root_processes t = [] /\
  children_of (processes t) 1 = [2] /\
  children_of (processes t) 2 = [1].
Proof. vm_compute. repeat split; reflexivity. Qed.

(** C2, as stated, fails for a record that names itself as parent and for
    a record with parent pid 0 when a record with pid 0 exists: both are
    linked as children and the root list stays empty. *)
Lemma self_and_zero_parent_not_root :
  (let t := build_tree (snapshot [proc 5 5 "self"] false false) in
   ppid (proc 5 5 "self") = pid (proc 5 5 "self") /\
   root_processes t = [] /\ children_of (processes t) 5 = [5]) /\
  (let t := build_tree (snapshot [proc 0 0 "idle"; proc 4 0 "System"]
                                 false false) in
   ppid (proc 4 0 "System") = 0 /\
   root_processes t = [] /\ children_of (processes t) 0 = [0; 4]).
Proof. vm_compute. repeat split; reflexivity. Qed.

(** C2, amended: a record whose declared parent pid is not a key of the
    index becomes a root and is the child of no node; a record whose
    declared parent pid is a key of the index (its own pid and pid 0
    included) becomes a child of exactly that record and is no root. *)
Theorem root_iff_parent_absent (t : ProcessTree) (k : Z) (p : ProcessInfo) :
  fresh t -> dict_ok (processes t) -> dict_get (processes t) k = Some p ->
  (ppid p ∉ keys (processes t) ->
     k ∈ root_processes (build_tree t) /\
     forall q, k ∉ children_of (processes (build_tree t)) q) /\
  (ppid p ∈ keys (processes t) ->
     (k ∉ root_processes (build_tree t)) /\
     forall q, k ∈ children_of (processes (build_tree t)) q <-> q = ppid p).
Proof.
  intros Hfresh Hok Hk. split; intros Hp.
  - split; [apply root_after_build; eauto|].
    intros q (Hq & pc & Hc & Hpc)%child_after_build; [|done..].
    assert (pc = p) as -> by congruence. by subst q.
  - split.
    + intros (pc & Hc & Hpc)%root_after_build; [|done..].
      assert (pc = p) as -> by congruence. done.
    + intros q. rewrite child_after_build by done. split.
      * intros (_ & pc & Hc & Hpc). congruence.
      * intros ->. eauto.
Qed.

Lemma root_iff_parent_absent_witness :
  (99 ∈ root_processes (build_tree four_processes) /\
   forall q, 99 ∉ children_of (processes (build_tree four_processes)) q) /\
  ((10 ∉ root_processes (build_tree four_processes)) /\
   forall q, 10 ∈ children_of (processes (build_tree four_processes)) q
             <-> q = 1).
Proof.
  split.
  - apply (root_iff_parent_absent four_processes 99 (proc 99 5000 "orphan")
             four_processes_fresh four_processes_ok eq_refl).
    apply dict_mem_false. reflexivity.
  - apply (root_iff_parent_absent four_processes 10 (proc 10 1 "shell")
             four_processes_fresh four_processes_ok eq_refl).
    apply dict_mem_true. reflexivity.
Defined.

(** C3, as stated, fails: with unique pids and the two records
    (pid 1, ppid 2), (pid 2, ppid 1), no record can be reached from a root
    and each record is its own ancestor. *)
Lemma cycle_records_unreachable :
  dict_ok (processes two_cycle) /\
  ~ reachable (build_tree two_cycle) 1 /\
  ~ reachable (build_tree two_cycle) 2 /\
  ancestor (processes (build_tree two_cycle)) 1 1.
Proof.
  split; [exact two_cycle_ok|].
  assert (forall k, ~ reachable (build_tree two_cycle) k) as H.
  { intros k. induction 1 as [r Hr|q c _ IH _]; [|done].
    vm_compute in Hr. by apply elem_of_nil in Hr. }
  split; [apply H|]. split; [apply H|].
  eapply anc_step; [apply anc_child|]; vm_compute.
  - apply (list_elem_of_here 2 []).
  - apply (list_elem_of_here 1 []).
Qed.

(** C3, amended: for unique pids every record is stored in exactly one
    place: the root list and the [children] lists, taken together, are a
    rearrangement of the keys, so that no record is dropped from the
    structure, none is a child of two nodes and none is both root and
    child.  A record is reachable from the roots exactly when its chain
    of parents leaves the index, and is its own ancestor exactly when it
    lies on a parent-pid cycle; so when every chain of parents leaves the
    index, every record is reachable and none is its own ancestor. *)
Theorem build_tree_places_once (t : ProcessTree) :
  fresh t -> dict_ok (processes t) ->
  placements (build_tree t) ≡ₚ keys (processes t) /\
  (forall k, reachable (build_tree t) k <->
             k ∈ keys (processes t) /\ rooted (processes t) k) /\
  (forall k, ancestor (processes (build_tree t)) k k <->
             on_cycle (processes t) k) /\
  (acyclic (processes t) ->
     forall k, k ∈ keys (processes t) ->
               reachable (build_tree t) k /\
               ~ ancestor (processes (build_tree t)) k k).
Proof.
  intros Hfresh Hok.
  split; [by apply placements_perm|].
  split; [|split; [by apply ancestor_self_on_cycle|]].
  - intros k. split.
    + intros Hr. split; [by eapply reachable_key|by eapply reachable_rooted].
    + intros [Hk Hr]. by apply rooted_reachable.
  - intros Hacyc k Hk. split; [apply rooted_reachable; auto|].
    intros Hanc%ancestor_self_on_cycle; [|done..].
    eapply on_cycle_not_rooted; [exact Hanc|auto].
Qed.

Lemma build_tree_places_once_witness :
  placements (build_tree four_processes) ≡ₚ keys (processes four_processes) /\
  (forall k, reachable (build_tree four_processes) k <->
             k ∈ keys (processes four_processes) /\
             rooted (processes four_processes) k) /\
  (forall k, ancestor (processes (build_tree four_processes)) k k <->
             on_cycle (processes four_processes) k) /\
  (forall k, k ∈ keys (processes four_processes) ->
             reachable (build_tree four_processes) k /\
             ~ ancestor (processes (build_tree four_processes)) k k).
Proof.
  destruct (build_tree_places_once four_processes
              four_processes_fresh four_processes_ok) as (H1 & H2 & H3 & H4).
  exact (conj H1 (conj H2 (conj H3 (H4 four_processes_acyclic)))).
Defined.

(** * More fuel changes nothing *)

Lemma enum_loop_more body body' n :
  (forall x last V res, body x last V = Some res -> body' x last V = Some res) ->
  forall xs i V res,
  enum_loop body n i xs V = Some res -> enum_loop body' n i xs V = Some res.
Proof.
  intros Hbody. induction xs as [|x xs IH]; intros i V res; simpl; [done|].
  destruct (body x (Nat.eqb i (n - 1)) V) as [[V1 o1]|] eqn:H1; [|done].
  rewrite (Hbody _ _ _ _ H1).
  destruct (enum_loop body n (S i) xs V1) as [[V2 o2]|] eqn:H2; [|done].
  by rewrite (IH _ _ _ H2).
Qed.

(** One unfolding of the recursion. *)
Lemma display_from_unfold d fuel r pre last V :
  display_from (S fuel) d r pre last V =
  match dict_get d r with
  | None => Some (V, [])
  | Some process =>
      if decide (pid process ∈ V) then Some (V, [])
      else
        match enum_loop
                (fun child is_last_child =>
                   display_from fuel d child (pre +:+ extension last)
                                is_last_child)
                (length (children process)) 0 (children process)
                ({[pid process]} ∪ V) with
        | None => None
        | Some (visited', out) =>
            Some (visited', mkVisit r process pre last :: out)
        end
  end.
Proof. reflexivity. Qed.

Lemma display_from_S d fuel : forall r pre last V res,
  display_from fuel d r pre last V = Some res ->
  display_from (S fuel) d r pre last V = Some res.
Proof.
  induction fuel as [|fuel IH]; intros r pre last V res; [done|].
  rewrite (display_from_unfold d (S fuel)), (display_from_unfold d fuel).
  destruct (dict_get d r) as [p|]; [|done].
  destruct (decide (pid p ∈ V)); [done|].
  destruct (enum_loop _ _ _ _ _) as [[V1 o1]|] eqn:Hloop; [|done].
  intros H.
  pose proof (enum_loop_more _
                (fun child is_last_child =>
                   display_from (S fuel) d child (pre +:+ extension last)
                                is_last_child)
                _ (fun x l => IH x _ l) _ _ _ _ Hloop) as Hloop'.
  by rewrite Hloop'.
Qed.

Lemma display_from_le d fuel fuel' r pre last V res :
  (fuel <= fuel')%nat ->
  display_from fuel d r pre last V = Some res ->
  display_from fuel' d r pre last V = Some res.
Proof. induction 1; [done|]. intros Hres. by apply display_from_S, IHle. Qed.

Lemma display_roots_le t fuel fuel' res :
  (fuel <= fuel')%nat ->
  display_roots fuel t = Some res -> display_roots fuel' t = Some res.
Proof.
  intros Hle. unfold display_roots. apply enum_loop_more.
  intros x l W res'. by apply display_from_le.
Qed.

(** * Claims about the traversal of [display_tree] *)

Example shared_child_visits :
  (fun res : gset Z * list Visit =>
     (size (fst res), visit_pids (snd res),
      map v_prefix (snd res), map v_is_last (snd res)))
    <$> display_roots (enough_fuel (processes shared_child)) shared_child
  = Some (3%nat, [1; 3; 2], [""; "│   "; ""], [false; true; true]).
Proof. vm_compute. reflexivity. Qed.

(** C4: one [visited] set serves the whole traversal, all roots included.
    A node whose pid is in the set prints nothing, and the set is returned
    as it was (the call does not go into the children).  For every finite
    structure, cyclic or with shared children, the traversal of all roots
    and the traversal of any single subtree return, the pids printed are
    pairwise distinct, the final set holds exactly the pids printed, and
    more fuel gives the same result. *)
Theorem display_tree_visits_once (t : ProcessTree) :
  (exists V out,
     display_roots (enough_fuel (processes t)) t = Some (V, out) /\
     NoDup (visit_pids out) /\ V = list_to_set (visit_pids out) /\
     forall fuel, (enough_fuel (processes t) <= fuel)%nat ->
                  display_roots fuel t = Some (V, out)) /\
  (forall r, exists V out,
     display_subtree (enough_fuel (processes t)) t r = Some (V, out) /\
     NoDup (visit_pids out) /\ V = list_to_set (visit_pids out)) /\
  (forall fuel r p pre last V,
     dict_get (processes t) r = Some p -> pid p ∈ V ->
     display_from (S fuel) (processes t) r pre last V = Some (V, [])) /\
  (forall fuel r pre last V V' out,
     display_from fuel (processes t) r pre last V = Some (V', out) ->
     NoDup (visit_pids out) /\ (forall k, k ∈ visit_pids out -> k ∉ V) /\
     V' = V ∪ list_to_set (visit_pids out)).
Proof.
  split; [|split; [|split]].
  - destruct (display_roots_total t) as (V & out & H).
    exists V, out. split; [done|].
    destruct (walk_loop_adds _ _ _ _ _ _ _ _ (display_roots_walk _ _ _ _ H))
      as (HV & Hnd & _).
    split; [done|]. split; [set_solver|].
    intros fuel Hle. by eapply display_roots_le.
  - intros r. unfold display_subtree.
    destruct (display_from_total (processes t) (enough_fuel (processes t))
                r "" true ∅) as (V & out & H).
    { pose proof (unvisited_le (processes t) ∅). unfold enough_fuel. lia. }
    exists V, out. split; [done|].
    destruct (proj1 (walk_both_adds (processes t)) _ _ _ _ _ _
                (display_from_walk _ _ _ _ _ _ _ _ H)) as (HV & Hnd & _).
    split; [done|]. set_solver.
  - intros fuel r p pre last V Hr Hin. simpl. rewrite Hr.
    by rewrite decide_True.
  - intros fuel r pre last V V' out H.
    destruct (proj1 (walk_both_adds (processes t)) _ _ _ _ _ _
                (display_from_walk _ _ _ _ _ _ _ _ H)) as (HV & Hnd & Hd).
    done.
Qed.


(** * Rendering the forest that [build_tree] leaves *)

Section BuiltForest.

Variable t : ProcessTree.
Hypothesis Hfresh : fresh t.
Hypothesis Hok : dict_ok (processes t).
Hypothesis Hidx : indexed_by_pid (processes t).

Local Abbreviation t' := (build_tree t).
Local Abbreviation d' := (processes (build_tree t)).

Implicit Types (k q c r : Z) (out : list Visit) (v u : Visit).

Lemma built_ok : dict_ok d'.
Proof. unfold dict_ok. by rewrite build_tree_keys. Qed.

Lemma built_indexed : indexed_by_pid d'.
Proof.
  intros k p. rewrite build_tree_get.
  destruct (dict_get (processes t) k) as [p0|] eqn:Hk; [|done].
  intros [= <-]. simpl. by apply Hidx.
Qed.

Lemma NoDup_keys_filter (P : Z * ProcessInfo -> Prop)
    `{forall kp, Decision (P kp)} (items : dict) :
  NoDup (keys items) -> NoDup (map fst (filter P items)).
Proof.
  intros Hnd. eapply sublist_NoDup; [exact Hnd|].
  apply fmap_sublist, sublist_filter.
Qed.

Lemma built_children_NoDup q : NoDup (children_of d' q).
Proof.
  rewrite build_tree_children_of.
  destruct (dict_get (processes t) q) as [p|] eqn:Hq; [|constructor].
  destruct Hfresh as [_ Hnil]. rewrite (Hnil _ _ Hq). simpl.
  apply NoDup_sort_by. by apply NoDup_keys_filter.
Qed.

Lemma built_roots_NoDup : NoDup (root_processes t').
Proof.
  rewrite build_tree_roots. destruct Hfresh as [-> _]. simpl.
  apply NoDup_sort_by. by apply NoDup_keys_filter.
Qed.

Lemma built_child_key q c : c ∈ children_of d' q -> c ∈ keys d'.
Proof.
  intros (pc & Hc & _)%child_is_parent; [|done..].
  rewrite build_tree_keys. by eapply dict_get_Some_key.
Qed.

Lemma built_root_not_child r q :
  r ∈ root_processes t' -> r ∈ children_of d' q -> False.
Proof.
  intros (pr & Hr & Hpr)%root_after_build (pc & Hc & Hpc & Hq)%child_is_parent;
    [|done..].
  assert (pc = pr) as -> by congruence. by subst q.
Qed.

Lemma built_one_parent q q' c :
  c ∈ children_of d' q -> c ∈ children_of d' q' -> q = q'.
Proof.
  intros (pc & Hc & Hpc & _)%child_is_parent (pc' & Hc' & Hpc' & _)%child_is_parent;
    [|done..].
  congruence.
Qed.

Lemma visit_children v out :
  from_dict d' out -> v ∈ out -> children (v_proc v) = children_of d' (v_ref v).
Proof. intros Hfd Hv. unfold children_of. by rewrite (Hfd v Hv). Qed.

Lemma visit_ref_pid v out :
  from_dict d' out -> v ∈ out -> pid (v_proc v) = v_ref v.
Proof. intros Hfd Hv. apply built_indexed. by apply Hfd. Qed.

(** What is printed can be reached from the roots. *)
Lemma walk_both_reachable :
  (forall r pre last V V' out, walk d' r pre last V V' out ->
     reachable t' r -> forall v, v ∈ out -> reachable t' (v_ref v)) /\
  (forall pre n i xs V V' out, walk_loop d' pre n i xs V V' out ->
     (forall x, x ∈ xs -> reachable t' x) ->
     forall v, v ∈ out -> reachable t' (v_ref v)).
Proof.
  apply walk_both.
  - intros r pre last V _ _ v Hv. by apply elem_of_nil in Hv.
  - intros r p pre last V _ _ _ v Hv. by apply elem_of_nil in Hv.
  - intros r p pre last V V' out Hr _ _ IH Hreach v [->|Hv]%elem_of_cons;
      [done|].
    apply IH; [|done]. intros x Hx. eapply reach_child; [exact Hreach|].
    unfold children_of. by rewrite Hr.
  - intros pre n i V _ v Hv. by apply elem_of_nil in Hv.
  - intros pre n i x xs V V1 V2 o1 o2 _ IH1 _ IH2 Hxs v [Hv|Hv]%elem_of_app.
    + apply IH1; [|done]. apply Hxs. left.
    + apply IH2; [|done]. intros y Hy. apply Hxs. by right.
Qed.

Section Rendering.

Variables (fuel : nat) (V : gset Z) (out : list Visit).
Hypothesis Hrun : display_roots fuel t' = Some (V, out).

Lemma forest_walk :
  walk_loop d' "" (length (root_processes t')) 0 (root_processes t') ∅ V out.
Proof. by apply display_roots_walk with fuel. Qed.

Lemma forest_from_dict : from_dict d' out.
Proof. eapply walk_loop_from_dict, forest_walk. Qed.

Lemma forest_refs_pids : map v_ref out = visit_pids out.
Proof.
  unfold visit_pids. apply map_ext_in. intros v Hv%list_elem_of_In.
  symmetry. by eapply visit_ref_pid; [apply forest_from_dict|].
Qed.

Lemma forest_refs_NoDup : NoDup (map v_ref out).
Proof.
  rewrite forest_refs_pids.
  by destruct (walk_loop_adds _ _ _ _ _ _ _ _ forest_walk) as (_ & Hnd & _).
Qed.

Lemma forest_one_visit v v' :
  v ∈ out -> v' ∈ out -> v_ref v = v_ref v' -> v = v'.
Proof.
  pose proof forest_refs_NoDup as Hnd. revert Hnd. clear Hrun.
  induction out as [|u l IH]; intros Hnd Hv Hv'; [by apply elem_of_nil in Hv|].
  simpl in Hnd. apply NoDup_cons in Hnd as [Hu Hnd].
  apply elem_of_cons in Hv as [->|Hv]; apply elem_of_cons in Hv' as [->|Hv'];
    intros Heq; auto.
  - exfalso. apply Hu. rewrite Heq. apply list_elem_of_fmap. by exists v'.
  - exfalso. apply Hu. rewrite <- Heq. apply list_elem_of_fmap. by exists v.
Qed.

Lemma forest_pid_visited k pk :
  dict_get d' k = Some pk -> pid pk ∈ V -> exists v, v ∈ out /\ v_ref v = k.
Proof.
  intros Hk HkV.
  destruct (walk_loop_adds _ _ _ _ _ _ _ _ forest_walk) as (HV & _ & _).
  rewrite HV in HkV. apply elem_of_union in HkV as [HkV|HkV]; [set_solver|].
  apply elem_of_list_to_set in HkV. unfold visit_pids in HkV.
  apply list_elem_of_fmap in HkV as (v & Hpid & Hv).
  exists v. split; [done|].
  rewrite <- (visit_ref_pid v out forest_from_dict Hv), <- Hpid.
  by apply built_indexed.
Qed.

(** The nodes printed are the nodes that can be reached from the roots. *)
Lemma forest_visits_reachable k :
  (exists v, v ∈ out /\ v_ref v = k) <-> reachable t' k.
Proof.
  split.
  - intros (v & Hv & <-).
    eapply (proj2 walk_both_reachable); [apply forest_walk| |done].
    intros x Hx. by apply reach_root.
  - destruct (walk_loop_closed _ _ _ _ _ _ _ _ forest_walk) as [Htop Hout].
    induction 1 as [r Hr|q c Hq IH Hc].
    + assert (r ∈ keys d') as [pr Hpr]%dict_get_key.
      { apply root_after_build in Hr as (pr & Hpr & _); [|done..].
        rewrite build_tree_keys. by eapply dict_get_Some_key. }
      eapply forest_pid_visited; eauto.
    + destruct IH as (u & Hu & <-).
      destruct (dict_get_key _ _ (built_child_key _ _ Hc)) as [pc Hpc].
      eapply forest_pid_visited; [exact Hpc|].
      eapply Hout; [exact Hu| |exact Hpc].
      by rewrite (visit_children u out forest_from_dict Hu).
Qed.

(** Every member of a sibling group is printed once, and with
    [is_last] set exactly at the final position of the group. *)
Lemma forest_sibling G j c :
  sibling_group t' out G -> G !! j = Some c ->
  exists v, v ∈ out /\ v_ref v = c /\
            v_is_last v = Nat.eqb j (length G - 1) /\
            forall v', v' ∈ out -> v_ref v' = c -> v' = v.
Proof.
  intros HG Hj.
  assert (c ∈ G) as HcG by (apply list_elem_of_lookup; eauto).
  assert (reachable t' c) as Hreach.
  { destruct HG as [->|(u & Hu & ->)]; [by apply reach_root|].
    eapply reach_child.
    - apply forest_visits_reachable. by exists u.
    - by rewrite <- (visit_children u out forest_from_dict Hu). }
  apply forest_visits_reachable in Hreach as (v & Hv & Hvc).
  exists v. split; [done|]. split; [done|]. split.
  - destruct (walk_loop_placed _ _ _ _ _ _ _ _ forest_walk v Hv)
      as [(j' & Hj' & Hlast & _)|(u' & j' & Hu' & Hj' & Hlast & _)];
      rewrite Hvc in Hj'.
    + destruct HG as [->|(u & Hu & ->)].
      * rewrite Hlast. simpl.
        by rewrite (NoDup_lookup _ _ _ _ built_roots_NoDup Hj Hj').
      * exfalso. eapply (built_root_not_child c (v_ref u)).
        -- apply list_elem_of_lookup. eauto.
        -- by rewrite <- (visit_children u out forest_from_dict Hu).
    + assert (c ∈ children_of d' (v_ref u')) as Hc'.
      { rewrite <- (visit_children u' out forest_from_dict Hu').
        apply list_elem_of_lookup. eauto. }
      destruct HG as [->|(u & Hu & ->)].
      * exfalso. by eapply (built_root_not_child c (v_ref u')).
      * assert (u = u') as ->.
        { apply forest_one_visit; [done..|].
          eapply built_one_parent; [|exact Hc'].
          by rewrite <- (visit_children u out forest_from_dict Hu). }
        rewrite Hlast. f_equal.
        eapply NoDup_lookup; [|exact Hj'|exact Hj].
        rewrite (visit_children u' out forest_from_dict Hu').
        apply built_children_NoDup.
  - intros v' Hv' Hv'c. apply forest_one_visit; [done..|]. congruence.
Qed.

(** When every chain of parents ends, the walk meets every record once. *)
Lemma forest_visits_all :
  acyclic (processes t) -> map v_proc out ≡ₚ values d'.
Proof.
  intros Hacyc.
  assert (map (fun v => (v_ref v, v_proc v)) out ≡ₚ d') as Hperm.
  { apply NoDup_Permutation.
    - apply (NoDup_fmap_1 fst). rewrite <- list_fmap_compose.
      apply forest_refs_NoDup.
    - apply (NoDup_fmap_1 fst). apply built_ok.
    - intros [k p]. rewrite list_elem_of_fmap. split.
      + intros (v & [= -> ->] & Hv). apply dict_get_Some_elem.
        by apply forest_from_dict.
      + intros Hkp. apply (dict_get_elem _ _ _ built_ok) in Hkp.
        assert (reachable t' k) as (v & Hv & <-)%forest_visits_reachable.
        { apply rooted_reachable; [done..| |].
          - rewrite <- build_tree_keys. by eapply dict_get_Some_key.
          - apply Hacyc. rewrite <- build_tree_keys.
            by eapply dict_get_Some_key. }
        exists v. split; [|done]. f_equal.
        rewrite (forest_from_dict v Hv) in Hkp. congruence. }
  unfold values. rewrite <- Hperm, map_map. done.
Qed.

End Rendering.

End BuiltForest.

(** * The claim about cycles in the input *)

(** C1, as stated, fails: on the two records (pid 1, ppid 2) and
    (pid 2, ppid 1) [build_tree] leaves an empty root list, and each record
    is the only child of the other; the forest does not have one root with
    one child. *)
Lemma two_cycle_has_no_root :
  root_processes (build_tree two_cycle) = [] /\
  children_of (processes (build_tree two_cycle)) 1 = [2] /\
  children_of (processes (build_tree two_cycle)) 2 = [1] /\
  ~ (exists r c, root_processes (build_tree two_cycle) = [r] /\
                 children_of (processes (build_tree two_cycle)) r = [c]).
Proof.
  repeat split; try reflexivity.
  intros (r & c & Hr & _). vm_compute in Hr. discriminate.
Qed.

(** C1, amended: [build_tree] (a total function: two loops over the finite
    dictionary and the sorts) does not break cycles.  Every record on a
    parent-pid cycle, of any length and also a record that is its own
    parent, is linked as a child of its declared parent, is no root, stays
    its own ancestor and cannot be reached from any root; with every record
    stored under its own pid, the rendering of the forest never prints
    it. *)
Theorem build_tree_keeps_cycles (t : ProcessTree) (k : Z) :
  fresh t -> dict_ok (processes t) -> on_cycle (processes t) k ->
  (k ∉ root_processes (build_tree t)) /\
  (exists p, dict_get (processes t) k = Some p /\
             k ∈ children_of (processes (build_tree t)) (ppid p)) /\
  ancestor (processes (build_tree t)) k k /\
  ~ reachable (build_tree t) k /\
  (indexed_by_pid (processes t) ->
   forall fuel V out,
     display_roots fuel (build_tree t) = Some (V, out) ->
     forall v, v ∈ out -> v_ref v <> k).
Proof.
  intros Hfresh Hok Hcyc.
  assert (~ reachable (build_tree t) k) as Hunreach.
  { intros Hr%reachable_rooted; [|done..]. by eapply on_cycle_not_rooted. }
  split; [|split; [|split; [|split]]];
    [| |by apply ancestor_self_on_cycle|done|].
  - intros Hr. apply Hunreach. by apply reach_root.
  - pose proof (proj2 (ancestor_self_on_cycle t Hfresh Hok k) Hcyc) as Hanc.
    destruct Hcyc as [n Hn]. simpl in Hn.
    destruct (dict_get (processes t) k) as [p|] eqn:Hk; [|done].
    exists p. split; [done|]. apply parent_is_child; [done..|].
    destruct n as [|n]; simpl in Hn.
    + injection Hn as ->. by eapply dict_get_Some_key.
    + destruct (dict_get (processes t) (ppid p)) eqn:E; [|done].
      by eapply dict_get_Some_key.
  - intros Hidx fuel V out Hrun v Hv Href. apply Hunreach.
    apply (forest_visits_reachable t Hfresh Hok Hidx fuel V out Hrun).
    by exists v.
Qed.

Lemma build_tree_keeps_cycles_witness :
  (1 ∉ root_processes (build_tree two_cycle)) /\
  (exists p, dict_get (processes two_cycle) 1 = Some p /\
             1 ∈ children_of (processes (build_tree two_cycle)) (ppid p)) /\
  ancestor (processes (build_tree two_cycle)) 1 1 /\
  ~ reachable (build_tree two_cycle) 1 /\
  (forall fuel V out,
     display_roots fuel (build_tree two_cycle) = Some (V, out) ->
     forall v, v ∈ out -> v_ref v <> 1).
Proof.
  destruct (build_tree_keeps_cycles two_cycle 1 two_cycle_fresh two_cycle_ok)
    as (H1 & H2 & H3 & H4 & H5).
  - exists 1%nat. reflexivity.
  - exact (conj H1 (conj H2 (conj H3 (conj H4 (H5 (indexed_snapshot _ _ _)))))).
Defined.

(** * Aggregates do not depend on the order of the records *)

Section Aggregates.

Lemma Zsum_perm (l l' : list Z) : l ≡ₚ l' -> Zsum l = Zsum l'.
Proof.
  unfold Zsum. generalize 0. intros a Hperm. revert a.
  induction Hperm as [|x l l' _ IH|x y l|l l' l'' _ IH1 _ IH2]; intros a; simpl.
  - done.
  - apply IH.
  - f_equal. lia.
  - by rewrite IH1.
Qed.

Lemma Qsum_acc (l : list Q) (a a' : Q) :
  (a == a')%Q -> (fold_left Qplus l a == fold_left Qplus l a')%Q.
Proof.
  revert a a'. induction l as [|x l IH]; intros a a' Ha; simpl; [done|].
  apply IH. by rewrite Ha.
Qed.

Lemma Qsum_perm (l l' : list Q) : l ≡ₚ l' -> (Qsum l == Qsum l')%Q.
Proof.
  unfold Qsum. generalize 0%Q. intros a Hperm. revert a.
  induction Hperm as [|x l l' _ IH|x y l|l l' l'' _ IH1 _ IH2]; intros a; simpl.
  - reflexivity.
  - apply IH.
  - apply Qsum_acc. ring.
  - by rewrite IH1.
Qed.

Lemma count_status_perm s (ps ps' : list ProcessInfo) :
  ps ≡ₚ ps' -> count_status s ps = count_status s ps'.
Proof. unfold count_status. by intros ->. Qed.

End Aggregates.

(** * Claims about statistics and ordering *)

(** C7, as stated, fails: for the two records (pid 1, ppid 2),
    (pid 2, ppid 1) the flat aggregation counts two processes, and the walk
    of the forest from its (empty) root list counts none. *)
Lemma cycle_statistics_differ :
  total_processes (get_statistics (build_tree two_cycle)) = 2%nat /\
  total_processes <$> walk_statistics (build_tree two_cycle) = Some 0%nat /\
  total_threads (get_statistics (build_tree two_cycle)) = 2 /\
  total_threads <$> walk_statistics (build_tree two_cycle) = Some 0.
Proof. vm_compute. repeat split; reflexivity. Qed.

(** C7, amended: for a snapshot with unique pids, every record stored
    under its own pid, in which every chain of parents leaves the index
    (no parent-pid cycle), the walk of the forest from its roots meets
    every record exactly once, and the aggregates over the walk equal the
    flat ones: number of processes, number of roots, sum of threads and the
    counts of running, sleeping and zombie processes; the memory values
    summed are the same up to their order, and the two sums are equal as
    exact numbers. *)
Theorem statistics_flat_eq_walk (t : ProcessTree) :
  fresh t -> dict_ok (processes t) -> indexed_by_pid (processes t) ->
  acyclic (processes t) ->
  exists V out s,
    display_roots (enough_fuel (processes (build_tree t))) (build_tree t)
      = Some (V, out) /\
    map v_proc out ≡ₚ values (processes (build_tree t)) /\
    walk_statistics (build_tree t) = Some s /\
    total_processes s = total_processes (get_statistics (build_tree t)) /\
    n_root_processes s = n_root_processes (get_statistics (build_tree t)) /\
    total_threads s = total_threads (get_statistics (build_tree t)) /\
    running s = running (get_statistics (build_tree t)) /\
    sleeping s = sleeping (get_statistics (build_tree t)) /\
    zombie s = zombie (get_statistics (build_tree t)) /\
    map memory_mb (map v_proc out)
      ≡ₚ map memory_mb (values (processes (build_tree t))) /\
    (total_memory_mb s == total_memory_mb (get_statistics (build_tree t)))%Q.
Proof.
  intros Hfresh Hok Hidx Hacyc.
  destruct (display_roots_total (build_tree t)) as (V & out & Hrun).
  pose proof (forest_visits_all t Hfresh Hok Hidx _ _ _ Hrun Hacyc) as Hperm.
  exists V, out, (aggregate (map v_proc out) (length (root_processes (build_tree t)))).
  split; [done|]. split; [done|].
  split; [unfold walk_statistics; by rewrite Hrun|].
  unfold get_statistics, aggregate. simpl.
  repeat split.
  - by rewrite Hperm.
  - apply Zsum_perm. by rewrite Hperm.
  - by apply count_status_perm.
  - by apply count_status_perm.
  - by apply count_status_perm.
  - by rewrite Hperm.
  - apply Qsum_perm. by rewrite Hperm.
Qed.

Lemma statistics_flat_eq_walk_witness :
  exists V out s,
    display_roots (enough_fuel (processes (build_tree four_processes)))
                  (build_tree four_processes) = Some (V, out) /\
    map v_proc out ≡ₚ values (processes (build_tree four_processes)) /\
    walk_statistics (build_tree four_processes) = Some s /\
    total_processes s = total_processes (get_statistics (build_tree four_processes)) /\
    n_root_processes s = n_root_processes (get_statistics (build_tree four_processes)) /\
    total_threads s = total_threads (get_statistics (build_tree four_processes)) /\
    running s = running (get_statistics (build_tree four_processes)) /\
    sleeping s = sleeping (get_statistics (build_tree four_processes)) /\
    zombie s = zombie (get_statistics (build_tree four_processes)) /\
    map memory_mb (map v_proc out)
      ≡ₚ map memory_mb (values (processes (build_tree four_processes))) /\
    (total_memory_mb s
     == total_memory_mb (get_statistics (build_tree four_processes)))%Q.
Proof.
  exact (statistics_flat_eq_walk four_processes four_processes_fresh
           four_processes_ok (indexed_snapshot _ _ _) four_processes_acyclic).
Defined.

Section Lines.

Variable E : Env.

Lemma append_cons (x : ascii) (a b : string) :
  String x a +:+ b = String x (a +:+ b).
Proof. reflexivity. Qed.

Lemma append_empty_r (a : string) : a +:+ "" = a.
Proof. induction a as [|x a IH]; [done|]. by rewrite append_cons, IH. Qed.

Lemma append_assoc (a b c : string) : (a +:+ b) +:+ c = a +:+ (b +:+ c).
Proof.
  induction a as [|x a IH]; [done|]. rewrite !append_cons. by rewrite IH.
Qed.

(** Every primary line starts with the prefix and the connector. *)
Lemma primary_line_connector t now v :
  exists rest,
    primary_line E t now v = v_prefix v +:+ connector (v_is_last v) +:+ rest.
Proof.
  unfold primary_line.
  destruct (show_resources t), (verbose t);
    rewrite ?append_assoc; eexists; reflexivity.
Qed.

(** The clock enters a node's lines through the uptime only, and only in
    verbose mode. *)
Lemma display_node_clock t now1 now2 v :
  (verbose t = true ->
   format_uptime now1 (v_proc v) = format_uptime now2 (v_proc v)) ->
  display_node E t now1 v = display_node E t now2 v.
Proof.
  intros H. unfold display_node, primary_line.
  destruct (verbose t); [|done]. by rewrite H.
Qed.

Lemma printed_clock t clock1 clock2 out :
  (forall v, v ∈ out -> verbose t = true ->
     format_uptime (clock1 (pid (v_proc v))) (v_proc v)
     = format_uptime (clock2 (pid (v_proc v))) (v_proc v)) ->
  printed E t clock1 out = printed E t clock2 out.
Proof.
  unfold printed. induction out as [|v out IH]; intros H; [done|].
  cbn [flat_map]. rewrite IH by (intros u Hu; apply H; by right).
  f_equal. apply display_node_clock. apply H. left.
Qed.

End Lines.

Lemma sorted_by_map (f : Z -> Z) (l : list Z) :
  StronglySorted (key_le f) l -> StronglySorted Z.le (map f l).
Proof.
  induction 1 as [|x l _ IH Hall]; simpl; constructor; [done|].
  apply Forall_forall. intros y (z & -> & Hz)%list_elem_of_fmap.
  by apply (proj1 (Forall_forall _ _) Hall).
Qed.

Lemma built_children_sorted t k p :
  dict_get (processes (build_tree t)) k = Some p ->
  StronglySorted Z.le (map (pid_of (processes (build_tree t))) (children p)).
Proof.
  rewrite build_tree_get.
  destruct (dict_get (processes t) k) as [p0|]; [|done]. intros [= <-]. simpl.
  rewrite (map_ext _ (pid_of (processes t))) by (intros; apply build_tree_pid_of).
  apply sorted_by_map, sort_by_sorted.
Qed.

Lemma built_roots_sorted t :
  StronglySorted Z.le
    (map (pid_of (processes (build_tree t))) (root_processes (build_tree t))).
Proof.
  rewrite build_tree_roots.
  rewrite (map_ext _ (pid_of (processes t))) by (intros; apply build_tree_pid_of).
  apply sorted_by_map, sort_by_sorted.
Qed.

(** C6, as stated, fails: in verbose mode each line shows the uptime,
    computed from the current time, so two renderings of the same forest
    with the same flags differ when the clock has moved on. *)
Lemma verbose_rendering_depends_on_clock :
  display_tree plain_env (build_tree verbose_init) (fun _ => 0%Q)
    = Some ["└── init [PID: 1] User: root Threads: 1 Uptime: 0m"] /\
  display_tree plain_env (build_tree verbose_init) (fun _ => 60%Q)
    = Some ["└── init [PID: 1] User: root Threads: 1 Uptime: 1m"] /\
  display_tree plain_env (build_tree verbose_init) (fun _ => 0%Q)
    <> display_tree plain_env (build_tree verbose_init) (fun _ => 60%Q).
Proof.
  assert (display_tree plain_env (build_tree verbose_init) (fun _ => 0%Q)
          = Some ["└── init [PID: 1] User: root Threads: 1 Uptime: 0m"]) as H0
    by (vm_compute; reflexivity).
  assert (display_tree plain_env (build_tree verbose_init) (fun _ => 60%Q)
          = Some ["└── init [PID: 1] User: root Threads: 1 Uptime: 1m"]) as H60
    by (vm_compute; reflexivity).
  split; [done|]. split; [done|]. rewrite H0, H60. discriminate.
Qed.

(** * Claims about the lines of a node *)

Section Strings.

Lemma prefix_spec (a s : string) :
  String.prefix a s = true <-> exists b, s = a +:+ b.
Proof.
  revert s. induction a as [|x a IH]; intros s.
  - split; [intros _; by exists s|]. intros _. by destruct s.
  - destruct s as [|y s].
    + split; [done|]. by intros [b Hb].
    + cbn [String.prefix]. destruct (ascii_dec x y) as [->|Hne].
      * rewrite IH. split; intros [b Hb]; exists b.
        -- rewrite append_cons. by rewrite Hb.
        -- rewrite append_cons in Hb. by injection Hb.
      * split; [done|]. intros [b Hb]. rewrite append_cons in Hb. congruence.
Qed.

Lemma str_in_cons (a : string) (c : ascii) (s : string) :
  str_in a (String c s) = String.prefix a (String c s) || str_in a s.
Proof.
  unfold str_in. cbn [index].
  destruct (String.prefix a (String c s)); [done|]. simpl.
  by destruct (index 0 a s).
Qed.

(** [needle in hay] holds exactly when [hay] has [needle] inside. *)
Lemma str_in_spec (a s : string) :
  str_in a s = true <-> exists x y, s = x +:+ a +:+ y.
Proof.
  induction s as [|c s IH].
  - unfold str_in. simpl. destruct a as [|x' a]; split; try done.
    + intros _. by exists "", "".
    + intros (x & y & H). destruct x; discriminate.
  - rewrite str_in_cons, orb_true_iff, IH, prefix_spec. split.
    + intros [[b Hb]|(x & y & Hxy)].
      * by exists "", b.
      * exists (String c x), y. rewrite append_cons. by rewrite Hxy.
    + intros (x & y & Hxy). destruct x as [|c' x].
      * left. by exists y.
      * right. exists x, y. rewrite append_cons in Hxy. by injection Hxy.
Qed.

End Strings.

(** * Claims about the memory tiers *)

Section Memory.

Variable f : Z -> Q.

Lemma dict_get_with_memories d k :
  dict_get (dict_with_memories f d) k = with_memory (f k) <$> dict_get d k.
Proof. apply (dict_get_map (fun k p => with_memory (f k) p)). Qed.

Lemma enum_loop_with_memories body body' n :
  (forall x last V,
     body' x last V =
     (fun res : gset Z * list Visit => (fst res, map (visit_with_memory f) (snd res)))
       <$> body x last V) ->
  forall xs i V,
    enum_loop body' n i xs V =
    (fun res : gset Z * list Visit => (fst res, map (visit_with_memory f) (snd res)))
      <$> enum_loop body n i xs V.
Proof.
  intros Hbody. induction xs as [|x xs IH]; intros i V; simpl; [done|].
  rewrite Hbody.
  destruct (body x (Nat.eqb i (n - 1)) V) as [[V1 o1]|]; simpl; [|done].
  rewrite IH.
  destruct (enum_loop body n (S i) xs V1) as [[V2 o2]|]; simpl; [|done].
  by rewrite map_app.
Qed.

(** The traversal of the changed structure makes the same calls. *)
Lemma display_from_with_memories d fuel : forall r pre last V,
  display_from fuel (dict_with_memories f d) r pre last V =
  (fun res : gset Z * list Visit => (fst res, map (visit_with_memory f) (snd res)))
    <$> display_from fuel d r pre last V.
Proof.
  induction fuel as [|fuel IH]; intros r pre last V; simpl; [done|].
  rewrite dict_get_with_memories.
  destruct (dict_get d r) as [p|]; simpl; [|done].
  destruct (decide (pid p ∈ V)); [done|].
  rewrite (enum_loop_with_memories
             (fun child is_last_child =>
                display_from fuel d child (pre +:+ extension last) is_last_child)
             _ _ (fun x l W => IH x _ l W)).
  by destruct (enum_loop _ _ _ _ _) as [[V1 o1]|].
Qed.

Lemma display_roots_with_memories t fuel :
  display_roots fuel (with_memories f t) =
  (fun res : gset Z * list Visit => (fst res, map (visit_with_memory f) (snd res)))
    <$> display_roots fuel t.
Proof.
  unfold display_roots. simpl.
  apply (enum_loop_with_memories
           (fun root is_last_root =>
              display_from fuel (processes t) root "" is_last_root)).
  intros x l W. apply display_from_with_memories.
Qed.

Lemma length_display_node E t now v :
  length (display_node E (with_memories f t) now (visit_with_memory f v))
  = length (display_node E t now v).
Proof. unfold display_node. simpl. by destruct (_ && _). Qed.

Lemma length_printed E t clock out :
  length (printed E (with_memories f t) clock (map (visit_with_memory f) out))
  = length (printed E t clock out).
Proof.
  unfold printed. induction out as [|v out IH]; [done|].
  cbn [map flat_map]. rewrite !length_app, IH.
  by rewrite length_display_node.
Qed.

End Memory.

Lemma Qgtb_true (a b : Q) : Qgtb a b = true <-> (b < a)%Q.
Proof.
  unfold Qgtb. rewrite negb_true_iff, <- not_true_iff_false, Qle_bool_iff.
  split; [apply Qnot_le_lt|apply Qlt_not_le].
Qed.

Lemma Qgtb_false (a b : Q) : Qgtb a b = false <-> (a <= b)%Q.
Proof. unfold Qgtb. by rewrite negb_false_iff, Qle_bool_iff. Qed.

Lemma mem_color_tiers (m : Q) :
  (mem_color m = RED <-> (500 < m)%Q) /\
  (mem_color m = YELLOW <-> (100 < m)%Q /\ (m <= 500)%Q) /\
  (mem_color m = WHITE <-> (m <= 100)%Q).
Proof.
  unfold mem_color.
  destruct (Qgtb m 500) eqn:H500; [apply Qgtb_true in H500|apply Qgtb_false in H500];
    (destruct (Qgtb m 100) eqn:H100;
       [apply Qgtb_true in H100|apply Qgtb_false in H100]);
    repeat split; try done; try (intros [? ?]); try intros ?;
      try discriminate; try lra.
Qed.

(** C8, as stated, fails at the thresholds: a memory of exactly 500 MB is
    coloured as the middle tier, and one of exactly 100 MB as the lowest. *)
Lemma threshold_memory_is_lower_tier :
  (500 <= 500)%Q /\ mem_color 500 = YELLOW /\ mem_color 500 <> RED /\
  (100 <= 100)%Q /\ mem_color 100 = WHITE /\ mem_color 100 <> YELLOW.
Proof. repeat split; try discriminate; apply Qle_refl. Qed.

(** C8, amended: the memory colour is the high one exactly above 500 MB,
    the middle one exactly above 100 MB and up to 500 MB, and the normal one
    up to 100 MB.  With resource display on, the primary line of a node
    carries that colour before its memory field.  Memory values, and so the
    tiers, do not change which nodes are printed, with which prefix and
    connector, nor how many lines are printed. *)
Theorem memory_tiers_style_only (E : Env) (t : ProcessTree) :
  (forall m : Q,
     (mem_color m = RED <-> (500 < m)%Q) /\
     (mem_color m = YELLOW <-> (100 < m)%Q /\ (m <= 500)%Q) /\
     (mem_color m = WHITE <-> (m <= 100)%Q)) /\
  (forall now v,
     show_resources t = true ->
     exists a b,
       primary_line E t now v =
       a +:+ Fore E (mem_color (memory_mb (v_proc v))) +:+ "MEM: "
         +:+ format_memory E (v_proc v) +:+ RESET_ALL E +:+ b) /\
  (forall (f : Z -> Q) fuel,
     (fun res : gset Z * list Visit => map visit_shape (snd res))
       <$> display_roots fuel (with_memories f t)
     = (fun res : gset Z * list Visit => map visit_shape (snd res))
       <$> display_roots fuel t) /\
  (forall (f : Z -> Q) clock,
     length <$> display_tree E (with_memories f t) clock
     = length <$> display_tree E t clock).
Proof.
  split; [exact mem_color_tiers|]. split; [|split].
  - intros now v Hres. unfold primary_line. rewrite Hres.
    exists ((v_prefix v +:+ connector (v_is_last v)
               +:+ Fore E (name_color (status (v_proc v)))
               +:+ BRIGHT E +:+ name (v_proc v) +:+ RESET_ALL E +:+ " "
               +:+ Fore E YELLOW +:+ "[PID: " +:+ pretty (pid (v_proc v)) +:+ "]"
               +:+ RESET_ALL E)
            +:+ " " +:+ Fore E (cpu_color (cpu_percent (v_proc v))) +:+ "CPU: "
            +:+ fmt_1f E (cpu_percent (v_proc v)) +:+ "%" +:+ RESET_ALL E +:+ " ").
    destruct (verbose t).
    + exists (" " +:+ Fore E MAGENTA +:+ "User: " +:+ username (v_proc v)
                +:+ RESET_ALL E
                +:+ " " +:+ Fore E BLUE +:+ "Threads: "
                +:+ pretty (num_threads (v_proc v)) +:+ RESET_ALL E
                +:+ " " +:+ Fore E CYAN +:+ "Uptime: "
                +:+ format_uptime now (v_proc v) +:+ RESET_ALL E).
      by rewrite !append_assoc.
    + exists "". by rewrite !append_assoc, append_empty_r.
  - intros f fuel. rewrite display_roots_with_memories.
    destruct (display_roots fuel t) as [[V out]|]; simpl; [|done].
    by rewrite map_map.
  - intros f clock. unfold display_tree, enough_fuel. simpl.
    rewrite length_map, display_roots_with_memories.
    destruct (display_roots _ t) as [[V out]|]; simpl; [|done].
    f_equal. apply length_printed.
Qed.

(** * Claims about [find_process] *)

Lemma find_by_name_spec (E : Env) (q : string) (p : ProcessInfo) :
  Is_true (str_in (py_lower E q) (py_lower E (name p))) <->
  contains_ci E q (name p).
Proof. rewrite Is_true_true. apply str_in_spec. Qed.

(** C5: a query that [int] accepts and that is the key of a record gives
    that one record; a query that [int] rejects gives, in dictionary
    order, all and only the records whose lowered name contains the
    lowered query; a number that is no key, or a string that no name
    contains, gives the empty list.  [find_process] is total: no case
    raises. *)
Theorem find_process_semantics (E : Env) (t : ProcessTree) (q : string) :
  (forall n p,
     py_int E q = Some n -> dict_get (processes t) n = Some p ->
     find_process E t q = [p] /\
     (indexed_by_pid (processes t) -> pid p = n)) /\
  (py_int E q = None ->
     find_process E t q `sublist_of` values (processes t) /\
     forall p, p ∈ find_process E t q <->
               p ∈ values (processes t) /\ contains_ci E q (name p)) /\
  (forall n,
     py_int E q = Some n -> dict_get (processes t) n = None ->
     find_process E t q = []) /\
  (py_int E q = None ->
     (forall p, p ∈ values (processes t) -> ~ contains_ci E q (name p)) ->
     find_process E t q = []).
Proof.
  unfold find_process. split; [|split; [|split]].
  - intros n p -> Hp. rewrite Hp. split; [done|]. intros Hidx. by apply Hidx.
  - intros ->. split; [apply sublist_filter|].
    intros p. rewrite list_elem_of_filter, find_by_name_spec. tauto.
  - by intros n -> ->.
  - intros -> Hnone.
    induction (values (processes t)) as [|p ps IH]; [done|].
    rewrite filter_cons, decide_False.
    + apply IH. intros p' Hp'. apply Hnone. by right.
    + rewrite find_by_name_spec. apply Hnone. left.
Qed.

(** C10, as stated, fails in its last part: a process named "42" whose pid
    is 42 is found by searching "42". *)
Lemma numeric_name_found_by_pid :
  py_int plain_env "42" = Some 42 /\
  name (proc 42 1 "42") = "42" /\
  find_process plain_env named_42 "42" = [proc 42 1 "42"].
Proof. vm_compute. repeat split; reflexivity. Qed.

(** C10, amended: when [int] accepts the query, with value [n], the result
    is the record stored under [n], alone, or the empty list when [n] is no
    key; names are not looked at.  So, with every record under its own
    pid, all that is found has pid [n], and a process whose name is the
    query is found only when its pid is [n]. *)
Theorem numeric_query_is_pid_lookup (E : Env) (t : ProcessTree) (q : string) (n : Z) :
  py_int E q = Some n ->
  find_process E t q =
    match dict_get (processes t) n with Some p => [p] | None => [] end /\
  (forall t', dict_get (processes t') n = dict_get (processes t) n ->
              find_process E t' q = find_process E t q) /\
  (indexed_by_pid (processes t) ->
     (forall p, p ∈ find_process E t q -> pid p = n) /\
     (forall k p, dict_get (processes t) k = Some p -> name p = q ->
                  k <> n -> p ∉ find_process E t q)).
Proof.
  intros Hq. unfold find_process. rewrite Hq. split; [done|]. split.
  - by intros t' ->.
  - intros Hidx.
    assert (forall p, p ∈ match dict_get (processes t) n with
                          | Some p => [p] | None => [] end -> pid p = n) as H.
    { intros p. destruct (dict_get (processes t) n) as [p'|] eqn:Hn.
      - intros ->%list_elem_of_singleton. by apply Hidx.
      - by intros ?%elem_of_nil. }
    split; [done|]. intros k p Hk _ Hne Hin.
    apply H in Hin. apply Hidx in Hk. congruence.
Qed.

Lemma numeric_query_is_pid_lookup_witness :
  find_process plain_env named_42_pid_7 "42" = [] /\
  proc 7 1 "42" ∉ find_process plain_env named_42_pid_7 "42".
Proof.
  destruct (numeric_query_is_pid_lookup plain_env named_42_pid_7 "42" 42 eq_refl)
    as (Hres & _ & Hidx).
  split; [by rewrite Hres|].
  apply (proj2 (Hidx (indexed_snapshot _ _ _)) 7); [reflexivity..|done].
Defined.

Example find_process_examples :
  find_process plain_env four_processes "INIT" = [proc 1 0 "init"] /\
  find_process plain_env four_processes "or" = [proc 20 10 "editor"; proc 99 5000 "orphan"] /\
  find_process plain_env four_processes " 99 " = [proc 99 5000 "orphan"] /\
  find_process plain_env four_processes "5000" = [] /\
  find_process plain_env four_processes "daemon" = [] /\
  find_process plain_env named_42_pid_7 "42" = [] /\
  find_process plain_env named_42_pid_7 "p4" = [proc 8 1 "app42"].
Proof. vm_compute. repeat split; reflexivity. Qed.

Example colorama_line :
  display_tree colorama_env
    (build_tree (snapshot [mkProcessInfo 7 0 "db" "pg" "running" 12.5 600 4 0 "db" []]
                          true false))
    (fun _ => 0%Q)
  = Some [("└── " +:+ esc "32" +:+ esc "1" +:+ "db" +:+ esc "0" +:+ " "
           +:+ esc "33" +:+ "[PID: 7]" +:+ esc "0"
           +:+ " " +:+ esc "32" +:+ "CPU: 12.5%" +:+ esc "0"
           +:+ " " +:+ esc "31" +:+ "MEM: 600.0MB" +:+ esc "0")].
Proof. vm_compute. reflexivity. Qed.

(** * What [collect_processes] leaves *)

Section Collect.

Variables (E : Env) (ps : Psutil).

Implicit Types (st : Collector) (d : dict) (k pid : Z) (pids : list Z).

Lemma dict_get_dict_set d k p k' :
  dict_get (dict_set d k p) k' = if Z.eqb k k' then Some p else dict_get d k'.
Proof.
  induction d as [|[k0 p0] d IH]; simpl; [done|].
  destruct (Z.eqb_spec k0 k) as [->|Hne]; simpl.
  - by destruct (Z.eqb k k').
  - destruct (Z.eqb_spec k0 k') as [->|Hne'].
    + destruct (Z.eqb_spec k k'); [congruence|done].
    + exact IH.
Qed.

Lemma length_dict_set d k p :
  length (dict_set d k p) = if dict_mem d k then length d else S (length d).
Proof.
  unfold dict_mem. induction d as [|[k0 p0] d IH]; simpl; [done|].
  destruct (Z.eqb k0 k); simpl; [done|].
  rewrite IH. by destruct (dict_get d k).
Qed.

Lemma and_then_inr {A B : Type} (c : string + A) (f : A -> string + B) b :
  and_then c f = inr b <-> exists a, c = inr a /\ f a = inr b.
Proof.
  destruct c as [e|a]; simpl; split; try done.
  - by intros (a & [=] & _).
  - intros H. by exists a.
  - by intros (a' & [= <-] & H).
Qed.

Lemma field_inr {A : Type} (r : Read A) (default a : A) :
  field r default = inr a -> quiet r /\ a = or_default r default.
Proof.
  destruct r as [a'|e|e]; simpl; intros [= <-]; split; try done;
    intros e'; discriminate.
Qed.

Lemma field_quiet {A : Type} (r : Read A) (default : A) :
  quiet r -> field r default = inr (or_default r default).
Proof. destruct r as [a|e|e]; simpl; try done. intros H. by destruct (H e). Qed.

(** A record that was read has the pid asked for and no children. *)
Lemma read_record_pid show k info :
  read_record ps show k = inr info -> k = pid info /\ children info = [].
Proof.
  unfold read_record. intros H.
  repeat (apply and_then_inr in H as (? & _ & H)).
  by injection H as <-.
Qed.

Lemma stored_record_pid show k info :
  stored_record ps show k = Some info ->
  pid info = k /\ children info = [].
Proof.
  unfold stored_record. destruct (ps_Process ps k); try done.
  destruct (read_record ps show k) eqn:Hr; [done|].
  intros [= <-]. apply read_record_pid in Hr as [<- ?]. done.
Qed.

Lemma collect_one_stored st pid :
  fst (collect_one E ps st pid) =
  match stored_record ps (show_resources (c_tree st)) pid with
  | Some info => store st pid info
  | None => count_error st
  end.
Proof.
  unfold collect_one, stored_record. destruct (ps_Process ps pid); try done.
  by destruct (read_record _ _ _).
Qed.

Lemma collect_loop_cons pid pids st :
  collect_loop E ps (pid :: pids) st =
  (fst (collect_loop E ps pids (fst (collect_one E ps st pid))),
   snd (collect_one E ps st pid)
     ++ snd (collect_loop E ps pids (fst (collect_one E ps st pid)))).
Proof.
  unfold collect_loop. simpl.
  generalize (fst (collect_one E ps st pid)) as st1.
  generalize (snd (collect_one E ps st pid)) as out.
  induction pids as [|k pids IH]; intros out st1; simpl.
  - by rewrite app_nil_r.
  - rewrite (IH (out ++ _)), (IH (snd (collect_one E ps st1 k))).
    simpl. by rewrite app_assoc.
Qed.

(** The flags, the root list and the number of listed pids stay. *)
Lemma collect_one_frame st pid :
  show_resources (c_tree (fst (collect_one E ps st pid))) = show_resources (c_tree st) /\
  verbose (c_tree (fst (collect_one E ps st pid))) = verbose (c_tree st) /\
  root_processes (c_tree (fst (collect_one E ps st pid))) = root_processes (c_tree st) /\
  c_total_processes (fst (collect_one E ps st pid)) = c_total_processes st.
Proof.
  rewrite collect_one_stored. by destruct (stored_record _ _ _).
Qed.

Lemma collect_loop_frame pids : forall st,
  show_resources (c_tree (fst (collect_loop E ps pids st))) = show_resources (c_tree st) /\
  verbose (c_tree (fst (collect_loop E ps pids st))) = verbose (c_tree st) /\
  root_processes (c_tree (fst (collect_loop E ps pids st))) = root_processes (c_tree st) /\
  c_total_processes (fst (collect_loop E ps pids st)) = c_total_processes st.
Proof.
  induction pids as [|k pids IH]; intros st; [done|].
  rewrite collect_loop_cons. simpl.
  destruct (IH (fst (collect_one E ps st k))) as (-> & -> & -> & ->).
  apply collect_one_frame.
Qed.

(** Lookup after the loop. *)
Lemma collect_loop_get pids : forall st k,
  dict_get (processes (c_tree (fst (collect_loop E ps pids st)))) k =
  match (if decide (k ∈ pids)
         then stored_record ps (show_resources (c_tree st)) k else None) with
  | Some info => Some info
  | None => dict_get (processes (c_tree st)) k
  end.
Proof.
  induction pids as [|k0 pids IH]; intros st k.
  - by rewrite decide_False by apply not_elem_of_nil.
  - rewrite collect_loop_cons. simpl. rewrite IH.
    destruct (collect_one_frame st k0) as (-> & _).
    rewrite collect_one_stored.
    destruct (decide (k ∈ pids)) as [Hin|Hnotin].
    + rewrite decide_True by by right.
      destruct (stored_record ps (show_resources (c_tree st)) k) as [info|] eqn:Hk;
        [done|].
      destruct (stored_record ps (show_resources (c_tree st)) k0) as [info0|] eqn:Hk0;
        simpl; [|done].
      rewrite dict_get_dict_set. destruct (Z.eqb_spec k0 k) as [->|Hne]; [|done].
      congruence.
    + destruct (decide (k = k0)) as [->|Hne].
      * rewrite decide_True by left.
        destruct (stored_record ps (show_resources (c_tree st)) k0) as [info0|];
          simpl; [|done].
        by rewrite dict_get_dict_set, Z.eqb_refl.
      * rewrite decide_False by (intros [?|?]%elem_of_cons; done).
        destruct (stored_record ps (show_resources (c_tree st)) k0) as [info0|];
          simpl; [|done].
        rewrite dict_get_dict_set. by destruct (Z.eqb_spec k0 k); [congruence|].
Qed.

Lemma collect_loop_ok pids : forall st,
  dict_ok (processes (c_tree st)) ->
  dict_ok (processes (c_tree (fst (collect_loop E ps pids st)))).
Proof.
  induction pids as [|k pids IH]; intros st Hok; [done|].
  rewrite collect_loop_cons. simpl. apply IH. rewrite collect_one_stored.
  destruct (stored_record _ _ _); simpl; [by apply dict_set_ok|done].
Qed.

(** Records and errors add up to the pids met. *)
Lemma collect_loop_count pids : forall st,
  (length (processes (c_tree (fst (collect_loop E ps pids st))))
   + c_collection_errors (fst (collect_loop E ps pids st))
   <= length (processes (c_tree st)) + c_collection_errors st + length pids)%nat /\
  (NoDup pids -> (forall k, k ∈ pids -> k ∉ keys (processes (c_tree st))) ->
   (length (processes (c_tree (fst (collect_loop E ps pids st))))
    + c_collection_errors (fst (collect_loop E ps pids st))
    = length (processes (c_tree st)) + c_collection_errors st + length pids)%nat).
Proof.
  induction pids as [|k pids IH]; intros st.
  - split; [|intros _ _]; simpl; lia.
  - rewrite collect_loop_cons. simpl.
    destruct (IH (fst (collect_one E ps st k))) as [IHle IHeq].
    rewrite collect_one_stored in *.
    destruct (stored_record ps (show_resources (c_tree st)) k) as [info|];
      simpl in *.
    + rewrite length_dict_set in *. split.
      * destruct (dict_mem (processes (c_tree st)) k); lia.
      * intros [Hk Hnd]%NoDup_cons Hfree.
        assert (dict_mem (processes (c_tree st)) k = false) as Hmem.
        { apply dict_mem_false, Hfree. left. }
        rewrite Hmem in *. rewrite IHeq; [lia|done|].
        intros k' Hk' Hkey. apply dict_mem_true in Hkey.
        unfold dict_mem in Hkey. rewrite dict_get_dict_set in Hkey.
        destruct (Z.eqb_spec k k') as [->|Hne]; [done|].
        apply (Hfree k'); [by right|]. by apply dict_mem_true.
    + split; [lia|].
      intros [Hk Hnd]%NoDup_cons Hfree. rewrite IHeq; [lia|done|].
      intros k' Hk'. apply Hfree. by right.
Qed.

Lemma collect_loop_quiet pids : forall st,
  length (snd (collect_loop E ps pids st)) =
  if verbose (c_tree st)
  then (c_collection_errors (fst (collect_loop E ps pids st))
        - c_collection_errors st)%nat
  else 0%nat.
Proof.
  assert (forall st, c_collection_errors st
                     <= c_collection_errors (fst (collect_loop E ps pids st)))%nat
    as Hmono.
  { induction pids as [|k pids IH]; intros st; [done|].
    rewrite collect_loop_cons. simpl. etrans; [|apply IH].
    rewrite collect_one_stored. destruct (stored_record _ _ _); simpl; lia. }
  clear Hmono.
  induction pids as [|k pids IH]; intros st.
  - simpl. destruct (verbose (c_tree st)); simpl; lia.
  - assert (forall st', c_collection_errors st'
                        <= c_collection_errors (fst (collect_loop E ps pids st')))%nat
      as Hmono.
    { clear. induction pids as [|k pids IH]; intros st; [done|].
      rewrite collect_loop_cons. simpl. etrans; [|apply IH].
      rewrite collect_one_stored. destruct (stored_record _ _ _); simpl; lia. }
    rewrite collect_loop_cons. simpl. rewrite length_app, IH.
    destruct (collect_one_frame st k) as (_ & -> & _).
    specialize (Hmono (fst (collect_one E ps st k))).
    revert Hmono. generalize (collect_loop E ps pids (fst (collect_one E ps st k))).
    intros r. unfold collect_one.
    destruct (ps_Process ps k); [destruct (read_record _ _ _)|..];
      simpl; destruct (verbose (c_tree st)); simpl; lia.
Qed.

(** Lookup in the tree that [collect_processes] leaves in a new
    [ProcessTree]. *)
Lemma collected_get res verb k info :
  dict_get (processes (c_tree (fst (collect_processes E ps (new_tree res verb)))))
           k = Some info <->
  exists pids, ps_pids ps = Ok pids /\ k ∈ pids /\
               ps_Process ps k = Ok tt /\ read_record ps res k = inr info.
Proof.
  unfold collect_processes.
  destruct (ps_pids ps) as [pids|e|e]; simpl;
    try (split; [done|by intros (? & ? & _)]).
  rewrite collect_loop_get. simpl. unfold stored_record.
  destruct (decide (k ∈ pids)) as [Hin|Hnotin].
  - destruct (ps_Process ps k) as [[]|e|e];
      [|by split; [|intros (? & _ & _ & ? & _)]..].
    destruct (read_record ps res k) as [e|info'].
    + by split; [|intros (? & _ & _ & _ & ?)].
    + split; [intros [= ->]; by exists pids|]. by intros (? & _ & _ & _ & [= ->]).
  - split; [done|]. intros (? & [= <-] & ? & _). done.
Qed.

Lemma collected_key res verb k :
  k ∈ keys (processes (c_tree (fst (collect_processes E ps (new_tree res verb))))) <->
  exists pids, ps_pids ps = Ok pids /\ k ∈ pids /\ readable ps res k.
Proof.
  split.
  - intros [info (pids & ? & ? & ? & ?)%collected_get]%dict_get_key.
    exists pids. split; [done|]. split; [done|]. by exists info.
  - intros (pids & Hpids & Hin & info & HP & Hr).
    apply (dict_get_Some_key _ _ info), collected_get. by exists pids.
Qed.

(** The tree is an input that the builder expects. *)
Lemma collected_input res verb :
  let t := c_tree (fst (collect_processes E ps (new_tree res verb))) in
  fresh t /\ dict_ok (processes t) /\ indexed_by_pid (processes t).
Proof.
  cbn zeta.
  assert (forall k p,
    dict_get (processes (c_tree (fst (collect_processes E ps (new_tree res verb)))))
             k = Some p -> pid p = k /\ children p = []) as Hget.
  { intros k p (pids & _ & _ & _ & Hr)%collected_get.
    apply read_record_pid in Hr as [-> ?]. done. }
  split; [split|split].
  - unfold collect_processes. destruct (ps_pids ps) as [pids|e|e]; simpl; try done.
    by destruct (collect_loop_frame pids
                   (mkCollector (mkProcessTree [] [] res verb) (length pids) 0))
      as (_ & _ & -> & _).
  - intros k p H. by apply Hget in H as [_ ?].
  - unfold collect_processes. destruct (ps_pids ps) as [pids|e|e]; simpl;
      try apply NoDup_nil_2.
    apply collect_loop_ok. apply NoDup_nil_2.
  - intros k p H. by apply Hget in H as [? _].
Qed.

Lemma collected_flags res verb :
  let t := c_tree (fst (collect_processes E ps (new_tree res verb))) in
  show_resources t = res /\ verbose t = verb.
Proof.
  unfold collect_processes. destruct (ps_pids ps) as [pids|e|e]; simpl; try done.
  by destruct (collect_loop_frame pids
                 (mkCollector (mkProcessTree [] [] res verb) (length pids) 0))
    as (-> & -> & _).
Qed.

(** X1: whatever [psutil] gives, the tree that [collect_processes] leaves
    in a new [ProcessTree] is an input the builder expects: no roots and no
    children yet, every pid is a key once, every record is stored under its
    own pid and was read for a pid that [psutil.pids()] listed, and the two
    flags are those of the constructor. *)
Theorem collect_processes_well_formed res verb :
  let t := c_tree (fst (collect_processes E ps (new_tree res verb))) in
  fresh t /\ dict_ok (processes t) /\ indexed_by_pid (processes t) /\
  (forall k, k ∈ keys (processes t) ->
             exists pids, ps_pids ps = Ok pids /\ k ∈ pids) /\
  show_resources t = res /\ verbose t = verb.
Proof.
  cbn zeta.
  destruct (collected_input res verb) as (Hfresh & Hok & Hidx).
  destruct (collected_flags res verb) as (Hres & Hverb).
  repeat split; try done; try apply Hfresh.
  intros k (pids & ? & ? & _)%collected_key. by exists pids.
Qed.

(** X2: when [psutil.pids()] returns, [total_processes] is the number of
    pids listed, records and errors together are at most that many, as
    many when no pid is listed twice, and a pid is a key of [processes]
    exactly when it is listed and its body of the loop ran to the end, the
    record stored being the one read. *)
Theorem collect_processes_accounting res verb pids :
  ps_pids ps = Ok pids ->
  let st := fst (collect_processes E ps (new_tree res verb)) in
  c_total_processes st = length pids /\
  (length (processes (c_tree st)) + c_collection_errors st <= length pids)%nat /\
  (NoDup pids ->
   (length (processes (c_tree st)) + c_collection_errors st = length pids)%nat) /\
  (forall k, k ∈ keys (processes (c_tree st)) <-> k ∈ pids /\ readable ps res k) /\
  (forall k info,
     dict_get (processes (c_tree st)) k = Some info <->
     k ∈ pids /\ ps_Process ps k = Ok tt /\ read_record ps res k = inr info).
Proof.
  intros Hpids. cbn zeta.
  split; [|split; [|split; [|split]]].
  - unfold collect_processes. rewrite Hpids. simpl.
    by destruct (collect_loop_frame pids
                   (mkCollector (mkProcessTree [] [] res verb) (length pids) 0))
      as (_ & _ & _ & ->).
  - unfold collect_processes. rewrite Hpids. simpl.
    apply (collect_loop_count pids
             (mkCollector (mkProcessTree [] [] res verb) (length pids) 0)).
  - intros HND. unfold collect_processes. rewrite Hpids. simpl.
    apply (collect_loop_count pids
             (mkCollector (mkProcessTree [] [] res verb) (length pids) 0));
      [done|].
    intros k _ Hk. by apply elem_of_nil in Hk.
  - intros k. rewrite collected_key. split.
    + intros (pids' & Hpids' & ? & ?). rewrite Hpids in Hpids'.
      injection Hpids' as <-. done.
    + intros [? ?]. by exists pids.
  - intros k info. rewrite collected_get. split.
    + intros (pids' & Hpids' & ? & ?). rewrite Hpids in Hpids'.
      injection Hpids' as <-. done.
    + intros (? & ? & ?). by exists pids.
Qed.

(** X3: a denied detail never costs the record.  When a listed pid can be
    opened and each of its calls returns or raises one of the two [psutil]
    exceptions, the pid is a key of [processes], and each field of its
    record is the value returned or the default of the source: the name
    and the user name [<unknown>], the parent pid 0, the status [unknown],
    CPU and memory 0, no threads, the time of the collection as creation
    time, and the name as command line, also when the command line is
    empty.  Without [show_resources] the CPU value is 0 whatever the call
    would give. *)
Theorem collect_processes_best_effort res verb pids k :
  ps_pids ps = Ok pids -> k ∈ pids -> ps_Process ps k = Ok tt ->
  best_effort ps res k ->
  exists info,
    dict_get (processes (c_tree (fst (collect_processes E ps (new_tree res verb)))))
             k = Some info /\
    pid info = k /\ children info = [] /\
    name info = or_default (ps_name ps k) "<unknown>" /\
    ppid info = or_default (ps_ppid ps k) 0 /\
    username info = or_default (ps_username ps k) "<unknown>" /\
    status info = or_default (ps_status ps k) "unknown" /\
    cpu_percent info = (if res then or_default (ps_cpu_percent ps k) 0%Q else 0%Q) /\
    memory_mb info =
      or_default (match ps_rss ps k with
                  | Ok rss => Ok (inject_Z rss / (1024 * 1024))%Q
                  | Denied e => Denied e
                  | Raised e => Raised e
                  end) 0%Q /\
    num_threads info = or_default (ps_num_threads ps k) 0 /\
    create_time info = or_default (ps_create_time ps k) (ps_time ps k) /\
    cmdline info =
      (let joined := or_default (match ps_cmdline ps k with
                                 | Ok parts => Ok (String.concat " " parts)
                                 | Denied e => Denied e
                                 | Raised e => Raised e
                                 end) "" in
       if String.eqb joined "" then name info else joined).
Proof.
  intros Hpids Hin HP (Hname & Hppid & Huser & Hstatus & Hcpu & Hrss & Hthreads
                       & Hcreate & Hcmd).
  unfold collect_processes. rewrite Hpids. simpl.
  set (st1 := mkCollector _ _ _).
  destruct (ps_rss ps k) as [rss|e|e] eqn:Erss; [| |by destruct (Hrss e)];
    (destruct (ps_cmdline ps k) as [parts|e'|e'] eqn:Ecmd;
       [| |by destruct (Hcmd e')]).
  all: eexists; rewrite collect_loop_get; simpl; rewrite decide_True by done.
  all: unfold stored_record, read_record; rewrite HP, Erss, Ecmd.
  all: rewrite (field_quiet _ _ Hname), (field_quiet _ _ Hppid),
    (field_quiet _ _ Huser), (field_quiet _ _ Hstatus),
    (field_quiet _ _ Hthreads), (field_quiet _ _ Hcreate); simpl.
  all: replace (if res then field (ps_cpu_percent ps k) 0%Q else inr 0%Q)
    with (inr (A := string)
              (if res then or_default (ps_cpu_percent ps k) 0%Q else 0%Q))
    by (destruct res; [|done]; symmetry; by apply field_quiet, Hcpu).
  all: simpl; (split; [reflexivity|]); simpl; repeat split; done.
Qed.

(** X4: what [collect_processes] prints.  Without the verbose flag it
    prints nothing per pid: its lines are the opening line, the number of
    records collected and, when there were errors, their number.  With the
    flag it prints one more line for each pid counted as an error. *)
Theorem collect_processes_diagnostics res verb pids :
  ps_pids ps = Ok pids ->
  let r := collect_processes E ps (new_tree res verb) in
  let errors := c_collection_errors (fst r) in
  length (snd r) =
  (2 + (if verb then errors else 0) + (if Nat.ltb 0 errors then 1 else 0))%nat.
Proof.
  intros Hpids. unfold collect_processes. rewrite Hpids. simpl.
  set (st1 := mkCollector _ _ _).
  rewrite !length_app, collect_loop_quiet. simpl.
  destruct verb, (Nat.ltb 0 _); simpl; lia.
Qed.

End Collect.

Lemma guarded_source_best_effort res : best_effort guarded_source res 2.
Proof. repeat split; try intros _; intros e; discriminate. Qed.

Lemma collect_processes_accounting_witness :
  let st := fst (collect_processes plain_env guarded_source (new_tree false false)) in
  c_total_processes st = 3%nat /\
  (length (processes (c_tree st)) + c_collection_errors st = 3)%nat /\
  2 ∈ keys (processes (c_tree st)) /\ 3 ∉ keys (processes (c_tree st)).
Proof.
  destruct (collect_processes_accounting plain_env guarded_source false false
              [1; 2; 3] eq_refl) as (Htotal & _ & Hsum & Hkeys & _).
  split; [exact Htotal|]. split.
  - apply Hsum. repeat (apply NoDup_cons; split; [set_solver|]). apply NoDup_nil_2.
  - split.
    + apply Hkeys. split; [set_solver|]. by eexists.
    + intros (_ & info & HP & _)%Hkeys. discriminate.
Defined.

Lemma collect_processes_best_effort_witness :
  exists info,
    dict_get (processes (c_tree (fst (collect_processes plain_env guarded_source
                                        (new_tree true false))))) 2 = Some info /\
    name info = "<unknown>" /\ ppid info = 0 /\ status info = "unknown" /\
    create_time info = 1000%Q /\ cmdline info = "<unknown>".
Proof.
  destruct (collect_processes_best_effort plain_env guarded_source true false
              [1; 2; 3] 2 eq_refl ltac:(set_solver) eq_refl
              (guarded_source_best_effort true))
    as (info & Hget & _ & _ & Hname & Hppid & _ & Hstatus & _ & _ & _ & Hcreate & Hcmd).
  exists info. rewrite Hcmd, Hname. done.
Defined.

Lemma collect_processes_diagnostics_witness :
  length (snd (collect_processes plain_env guarded_source (new_tree false true)))
  = 4%nat.
Proof.
  exact (collect_processes_diagnostics plain_env guarded_source false true
           [1; 2; 3] eq_refl).
Defined.

(** * The uptime text *)

Lemma Qfloor_bounds (x : Q) :
  (inject_Z (Qfloor x) <= x /\ x < inject_Z (Qfloor x) + 1)%Q.
Proof.
  split; [apply Qfloor_le|].
  pose proof (Qlt_floor x) as H. rewrite inject_Z_plus in H. exact H.
Qed.

(** X5: the text of [format_uptime] is made of the whole hours [h] and the
    whole minutes [m] of the time since the creation, rounded down: the
    uptime lies in the minute that starts at [3600 h + 60 m] seconds, the
    minutes are between 0 and 59, and the hours are printed exactly when
    the uptime is an hour or more.  So a creation time that lies after the
    time read (the default of [collect_processes] is such a time) gives
    minutes only, counted up from the hour before. *)
Theorem format_uptime_parts (now : Q) (p : ProcessInfo) :
  exists h m : Z,
    format_uptime now p =
      (if Z.ltb 0 h then pretty h +:+ "h" +:+ pretty m +:+ "m"
       else pretty m +:+ "m") /\
    (inject_Z (3600 * h + 60 * m) <= now - create_time p)%Q /\
    (now - create_time p < inject_Z (3600 * h + 60 * m + 60))%Q /\
    0 <= m <= 59 /\
    (0 < h <-> (3600 <= now - create_time p)%Q).
Proof.
  unfold format_uptime.
  set (u := (now - create_time p)%Q).
  set (h := Qfloor (u / 3600)%Q).
  set (m := Qfloor ((u - 3600 * inject_Z h) / 60)%Q).
  exists h, m. split; [done|].
  destruct (Qfloor_bounds (u / 3600)%Q) as [Hh1 Hh2]. fold h in Hh1, Hh2.
  destruct (Qfloor_bounds ((u - 3600 * inject_Z h) / 60)%Q) as [Hm1 Hm2].
  fold m in Hm1, Hm2. clearbody m h u.
  assert (3600 * inject_Z h <= u /\ u < 3600 * inject_Z h + 3600)%Q as [Hu1 Hu2].
  { split.
    - apply (Qmult_le_compat_r _ _ 3600) in Hh1; [|done].
      unfold Qdiv in Hh1. rewrite <- Qmult_assoc in Hh1.
      rewrite (Qmult_comm (/ 3600)), Qmult_inv_r, Qmult_1_r in Hh1 by done.
      lra.
    - apply (Qmult_lt_compat_r _ _ 3600) in Hh2; [|done].
      unfold Qdiv in Hh2. rewrite <- Qmult_assoc in Hh2.
      rewrite (Qmult_comm (/ 3600)), Qmult_inv_r, Qmult_1_r in Hh2 by done.
      lra. }
  assert (60 * inject_Z m <= u - 3600 * inject_Z h /\
          u - 3600 * inject_Z h < 60 * inject_Z m + 60)%Q as [Hv1 Hv2].
  { split.
    - apply (Qmult_le_compat_r _ _ 60) in Hm1; [|done].
      unfold Qdiv in Hm1. rewrite <- Qmult_assoc in Hm1.
      rewrite (Qmult_comm (/ 60)), Qmult_inv_r, Qmult_1_r in Hm1 by done.
      lra.
    - apply (Qmult_lt_compat_r _ _ 60) in Hm2; [|done].
      unfold Qdiv in Hm2. rewrite <- Qmult_assoc in Hm2.
      rewrite (Qmult_comm (/ 60)), Qmult_inv_r, Qmult_1_r in Hm2 by done.
      lra. }
  rewrite !inject_Z_plus, !inject_Z_mult.
  change (inject_Z 3600) with 3600%Q. change (inject_Z 60) with 60%Q.
  split; [lra|]. split; [lra|]. split.
  - assert (inject_Z (-1) < inject_Z m /\ inject_Z m < inject_Z 60)%Q as [H1 H2].
    { change (inject_Z (-1)) with (-1)%Q. change (inject_Z 60) with 60%Q.
      split; lra. }
    rewrite <- Zlt_Qlt in H1, H2. lia.
  - split.
    + intros Hpos. assert (inject_Z 1 <= inject_Z h)%Q as H1.
      { rewrite <- Zle_Qle. lia. }
      change (inject_Z 1) with 1%Q in H1. lra.
    + intros Hge. assert (inject_Z 0 < inject_Z h)%Q as H1.
      { change (inject_Z 0) with 0%Q. lra. }
      by rewrite <- Zlt_Qlt in H1.
Qed.

(** * The statistics and the builder *)

Section Rebuild.

Implicit Types (d items : dict) (t : ProcessTree) (k q c : Z).

(** A pass that rewrites only the [children] of the records. *)
Lemma kids_relinked (g : Z * ProcessInfo -> list Z) items q :
  kids (map (fun kp => (fst kp, set_children (snd kp) (g kp))) items) q
  = kids items q.
Proof.
  induction items as [|[c pc] items IH]; [done|].
  cbn [map]. rewrite !kids_cons. cbn [fst snd set_children ppid]. by rewrite IH.
Qed.

Lemma orphans_relinked (g : Z * ProcessInfo -> list Z) d items :
  orphans d (map (fun kp => (fst kp, set_children (snd kp) (g kp))) items)
  = orphans d items.
Proof.
  induction items as [|[c pc] items IH]; [done|].
  cbn [map]. rewrite !orphans_cons. cbn [fst snd set_children ppid]. by rewrite IH.
Qed.

Lemma build_tree_mem t k :
  dict_mem (processes (build_tree t)) k = dict_mem (processes t) k.
Proof.
  unfold dict_mem. rewrite build_tree_get. by destruct (dict_get (processes t) k).
Qed.

Lemma build_tree_kids t q :
  dict_ok (processes t) ->
  kids (processes (build_tree t)) q = kids (processes t) q.
Proof. intros Hok. rewrite build_tree_processes by done. apply kids_relinked. Qed.

Lemma build_tree_orphans t :
  dict_ok (processes t) ->
  orphans (processes (build_tree t)) (processes (build_tree t))
  = orphans (processes t) (processes t).
Proof.
  intros Hok. rewrite (orphans_ext _ (processes t)) by apply build_tree_mem.
  rewrite build_tree_processes by done. apply orphans_relinked.
Qed.

Lemma count_status_cons s p (ps : list ProcessInfo) :
  count_status s (p :: ps) =
  ((if String.eqb (status p) s then 1 else 0) + count_status s ps)%nat.
Proof.
  unfold count_status. rewrite filter_cons.
  destruct (String.eqb (status p) s); by destruct (decide _).
Qed.

Lemma aggregate_relinked (g : Z * ProcessInfo -> list Z) items n :
  aggregate (values (map (fun kp => (fst kp, set_children (snd kp) (g kp))) items)) n
  = aggregate (values items) n.
Proof.
  unfold aggregate, values. rewrite !map_map. cbn [snd].
  assert (forall s,
    count_status s (map (fun kp => set_children (snd kp) (g kp)) items)
    = count_status s (map snd items)) as Hcount.
  { intros s. induction items as [|[c pc] items IH]; [done|].
    cbn [map]. rewrite !count_status_cons. by rewrite IH. }
  rewrite !Hcount, !length_map. done.
Qed.

Lemma count_status_disjoint (ps : list ProcessInfo) :
  (count_status "running" ps + count_status "sleeping" ps
   + count_status "zombie" ps <= length ps)%nat.
Proof.
  induction ps as [|p ps IH]; [done|].
  rewrite !count_status_cons. cbn [length].
  destruct (String.eqb_spec (status p) "running") as [->|_]; [simpl; lia|].
  destruct (String.eqb_spec (status p) "sleeping") as [->|_]; [simpl; lia|].
  destruct (String.eqb (status p) "zombie"); lia.
Qed.

(** X6: the statistics do not depend on when they are taken, except for
    the roots.  [build_tree] changes neither the number of processes, nor
    the memory and thread sums, nor the three status counts; it adds to
    the number of roots the number of records whose parent pid is not a
    key.  The three status counts never add up to more than the total,
    and a new tree has at most as many roots as processes. *)
Theorem build_tree_statistics t :
  dict_ok (processes t) ->
  let s := get_statistics t in
  let s' := get_statistics (build_tree t) in
  total_processes s' = total_processes s /\
  total_memory_mb s' = total_memory_mb s /\
  total_threads s' = total_threads s /\
  running s' = running s /\ sleeping s' = sleeping s /\ zombie s' = zombie s /\
  n_root_processes s' =
    (n_root_processes s + length (orphans (processes t) (processes t)))%nat /\
  (n_root_processes s' <= n_root_processes s + total_processes s')%nat /\
  (running s' + sleeping s' + zombie s' <= total_processes s')%nat.
Proof.
  intros Hok. cbn zeta. unfold get_statistics.
  rewrite build_tree_roots, (build_tree_processes t Hok), aggregate_relinked.
  assert (length (sort_by (pid_of (processes t))
                   (root_processes t ++ orphans (processes t) (processes t)))
          = (length (root_processes t)
             + length (orphans (processes t) (processes t)))%nat) as Hroots.
  { by rewrite sort_by_perm, length_app. }
  assert (length (orphans (processes t) (processes t)) <= length (processes t))%nat
    as Hle.
  { unfold orphans. rewrite length_map. apply length_filter. }
  pose proof (count_status_disjoint (values (processes t))) as Hsum.
  unfold aggregate. cbn [total_processes total_memory_mb total_threads running
                         sleeping zombie n_root_processes].
  unfold values in *. rewrite length_map in *.
  repeat split; try done; lia.
Qed.

(** X7: [build_tree] is to be called once.  On a tree it has already built
    it links every record a second time: the keys stay, and the root list
    and every [children] list hold each of their references twice. *)
Theorem build_tree_twice t :
  fresh t -> dict_ok (processes t) ->
  let t1 := build_tree t in
  let t2 := build_tree t1 in
  keys (processes t2) = keys (processes t1) /\
  root_processes t2 ≡ₚ root_processes t1 ++ root_processes t1 /\
  (forall q,
     children_of (processes t2) q
     ≡ₚ children_of (processes t1) q ++ children_of (processes t1) q).
Proof.
  intros [Hroots Hfresh] Hok. cbn zeta.
  split; [apply build_tree_keys|]. split.
  - rewrite (build_tree_roots (build_tree t)), sort_by_perm.
    rewrite build_tree_orphans by done.
    apply Permutation_app_head.
    rewrite build_tree_roots, Hroots, sort_by_perm. done.
  - intros q. rewrite (build_tree_children_of (build_tree t)).
    rewrite build_tree_kids by done.
    rewrite build_tree_get, (build_tree_children_of t q).
    destruct (dict_get (processes t) q) as [p|] eqn:Hp;
      cbn [fmap option_fmap option_map set_children children]; [|done].
    rewrite (Hfresh q p Hp). cbn [app]. by rewrite !sort_by_perm.
Qed.

End Rebuild.

Lemma build_tree_statistics_witness :
  n_root_processes (get_statistics (build_tree four_processes)) = 2%nat /\
  total_processes (get_statistics (build_tree four_processes)) = 4%nat.
Proof.
  destruct (build_tree_statistics four_processes four_processes_ok)
    as (Htotal & _ & _ & _ & _ & _ & Hroots & _).
  rewrite Hroots, Htotal. split; reflexivity.
Defined.

Lemma build_tree_twice_witness :
  root_processes (build_tree (build_tree four_processes)) ≡ₚ [1; 99; 1; 99] /\
  children_of (processes (build_tree (build_tree four_processes))) 1 ≡ₚ [10; 10].
Proof.
  destruct (build_tree_twice four_processes four_processes_fresh four_processes_ok)
    as (_ & Hroots & Hchildren).
  split; [exact Hroots|exact (Hchildren 1)].
Defined.

(** * Pre-order and indentation *)

Section Preorder.

Variable d : dict.

Lemma preorder_nil top : preorder top [].
Proof. intros l1 v l2 H. by destruct l1. Qed.

Lemma walk_both_preorder :
  (forall r pre last V V' out, walk d r pre last V V' out ->
     preorder (fun v => v_ref v = r /\ v_prefix v = pre /\ v_is_last v = last) out) /\
  (forall pre n i xs V V' out, walk_loop d pre n i xs V V' out ->
     preorder (loop_top pre n i xs) out).
Proof.
  apply walk_both.
  - intros. apply preorder_nil.
  - intros. apply preorder_nil.
  - intros r p pre last V V' out Hr HV _ IH l1 v l2 Hout.
    destruct l1 as [|v0 l1]; simpl in Hout.
    + injection Hout as <- _. by left.
    + injection Hout as <- Hout. right.
      destruct (IH l1 v l2 Hout) as [(j & Hj & Hlast & Hpre)|(u & j & Hu & Hc)].
      * exists (mkVisit r p pre last), j. split; [left|]. by repeat split.
      * exists u, j. split; [by right|done].
  - intros. apply preorder_nil.
  - intros pre n i x xs V V1 V2 o1 o2 _ IH1 _ IH2 l1 v l2 Hout.
    symmetry in Hout.
    apply app_eq_inv in Hout as [(k & -> & Hk)|(k & -> & Hk)].
    + destruct (IH2 k v l2 Hk) as [(j & Hj & Hlast & Hpre)|(u & j & Hu & Hc)].
      * left. exists (S j). split; [done|]. split; [|done].
        by rewrite Hlast, Nat.add_succ_r.
      * right. exists u, j. split; [|done]. apply elem_of_app. by right.
    + destruct k as [|v' k]; simpl in Hk.
      * rewrite app_nil_r in *. subst o2.
        destruct (IH2 [] v l2 eq_refl) as [(j & Hj & Hlast & Hpre)|(u & j & Hu & _)].
        -- left. exists (S j). split; [done|]. split; [|done].
           by rewrite Hlast, Nat.add_succ_r.
        -- by apply elem_of_nil in Hu.
      * injection Hk as -> ->.
        destruct (IH1 l1 v' k eq_refl) as [(Hr & Hpre & Hlast)|(u & j & Hu & Hc)].
        -- left. exists 0%nat. split; [by rewrite Hr|]. split; [|done].
           by rewrite Hlast, Nat.add_0_r.
        -- right. by exists u, j.
Qed.

(** The reference of a visit is the pid printed, when records are stored
    under their own pid. *)
Lemma from_dict_ref out v :
  indexed_by_pid d -> from_dict d out -> v ∈ out -> pid (v_proc v) = v_ref v.
Proof. intros Hidx Hfrom Hv. apply Hidx. by apply Hfrom. Qed.

(** Below a top node of the call, along [children] references. *)
Lemma preorder_descends (tops : list Z) top out :
  from_dict d out -> preorder top out ->
  (forall v, top v -> v_ref v ∈ tops) ->
  forall v, v ∈ out -> exists r, r ∈ tops /\ descends d r (v_ref v).
Proof.
  intros Hfrom Hpre Htop.
  assert (forall n l1 v l2, length l1 = n -> out = l1 ++ v :: l2 ->
            exists r, r ∈ tops /\ descends d r (v_ref v)) as Hall.
  { induction n as [n IH] using lt_wf_ind. intros l1 v l2 Hn Hout.
    destruct (Hpre l1 v l2 Hout) as [Hv|(u & j & Hu & Hj & _)].
    - exists (v_ref v). split; [by apply Htop|by left].
    - apply list_elem_of_split in Hu as (a & b & ->).
      destruct (IH (length a) ltac:(rewrite <- Hn, length_app; simpl; lia)
                   a u (b ++ v :: l2) eq_refl) as (r & Hr & Hdesc).
      { by rewrite Hout, <- app_assoc. }
      exists r. split; [done|]. right.
      assert (v_ref v ∈ children_of d (v_ref u)) as Hchild.
      { unfold children_of. rewrite (Hfrom u).
        - by eapply list_elem_of_lookup_2.
        - rewrite Hout. apply elem_of_app. left. apply elem_of_app. right. left. }
      destruct Hdesc as [Heq|Hanc].
      + rewrite Heq in Hchild. by apply anc_child.
      + by eapply anc_step. }
  intros v (l1 & l2 & ->)%list_elem_of_split. by eapply Hall.
Qed.

(** What is below a printed node and is a key is printed. *)
Lemma closed_descends V out r k :
  indexed_by_pid d -> from_dict d out -> closed_out d V out ->
  V = list_to_set (visit_pids out) ->
  r ∈ map v_ref out -> ancestor d r k -> k ∈ keys d -> k ∈ map v_ref out.
Proof.
  intros Hidx Hfrom Hclosed HV Hr Hanc.
  assert (forall b c, b ∈ map v_ref out -> c ∈ children_of d b -> c ∈ keys d ->
                      c ∈ map v_ref out) as Hstep.
  { intros b c (u & -> & Hu)%list_elem_of_fmap Hc [pc Hpc]%dict_get_key.
    unfold children_of in Hc. rewrite (Hfrom u Hu) in Hc.
    pose proof (Hclosed u c pc Hu Hc Hpc) as Hin.
    rewrite HV in Hin. apply elem_of_list_to_set in Hin. unfold visit_pids in Hin.
    apply list_elem_of_fmap in Hin as (v & Hpid & Hv).
    apply list_elem_of_fmap. exists v. split; [|done].
    rewrite <- (from_dict_ref out v Hidx Hfrom Hv), <- Hpid.
    symmetry. by apply Hidx. }
  induction Hanc as [a c Hc|a b c Hab IH Hc]; intros Hk.
  - by apply (Hstep a).
  - apply (Hstep b); [|done..]. apply IH; [done|].
    unfold children_of in Hc. destruct (dict_get d b) as [pb|] eqn:Hb.
    + by eapply dict_get_Some_key.
    + by apply elem_of_nil in Hc.
Qed.

End Preorder.

(** * One subtree *)

Section Subtree.

Variables (E : Env) (t : ProcessTree) (clock : Z -> Q).

Local Abbreviation d := (processes t).

(** The call on a stored record prints that record first. *)
Lemma subtree_shape k p :
  dict_get d k = Some p ->
  exists V out,
    display_subtree (enough_fuel d) t k = Some (V, mkVisit k p "" true :: out) /\
    walk d k "" true ∅ V (mkVisit k p "" true :: out).
Proof.
  intros Hp.
  destruct (display_from_total d (enough_fuel d) k "" true ∅) as (V & out0 & Hrun).
  { unfold enough_fuel. pose proof (unvisited_le d ∅). lia. }
  pose proof (display_from_walk _ _ _ _ _ _ _ _ Hrun) as Hwalk.
  inversion Hwalk as [? ? ? ? Hnone|? p' ? ? ? Hsome Hin|? p' ? ? ? ? out Hsome _ _];
    subst.
  - congruence.
  - by apply not_elem_of_empty in Hin.
  - assert (p' = p) as -> by congruence. by exists V, out.
Qed.

Lemma walk_refs_pids r pre last V V' out :
  indexed_by_pid d -> walk d r pre last V V' out -> map v_ref out = visit_pids out.
Proof.
  intros Hidx Hwalk. unfold visit_pids. apply map_ext_in.
  intros v Hv%list_elem_of_In. symmetry.
  eapply from_dict_ref; [done| |done].
  by eapply (proj1 (walk_both_from_dict d)).
Qed.

Lemma subtree_lines k p V out :
  dict_get d k = Some p ->
  display_subtree (enough_fuel d) t k = Some (V, out) ->
  exists header,
    length header = 2%nat /\
    display_process_subtree E t clock k = header ++ printed E t clock out.
Proof.
  intros Hp Hrun. unfold display_process_subtree. rewrite Hp, Hrun.
  eexists [_; _]. split; reflexivity.
Qed.

(** X8: [display_process_subtree] for a pid that is not a key prints the
    one line that says so.  For a key it prints two header lines and then
    the subtree: the process itself first, with no prefix and the last
    connector, and, when records are stored under their own pid, once each
    exactly the keys that are the process or below it along [children]
    references. *)
Theorem display_process_subtree_descendants k :
  indexed_by_pid d ->
  match dict_get d k with
  | None =>
      display_process_subtree E t clock k =
      [Fore E RED +:+ "Process with PID " +:+ pretty k +:+ " not found"
         +:+ RESET_ALL E]
  | Some p =>
      exists V out header,
        display_subtree (enough_fuel d) t k = Some (V, mkVisit k p "" true :: out) /\
        length header = 2%nat /\
        display_process_subtree E t clock k =
          header ++ printed E t clock (mkVisit k p "" true :: out) /\
        NoDup (k :: map v_ref out) /\
        (forall c, c ∈ k :: map v_ref out <-> descends d k c /\ c ∈ keys d)
  end.
Proof.
  intros Hidx. destruct (dict_get d k) as [p|] eqn:Hp.
  2: { unfold display_process_subtree. by rewrite Hp. }
  destruct (subtree_shape k p Hp) as (V & out & Hrun & Hwalk).
  destruct (subtree_lines k p V _ Hp Hrun) as (header & Hlen & Hlines).
  exists V, out, header. split; [done|]. split; [done|]. split; [done|].
  pose proof (proj1 (walk_both_from_dict d) _ _ _ _ _ _ Hwalk) as Hfrom.
  destruct (proj1 (walk_both_adds d) _ _ _ _ _ _ Hwalk) as (HV & Hnd & _).
  destruct (proj1 (walk_both_closed d) _ _ _ _ _ _ Hwalk) as (_ & Hclosed).
  pose proof (proj1 (walk_both_preorder d) _ _ _ _ _ _ Hwalk) as Hpre.
  pose proof (walk_refs_pids _ _ _ _ _ _ Hidx Hwalk) as Hrefs.
  change (k :: map v_ref out) with (map v_ref (mkVisit k p "" true :: out)).
  split; [by rewrite Hrefs|].
  intros c. split.
  - intros (v & -> & Hv)%list_elem_of_fmap. split.
    + destruct (preorder_descends d [k] _ _ Hfrom Hpre) with (v := v)
        as (r & Hr & Hdesc); [|done|].
      * intros v' (-> & _). left.
      * apply list_elem_of_singleton in Hr. by subst r.
    + eapply dict_get_Some_key. by apply Hfrom.
  - intros [[->|Hanc] Hkey]; [left|].
    eapply (closed_descends d V _ k c); try done.
    + rewrite HV. set_solver.
    + left.
Qed.

End Subtree.

Lemma display_process_subtree_descendants_witness :
  exists V out,
    display_subtree (enough_fuel (processes (build_tree four_processes)))
                    (build_tree four_processes) 10
    = Some (V, mkVisit 10 (set_children (proc 10 1 "shell") [20]) "" true :: out) /\
    NoDup (10 :: map v_ref out) /\
    forall c, c ∈ 10 :: map v_ref out <->
              descends (processes (build_tree four_processes)) 10 c /\
              c ∈ keys (processes (build_tree four_processes)).
Proof.
  pose proof (display_process_subtree_descendants plain_env
                (build_tree four_processes) (fun _ => 0%Q) 10
                (built_indexed _ (indexed_snapshot _ _ _))) as H.
  assert (dict_get (processes (build_tree four_processes)) 10
          = Some (set_children (proc 10 1 "shell") [20])) as Hget by reflexivity.
  rewrite Hget in H. destruct H as (V & out & header & Hrun & _ & _ & Hnd & Hdesc).
  by exists V, out.
Defined.

(** * The whole forest *)

Section WholeForest.

Variables (E : Env) (clock : Z -> Q).

Implicit Types (t : ProcessTree) (out : list Visit).

Lemma display_node_lines t now v :
  length (display_node E t now v) =
  if verbose t && negb (String.eqb (cmdline (v_proc v)) (name (v_proc v)))
  then 2%nat else 1%nat.
Proof. unfold display_node. by destruct (_ && _). Qed.

Lemma length_printed_bounds t out :
  (length out <= length (printed E t clock out) /\
   length (printed E t clock out) <= (if verbose t then 2 else 1) * length out)%nat /\
  (verbose t = false -> length (printed E t clock out) = length out).
Proof.
  unfold printed. induction out as [|v out [[IH1 IH2] IH3]]; [by destruct (verbose t)|].
  cbn [flat_map length]. rewrite !length_app, display_node_lines.
  destruct (verbose t); simpl in *.
  - split; [|done]. destruct (negb _); lia.
  - split; [lia|]. intros _. by rewrite IH3.
Qed.

(** The nodes printed are as many as their pids, which are pids of
    records. *)
Lemma walk_loop_length (d : dict) pre n i xs V' out :
  walk_loop d pre n i xs ∅ V' out -> (length out <= length d)%nat.
Proof.
  intros Hwalk.
  destruct (walk_loop_adds _ _ _ _ _ _ _ _ Hwalk) as (_ & Hnd & _).
  pose proof (walk_loop_from_dict _ _ _ _ _ _ _ _ Hwalk) as Hfrom.
  replace (length out) with (size (list_to_set (C := gset Z) (visit_pids out))).
  2: { rewrite size_list_to_set by done. unfold visit_pids. apply length_map. }
  etrans; [|apply (unvisited_le d ∅)]. unfold unvisited.
  apply subseteq_size. intros k Hk. apply elem_of_list_to_set in Hk.
  unfold visit_pids in Hk. apply list_elem_of_fmap in Hk as (v & -> & Hv).
  apply elem_of_difference. split; [|set_solver].
  eapply dict_get_pid. by apply Hfrom.
Qed.

(** X9: the indentation of [display_tree].  The traversal of the whole
    forest returns, and each node it prints is a root, printed with no
    prefix and as last exactly at the last position of the root list, or
    the child at some position [j] of a node printed before it: its prefix
    is then the prefix of that node followed by four blanks when that node
    was a last child and by a bar and three blanks otherwise, and it is
    printed as last exactly when [j] is the last position of the
    [children] list. *)
Theorem display_tree_indentation t :
  exists V out,
    display_roots (enough_fuel (processes t)) t = Some (V, out) /\
    forall l1 v l2, out = l1 ++ v :: l2 ->
      (exists j, root_processes t !! j = Some (v_ref v) /\
                 v_is_last v = Nat.eqb j (length (root_processes t) - 1) /\
                 v_prefix v = "") \/
      (exists u j, u ∈ l1 /\
                   children (v_proc u) !! j = Some (v_ref v) /\
                   v_is_last v = Nat.eqb j (length (children (v_proc u)) - 1) /\
                   v_prefix v = v_prefix u +:+ extension (v_is_last u)).
Proof.
  destruct (display_roots_total t) as (V & out & Hrun).
  exists V, out. split; [done|].
  apply display_roots_walk in Hrun.
  exact (proj2 (walk_both_preorder (processes t)) _ _ _ _ _ _ _ Hrun).
Qed.

(** X10: [display_tree] prints at least one line for each node and at most
    one line for each record, or two in verbose mode. *)
Theorem display_tree_line_count t :
  exists V out lines,
    display_roots (enough_fuel (processes t)) t = Some (V, out) /\
    display_tree E t clock = Some lines /\
    (length out <= length lines)%nat /\
    (length lines <= (if verbose t then 2 else 1) * length (processes t))%nat /\
    (verbose t = false -> length lines = length out).
Proof.
  destruct (display_roots_total t) as (V & out & Hrun).
  exists V, out, (printed E t clock out).
  split; [done|]. split; [unfold display_tree; by rewrite Hrun|].
  destruct (length_printed_bounds t out) as [[H1 H2] H3].
  pose proof (walk_loop_length _ _ _ _ _ _ _ (display_roots_walk _ _ _ _ Hrun)) as Hlen.
  split; [done|]. split; [|done].
  etrans; [exact H2|]. destruct (verbose t); lia.
Qed.

(** X11: for a snapshot with unique pids, each stored under its own pid,
    in which every chain of parent pids leaves the index, [display_tree]
    after [build_tree] prints, without the verbose flag, exactly one line
    for each process. *)
Theorem display_tree_one_line_per_process t :
  fresh t -> dict_ok (processes t) -> indexed_by_pid (processes t) ->
  acyclic (processes t) -> verbose t = false ->
  exists lines,
    display_tree E (build_tree t) clock = Some lines /\
    length lines = length (processes t).
Proof.
  intros Hfresh Hok Hidx Hacyc Hverb.
  destruct (display_roots_total (build_tree t)) as (V & out & Hrun).
  exists (printed E (build_tree t) clock out).
  split; [unfold display_tree; by rewrite Hrun|].
  destruct (length_printed_bounds (build_tree t) out) as [_ ->]; [|done].
  pose proof (forest_visits_all t Hfresh Hok Hidx _ _ _ Hrun Hacyc) as Hperm.
  apply Permutation_length in Hperm. rewrite length_map in Hperm.
  rewrite Hperm. unfold values. rewrite length_map.
  rewrite <- (length_map fst). change (map fst ?d) with (keys d).
  rewrite build_tree_keys. unfold keys. by rewrite length_map.
Qed.

End WholeForest.

Lemma display_tree_one_line_per_process_witness :
  exists lines,
    display_tree plain_env (build_tree four_processes) (fun _ => 0%Q) = Some lines /\
    length lines = 4%nat.
Proof.
  exact (display_tree_one_line_per_process plain_env (fun _ => 0%Q) four_processes
           four_processes_fresh four_processes_ok (indexed_snapshot _ _ _)
           four_processes_acyclic eq_refl).
Defined.

(** * The function [display_tree] of [main] *)

Section Main.

Variables (E : Env) (W : World).

Implicit Types (a : Args) (q : string) (p : ProcessInfo).

Local Abbreviation collected a :=
  (c_tree (fst (collect_processes E (w_psutil W)
                  (new_tree (a_resources a) (a_verbose a))))).

Lemma main_tree_ok a :
  dict_ok (processes (main_tree E W a)) /\
  indexed_by_pid (processes (main_tree E W a)).
Proof.
  destruct (collected_input E (w_psutil W) (a_resources a) (a_verbose a))
    as (Hfresh & Hok & Hidx).
  split; [by apply built_ok|by apply built_indexed].
Qed.

(** Every record that [find_process] returns is stored under its pid. *)
Lemma find_process_stored (t : ProcessTree) q p :
  dict_ok (processes t) -> indexed_by_pid (processes t) ->
  p ∈ find_process E t q -> dict_get (processes t) (pid p) = Some p.
Proof.
  intros Hok Hidx. unfold find_process.
  destruct (py_int E q) as [n|].
  - destruct (dict_get (processes t) n) as [p'|] eqn:Hn.
    + intros ->%list_elem_of_singleton. by rewrite (Hidx n p' Hn).
    + by intros ?%elem_of_nil.
  - intros [_ Hp]%list_elem_of_filter. unfold values in Hp.
    apply list_elem_of_fmap in Hp as ([k p'] & -> & Hkp). simpl.
    apply (dict_get_elem _ _ _ Hok) in Hkp. by rewrite (Hidx k p' Hkp).
Qed.

(** X12: in the search mode of [main], the subtree of every match is
    found: [display_process_subtree], called with the pid of a record that
    [find_process] returned, never prints that the process was not found,
    but two header lines and the subtree, which starts with the record
    that matched, printed with no prefix. *)
Theorem main_search_shows_every_match a q p :
  p ∈ find_process E (main_tree E W a) q ->
  exists V out header,
    display_subtree (enough_fuel (processes (main_tree E W a)))
                    (main_tree E W a) (pid p)
    = Some (V, mkVisit (pid p) p "" true :: out) /\
    length header = 2%nat /\
    display_process_subtree E (main_tree E W a) (w_clock W) (pid p)
    = header ++ printed E (main_tree E W a) (w_clock W)
                        (mkVisit (pid p) p "" true :: out).
Proof.
  intros Hp. destruct (main_tree_ok a) as [Hok Hidx].
  pose proof (find_process_stored _ _ _ Hok Hidx Hp) as Hget.
  destruct (subtree_shape _ _ _ Hget) as (V & out & Hrun & _).
  destruct (subtree_lines E _ (w_clock W) _ _ _ _ Hget Hrun) as (header & Hlen & Hlines).
  by exists V, out, header.
Qed.


(** X14: what the full tree of [main] shows.  The traversal prints once
    each pid that [psutil.pids()] listed, whose body of the loop ran to
    the end, and whose chain of parent pids leaves the collected pids; a
    process on or below a parent-pid cycle is collected and counted but
    not shown. *)
Theorem main_shows_rooted_processes a :
  exists V out,
    display_roots (enough_fuel (processes (main_tree E W a))) (main_tree E W a)
    = Some (V, out) /\
    NoDup (map v_ref out) /\
    forall k, k ∈ map v_ref out <->
      (exists pids, ps_pids (w_psutil W) = Ok pids /\ k ∈ pids /\
                    readable (w_psutil W) (a_resources a) k) /\
      rooted (processes (collected a)) k.
Proof.
  destruct (collected_input E (w_psutil W) (a_resources a) (a_verbose a))
    as (Hfresh & Hok & Hidx).
  destruct (display_roots_total (main_tree E W a)) as (V & out & Hrun).
  exists V, out. split; [done|].
  split; [exact (forest_refs_NoDup _ Hidx _ _ _ Hrun)|].
  intros k. rewrite <- collected_key. split.
  - intros (v & -> & Hv)%list_elem_of_fmap.
    assert (reachable (build_tree (collected a)) (v_ref v)) as Hreach.
    { apply (forest_visits_reachable _ Hfresh Hok Hidx _ _ _ Hrun). by exists v. }
    split; [by eapply reachable_key|by eapply reachable_rooted].
  - intros [Hkey Hrooted].
    apply (rooted_reachable _ Hfresh Hok) in Hrooted; [|done].
    apply (forest_visits_reachable _ Hfresh Hok Hidx _ _ _ Hrun) in Hrooted
      as (v & Hv & <-).
    apply list_elem_of_fmap. by exists v.
Qed.

End Main.

Lemma main_search_shows_every_match_witness :
  exists p V out,
    name p = "shell" /\
    display_subtree
      (enough_fuel
         (processes (main_tree plain_env sample_world
                       (mkArgs false false None (Some "SH") None false))))
      (main_tree plain_env sample_world
         (mkArgs false false None (Some "SH") None false)) (pid p)
    = Some (V, mkVisit (pid p) p "" true :: out).
Proof.
  assert (exists p,
            p ∈ find_process plain_env
                  (main_tree plain_env sample_world
                     (mkArgs false false None (Some "SH") None false)) "SH" /\
            name p = "shell") as (p & Hp & Hname).
  { eexists. split; [vm_compute; left|reflexivity]. }
  destruct (main_search_shows_every_match plain_env sample_world
              (mkArgs false false None (Some "SH") None false) "SH" p Hp)
    as (V & out & header & Hrun & _).
  by exists p, V, out.
Defined.


Example main_exports_whole_forest_example :
  main_display_tree plain_env sample_world
    (mkArgs false false (Some 10) None (Some "tree.txt") false)
  = (["Collecting process information..."; "Collected 4 processes";
      str_repeat "═" 70; "Process Tree Visualizer"; "Created by: Michael Semera";
      "Timestamp: 2024-01-01 00:00:00"; "Total Processes: 4";
      str_repeat "═" 70 +:+ newline;
      newline +:+ "Process Subtree for: shell";
      str_repeat "═" 70 +:+ newline;
      "└── shell [PID: 10]"; "    └── editor [PID: 20]";
      "Process tree exported to tree.txt"],
     Some ("tree.txt",
           [str_repeat "═" 70; "Process Tree Visualizer";
            "Created by: Michael Semera"; "Timestamp: 2024-01-01 00:00:01";
            "Total Processes: 4"; str_repeat "═" 70 +:+ newline;
            "├── init [PID: 1]"; "│   └── shell [PID: 10]";
            "│       └── editor [PID: 20]"; "└── orphan [PID: 99]"])).
Proof. vm_compute. reflexivity. Qed.

(** X15: when [psutil.pids()] raises, [collect_processes] prints the
    exception and returns with the tree as [__init__] left it, and [main]
    goes on: the tree it builds and shows has no process and no root, all
    statistics are 0, and the full tree is no line at all. *)
Theorem main_source_unavailable (E : Env) (W : World) (a : Args) :
  (forall pids, ps_pids (w_psutil W) <> Ok pids) ->
  exists e,
    collect_processes E (w_psutil W) (new_tree (a_resources a) (a_verbose a))
    = (new_tree (a_resources a) (a_verbose a),
       [Fore E CYAN +:+ "Collecting process information..." +:+ RESET_ALL E;
        Fore E RED +:+ "Error getting process list: " +:+ e +:+ RESET_ALL E]) /\
    main_tree E W a = mkProcessTree [] [] (a_resources a) (a_verbose a) /\
    get_statistics (main_tree E W a) = mkStats 0 0 0 0 0 0 0 /\
    (given_string (a_search a) = None -> given_pid a = None ->
     mode_lines E W a (main_tree E W a) = []).
Proof.
  intros Hpids. unfold main_tree, collect_processes.
  destruct (ps_pids (w_psutil W)) as [pids|e|e]; [by destruct (Hpids pids)|..];
    exists e; (split; [done|]); (split; [done|]); (split; [done|]);
    intros Hsearch Hpid; unfold mode_lines; by rewrite Hsearch, Hpid.
Qed.

Lemma main_source_unavailable_witness :
  fst (main_display_tree plain_env unavailable_world
         (mkArgs false false None None None false))
  = ["Collecting process information...";
     "Error getting process list: permission denied";
     str_repeat "═" 70; "Process Tree Visualizer"; "Created by: Michael Semera";
     "Timestamp: 2024-01-01 00:00:00"; "Total Processes: 0";
     str_repeat "═" 70 +:+ newline].
Proof.
  destruct (main_source_unavailable plain_env unavailable_world
              (mkArgs false false None None None false))
    as (e & Hcollect & Htree & _ & Hlines).
  { intros pids. discriminate. }
  unfold main_display_tree.
  fold (main_tree plain_env unavailable_world (mkArgs false false None None None false)).
  rewrite (Hlines eq_refl eq_refl), Htree. reflexivity.
Defined.

(** X16: [build_tree] only links.  It keeps the keys of [processes] and
    their order and the two flags, and in every record it changes nothing
    but the [children] list, which keeps what it held and gains the keys
    whose record names this key as parent. *)
Theorem build_tree_only_links (t : ProcessTree) :
  keys (processes (build_tree t)) = keys (processes t) /\
  show_resources (build_tree t) = show_resources t /\
  verbose (build_tree t) = verbose t /\
  forall k,
    match dict_get (processes t) k, dict_get (processes (build_tree t)) k with
    | Some p, Some p' =>
        p' = set_children p (children p') /\
        children p' ≡ₚ children p ++ kids (processes t) k
    | None, None => True
    | _, _ => False
    end.
Proof.
  split; [apply build_tree_keys|]. split; [done|]. split; [done|].
  intros k. rewrite build_tree_get.
  destruct (dict_get (processes t) k) as [p|]; [|done].
  cbn [fmap option_fmap option_map]. split; [done|].
  cbn [set_children children]. apply sort_by_perm.
Qed.

(** * The command line of a node *)

Section CommandLine.

(** A slice that is as long as the string is the string. *)
Lemma py_slice_all (n : nat) (s : string) :
  (py_len s <= n)%nat -> py_slice_to n s = s.
Proof.
  revert n. induction s as [|c s IH]; intros n; simpl; [done|].
  destruct (is_continuation c).
  - intros H. by rewrite IH.
  - destruct n as [|n]; [lia|]. intros H. rewrite IH; [done|lia].
Qed.

(** A shorter slice has [n] code points and ends where the next code
    point begins. *)
Lemma py_slice_cut (n : nat) (s : string) :
  (n < py_len s)%nat ->
  py_len (py_slice_to n s) = n /\
  exists c rest,
    is_continuation c = false /\ s = py_slice_to n s +:+ String c rest.
Proof.
  revert n. induction s as [|c s IH]; intros n; simpl; [lia|].
  destruct (is_continuation c) eqn:Hc.
  - intros H. destruct (IH n H) as (Hlen & c' & rest & Hc' & Hs).
    simpl. rewrite Hc. split; [done|]. exists c', rest. split; [done|].
    rewrite append_cons. by rewrite <- Hs.
  - destruct n as [|n]; intros H.
    + split; [done|]. by exists c, s.
    + destruct (IH n) as (Hlen & c' & rest & Hc' & Hs); [lia|].
      simpl. rewrite Hc. split; [by rewrite Hlen|]. exists c', rest.
      split; [done|]. rewrite append_cons. by rewrite <- Hs.
Qed.

(** On bytes below 128 the code points are the bytes. *)
Lemma py_len_ascii (s : string) :
  (forall c, In c (list_ascii_of_string s) -> is_continuation c = false) ->
  py_len s = String.length s.
Proof.
  induction s as [|c s IH]; simpl; [done|]. intros H.
  rewrite (H c) by by left. rewrite IH; [done|]. intros c' Hc'. apply H. by right.
Qed.

End CommandLine.

(** C9: in verbose mode the lines of [display_tree] are, for each node
    printed and in the order of the traversal, the primary line of the
    node and, unless the command line equals the process name, one more
    line that carries the command line.  The command line is shown whole
    when it has at most 80 characters (code points); otherwise its first 80
    characters are shown, followed by three dots. *)
Theorem verbose_node_lines (E : Env) (t : ProcessTree) (clock : Z -> Q) :
  verbose t = true ->
  exists V out,
    display_roots (enough_fuel (processes t)) t = Some (V, out) /\
    display_tree E t clock
    = Some (flat_map
              (fun v =>
                 primary_line E t (clock (pid (v_proc v))) v ::
                 (if String.eqb (cmdline (v_proc v)) (name (v_proc v))
                  then []
                  else [(v_prefix v +:+ extension (v_is_last v))
                          +:+ Fore E WHITE +:+ DIM E +:+ "└─ "
                          +:+ cmd_display (v_proc v) +:+ RESET_ALL E]))
              out) /\
    max_cmd_len = 80%nat /\
    forall v, v ∈ out ->
      ((py_len (cmdline (v_proc v)) <= max_cmd_len)%nat ->
       cmd_display (v_proc v) = cmdline (v_proc v)) /\
      ((max_cmd_len < py_len (cmdline (v_proc v)))%nat ->
       exists shown c rest,
         cmd_display (v_proc v) = shown +:+ "..." /\
         cmdline (v_proc v) = shown +:+ String c rest /\
         py_len shown = max_cmd_len /\
         is_continuation c = false).
Proof.
  intros Hverb.
  destruct (display_roots_total t) as (V & out & Hrun).
  exists V, out. split; [done|]. split; [|split; [done|]].
  - unfold display_tree. rewrite Hrun. f_equal. unfold printed.
    apply flat_map_ext. intros v. unfold display_node, cmd_line.
    rewrite Hverb. simpl. by destruct (String.eqb _ _).
  - intros v _. unfold cmd_display. split.
    + intros Hle. rewrite (proj2 (Nat.ltb_ge _ _) Hle). by apply py_slice_all.
    + intros Hlt. rewrite (proj2 (Nat.ltb_lt _ _) Hlt).
      destruct (py_slice_cut _ _ Hlt) as (Hlen & c & rest & Hc & Hs).
      by exists (py_slice_to max_cmd_len (cmdline (v_proc v))), c, rest.
Qed.

Lemma verbose_node_lines_witness :
  display_tree plain_env (build_tree verbose_cmdlines) (fun _ => 0%Q)
  = Some ["└── init [PID: 1] User: root Threads: 1 Uptime: 0m";
          "    └─ " +:+ str_repeat "é" 50;
          "    ├── app [PID: 2] User: root Threads: 1 Uptime: 0m";
          "    │   └─ " +:+ str_repeat "é" 80 +:+ "...";
          "    └── sh [PID: 3] User: root Threads: 1 Uptime: 0m"] /\
  exists p,
    dict_get (processes (build_tree verbose_cmdlines)) 2 = Some p /\
    py_len (cmdline p) = 81%nat /\ String.length (cmdline p) = 162%nat /\
    exists shown c rest,
      cmd_display p = shown +:+ "..." /\
      cmdline p = shown +:+ String c rest /\ py_len shown = 80%nat.
Proof.
  destruct (verbose_node_lines plain_env (build_tree verbose_cmdlines)
              (fun _ => 0%Q) eq_refl) as (V & out & Hrun & Hlines & _ & Hnodes).
  vm_compute in Hrun. injection Hrun as _ Hout'.
  split.
  - rewrite Hlines, <- Hout'. vm_compute. reflexivity.
  - eexists. split; [reflexivity|]. split; [reflexivity|]. split; [reflexivity|].
    destruct (Hnodes (mkVisit 2 (mkProcessInfo 2 1 "app" "root" "sleeping" 0 0 1 0
                                   (str_repeat "é" 81) [])
                         "    " false)) as [_ Hcut].
    { rewrite <- Hout'. vm_compute. right. left. }
    destruct Hcut as (shown & c & rest & H1 & H2 & H3 & _);
      [vm_compute; lia|].
    by exists shown, c, rest.
Defined.

(** * The order of siblings in the output *)

Section SiblingOrder.

Variable d : dict.

Implicit Types (out o l : list Visit) (u v : Visit) (xs : list Z).

Local Ltac reassoc :=
  repeat first [rewrite <- app_assoc | rewrite <- app_comm_cons]; reflexivity.

Lemma before_app_l l out v1 v2 : before out v1 v2 -> before (l ++ out) v1 v2.
Proof.
  intros (l1 & l2 & l3 & ->). exists (l ++ l1), l2, l3. reassoc.
Qed.

Lemma before_app_r l out v1 v2 : before out v1 v2 -> before (out ++ l) v1 v2.
Proof.
  intros (l1 & l2 & l3 & ->). exists l1, l2, (l3 ++ l). reassoc.
Qed.

Lemma before_split o1 o2 v1 v2 : v1 ∈ o1 -> v2 ∈ o2 -> before (o1 ++ o2) v1 v2.
Proof.
  intros (a & b & ->)%list_elem_of_split (c & e & ->)%list_elem_of_split.
  exists a, (b ++ c), e. reassoc.
Qed.

Lemma visit_pids_app o1 o2 : visit_pids (o1 ++ o2) = visit_pids o1 ++ visit_pids o2.
Proof. apply map_app. Qed.

(** What a call prints is its process or below it. *)
Lemma walk_descends r pre last V V' out v :
  walk d r pre last V V' out -> v ∈ out -> descends d r (v_ref v).
Proof.
  intros Hwalk Hv.
  destruct (preorder_descends d [r] _ out
              (proj1 (walk_both_from_dict d) _ _ _ _ _ _ Hwalk)
              (proj1 (walk_both_preorder d) _ _ _ _ _ _ Hwalk)) with (v := v)
    as (r' & Hr' & Hdesc); [|done|].
  - intros v' (-> & _). left.
  - apply list_elem_of_singleton in Hr'. by subst r'.
Qed.

Lemma walk_loop_descends pre n i xs V V' out v :
  walk_loop d pre n i xs V V' out -> v ∈ out ->
  exists r, r ∈ xs /\ descends d r (v_ref v).
Proof.
  intros Hloop Hv.
  apply (preorder_descends d xs _ out
           (walk_loop_from_dict d _ _ _ _ _ _ _ Hloop)
           (proj2 (walk_both_preorder d) _ _ _ _ _ _ _ Hloop)); [|done].
  intros v' (j & Hj & _). by eapply list_elem_of_lookup_2.
Qed.

(** The calls of one loop print in the order of the list, when no member
    of the list is below another. *)
Lemma walk_loop_tops_order pre n i xs V V' out :
  walk_loop d pre n i xs V V' out ->
  NoDup xs -> (forall a b, a ∈ xs -> b ∈ xs -> ~ ancestor d a b) ->
  forall j1 j2 v1 v2,
    (j1 < j2)%nat -> xs !! j1 = Some (v_ref v1) -> xs !! j2 = Some (v_ref v2) ->
    v1 ∈ out -> v2 ∈ out -> before out v1 v2.
Proof.
  induction 1 as [pre n i V|pre n i x xs V V1 V2 o1 o2 Hwalk Hloop IH];
    intros Hnd Hsib j1 j2 v1 v2 Hlt H1 H2 Hv1 Hv2; [done|].
  apply NoDup_cons in Hnd as [Hx Hnd].
  assert (forall v, v ∈ o1 -> v_ref v ∈ xs -> False) as Hin1.
  { intros v Hv Hvx. destruct (walk_descends _ _ _ _ _ _ _ Hwalk Hv) as [Heq|Hanc].
    - by rewrite Heq in Hvx.
    - eapply (Hsib x (v_ref v)); [left|by right|done]. }
  assert (forall v, v ∈ o2 -> v_ref v = x -> False) as Hin2.
  { intros v Hv Hvx.
    destruct (walk_loop_descends _ _ _ _ _ _ _ _ Hloop Hv) as (r & Hr & [Heq|Hanc]).
    - rewrite Hvx in Heq. by subst r.
    - rewrite Hvx in Hanc. eapply (Hsib r x); [by right|left|done]. }
  destruct j2 as [|j2]; [lia|]. simpl in H2.
  assert (v2 ∈ o2) as Hv2'.
  { apply elem_of_app in Hv2 as [Hv2|Hv2]; [|done].
    destruct (Hin1 v2 Hv2). by eapply list_elem_of_lookup_2. }
  destruct j1 as [|j1]; simpl in H1.
  - injection H1 as H1.
    apply elem_of_app in Hv1 as [Hv1|Hv1]; [|by destruct (Hin2 v1 Hv1)].
    by apply before_split.
  - assert (v1 ∈ o2) as Hv1'.
    { apply elem_of_app in Hv1 as [Hv1|Hv1]; [|done].
      destruct (Hin1 v1 Hv1). by eapply list_elem_of_lookup_2. }
    apply before_app_l. eapply (IH Hnd); [|by apply Nat.succ_lt_mono|done..].
    intros a b Ha Hb. apply Hsib; by right.
Qed.

(** The loop of a printed node: its output follows the node at once, and
    its final set is what had been visited when it returned. *)
Lemma walk_both_subloop :
  (forall r pre last V V' out, walk d r pre last V V' out ->
     forall u, u ∈ out ->
       exists l o l' V1 V2,
         out = l ++ u :: o ++ l' /\
         walk_loop d (v_prefix u +:+ extension (v_is_last u))
                   (length (children (v_proc u))) 0 (children (v_proc u))
                   V1 V2 o /\
         V2 = V ∪ list_to_set (visit_pids (l ++ u :: o))) /\
  (forall pre n i xs V V' out, walk_loop d pre n i xs V V' out ->
     forall u, u ∈ out ->
       exists l o l' V1 V2,
         out = l ++ u :: o ++ l' /\
         walk_loop d (v_prefix u +:+ extension (v_is_last u))
                   (length (children (v_proc u))) 0 (children (v_proc u))
                   V1 V2 o /\
         V2 = V ∪ list_to_set (visit_pids (l ++ u :: o))).
Proof.
  apply walk_both.
  - intros r pre last V _ u Hu. by apply elem_of_nil in Hu.
  - intros r p pre last V _ _ u Hu. by apply elem_of_nil in Hu.
  - intros r p pre last V V' out Hr HV Hloop IH u [->|Hu]%elem_of_cons.
    + exists [], out, [], ({[pid p]} ∪ V), V'. rewrite app_nil_r.
      split; [done|]. split; [done|].
      destruct (walk_loop_adds _ _ _ _ _ _ _ _ Hloop) as (-> & _).
      simpl. set_solver.
    + destruct (IH u Hu) as (l & o & l' & V1 & V2 & -> & Hsub & ->).
      exists (mkVisit r p pre last :: l), o, l', V1,
        ({[pid p]} ∪ V ∪ list_to_set (visit_pids (l ++ u :: o))).
      split; [done|]. split; [done|]. simpl. set_solver.
  - intros pre n i V u Hu. by apply elem_of_nil in Hu.
  - intros pre n i x xs V V1 V2 o1 o2 Hwalk IH1 Hloop IH2 u [Hu|Hu]%elem_of_app.
    + destruct (IH1 u Hu) as (l & o & l' & W1 & W2 & -> & Hsub & ->).
      exists l, o, (l' ++ o2), W1, (V ∪ list_to_set (visit_pids (l ++ u :: o))).
      split; [|done]. reassoc.
    + destruct (IH2 u Hu) as (l & o & l' & W1 & W2 & -> & Hsub & ->).
      exists (o1 ++ l), o, l', W1,
        (V1 ∪ list_to_set (visit_pids (l ++ u :: o))).
      split; [reassoc|]. split; [done|].
      destruct (proj1 (walk_both_adds d) _ _ _ _ _ _ Hwalk) as (-> & _).
      rewrite <- app_assoc, (visit_pids_app o1), list_to_set_app_L. set_solver.
Qed.

(** The last edge of a chain of [children] references. *)
Lemma ancestor_last a b :
  ancestor d a b -> exists w, b ∈ children_of d w /\ (w = a \/ ancestor d a w).
Proof. destruct 1 as [a c Hc|a b c Hab Hc]; eauto. Qed.

Lemma ancestor_trans a b c : ancestor d a b -> ancestor d b c -> ancestor d a c.
Proof.
  intros Hab Hbc. induction Hbc as [b c Hc|b b' c _ IH Hc].
  - by eapply anc_step.
  - eapply anc_step; [by apply IH|done].
Qed.

Lemma sorted_lookup (R : Z -> Z -> Prop) (l : list Z) j1 j2 a b :
  StronglySorted R l -> (j1 < j2)%nat -> l !! j1 = Some a -> l !! j2 = Some b ->
  R a b.
Proof.
  intros Hs. revert j1 j2. induction Hs as [|x l _ IH Hall]; intros j1 j2 Hlt H1 H2;
    [done|].
  destruct j2 as [|j2]; [lia|]. simpl in H2. destruct j1 as [|j1]; simpl in H1.
  - injection H1 as <-. apply (proj1 (Forall_forall _ _) Hall).
    by eapply list_elem_of_lookup_2.
  - eapply (IH j1 j2); [lia|done..].
Qed.

End SiblingOrder.

Section ForestOrder.

Variable t : ProcessTree.
Hypothesis Hfresh : fresh t.
Hypothesis Hok : dict_ok (processes t).
Hypothesis Hidx : indexed_by_pid (processes t).

Variables (fuel : nat) (V : gset Z) (out : list Visit).
Hypothesis Hrun : display_roots fuel (build_tree t) = Some (V, out).

Local Abbreviation t' := (build_tree t).
Local Abbreviation d' := (processes (build_tree t)).

Implicit Types (u v : Visit) (G : list Z).

Lemma forest_out_NoDup : NoDup out.
Proof. apply (NoDup_fmap_1 v_ref). by eapply forest_refs_NoDup. Qed.

Lemma forest_visit_children u :
  u ∈ out -> children (v_proc u) = children_of d' (v_ref u).
Proof. intros Hu. eapply visit_children; [by eapply forest_from_dict|done]. Qed.

(** A printed node is not below itself. *)
Lemma forest_no_cycle u : u ∈ out -> ~ ancestor d' (v_ref u) (v_ref u).
Proof.
  intros Hu Hanc.
  apply (ancestor_self_on_cycle t Hfresh Hok) in Hanc.
  apply on_cycle_not_rooted in Hanc. apply Hanc.
  apply (reachable_rooted t Hfresh Hok).
  apply (forest_visits_reachable t Hfresh Hok Hidx _ _ _ Hrun). by exists u.
Qed.

(** No sibling is below another. *)
Lemma forest_siblings_apart G a b :
  sibling_group t' out G -> a ∈ G -> b ∈ G -> ~ ancestor d' a b.
Proof.
  intros HG Ha Hb (w & Hbw & Hw)%ancestor_last.
  destruct HG as [->|(u & Hu & ->)].
  - by eapply (built_root_not_child t Hfresh Hok b w).
  - rewrite (forest_visit_children u Hu) in Ha, Hb.
    assert (w = v_ref u) as -> by by eapply (built_one_parent t Hfresh Hok).
    apply (forest_no_cycle u Hu).
    destruct Hw as [<-|Hw]; [by apply anc_child|].
    apply (ancestor_trans d' _ a); [by apply anc_child|done].
Qed.

Lemma forest_group_NoDup G : sibling_group t' out G -> NoDup G.
Proof.
  intros [->|(u & Hu & ->)].
  - by apply built_roots_NoDup.
  - rewrite (forest_visit_children u Hu). by apply built_children_NoDup.
Qed.

(** The children of a printed node are printed by its own loop. *)
Lemma forest_child_in_loop u v l o l' V1 V2 :
  u ∈ out -> out = l ++ u :: o ++ l' ->
  walk_loop d' (v_prefix u +:+ extension (v_is_last u))
            (length (children (v_proc u))) 0 (children (v_proc u)) V1 V2 o ->
  V2 = ∅ ∪ list_to_set (visit_pids (l ++ u :: o)) ->
  v ∈ out -> v_ref v ∈ children (v_proc u) -> v ∈ o.
Proof.
  intros Hu Hout Hsub HV2 Hv Hc.
  pose proof (forest_from_dict t _ _ _ Hrun) as Hfrom.
  pose proof forest_out_NoDup as Hnd.
  assert (forall w, w ∈ out -> pid (v_proc w) = v_ref w) as Hpid.
  { intros w Hw. by eapply (visit_ref_pid t Hidx). }
  assert (v ∈ l ++ u :: o) as Hhere.
  { destruct (walk_loop_closed _ _ _ _ _ _ _ _ Hsub) as [Hclosed _].
    pose proof (Hclosed _ _ Hc (Hfrom v Hv)) as Hin.
    rewrite HV2 in Hin. apply elem_of_union in Hin as [Hin|Hin]; [set_solver|].
    apply elem_of_list_to_set in Hin. unfold visit_pids in Hin.
    apply list_elem_of_fmap in Hin as (w & Hw1 & Hw2).
    assert (w ∈ out) as Hw.
    { rewrite Hout, app_comm_cons, app_assoc. apply elem_of_app. by left. }
    assert (w = v) as <-; [|done].
    apply (forest_one_visit t Hidx _ _ _ Hrun); [done..|].
    by rewrite <- (Hpid w Hw), <- (Hpid v Hv). }
  rewrite app_comm_cons, app_assoc in Hout.
  apply elem_of_app in Hhere as [Hl|[->|Ho]%elem_of_cons]; [| |done]; exfalso.
  - apply list_elem_of_split in Hl as (x & y & ->).
    assert (out = x ++ v :: (y ++ u :: o ++ l')) as Hout'.
    { rewrite Hout. repeat first [rewrite <- app_assoc | rewrite <- app_comm_cons].
      reflexivity. }
    destruct (proj2 (walk_both_preorder d') _ _ _ _ _ _ _
                (forest_walk t _ _ _ Hrun) x v _ Hout')
      as [(j & Hj & _)|(u' & j & Hu' & Hj & _)].
    + eapply (built_root_not_child t Hfresh Hok (v_ref v) (v_ref u)).
      * by eapply list_elem_of_lookup_2.
      * by rewrite <- (forest_visit_children u Hu).
    + assert (u' ∈ out) as Hu'out.
      { rewrite Hout'. apply elem_of_app. by left. }
      assert (u' = u) as ->.
      { apply (forest_one_visit t Hidx _ _ _ Hrun); [done..|].
        eapply (built_one_parent t Hfresh Hok _ _ (v_ref v)).
        - rewrite <- (forest_visit_children u' Hu'out).
          by eapply list_elem_of_lookup_2.
        - by rewrite <- (forest_visit_children u Hu). }
      rewrite Hout' in Hnd. apply NoDup_app in Hnd as (_ & Hdisj & _).
      apply (Hdisj u Hu'). right. apply elem_of_app. right. left.
  - apply (forest_no_cycle u Hu). apply anc_child.
    by rewrite <- (forest_visit_children u Hu).
Qed.

(** Siblings are printed in the order of their list. *)
Lemma forest_sibling_order G j1 j2 v1 v2 :
  sibling_group t' out G -> (j1 < j2)%nat ->
  G !! j1 = Some (v_ref v1) -> G !! j2 = Some (v_ref v2) ->
  v1 ∈ out -> v2 ∈ out -> before out v1 v2.
Proof.
  intros HG Hlt H1 H2 Hv1 Hv2.
  pose proof (forest_group_NoDup G HG) as Hnd.
  pose proof (forest_siblings_apart G) as Hapart.
  pose proof (forest_walk t _ _ _ Hrun) as Hwalk.
  destruct HG as [->|(u & Hu & ->)].
  - eapply (walk_loop_tops_order d' _ _ _ _ _ _ _ Hwalk Hnd); [|done..].
    intros a b. apply Hapart. by left.
  - destruct (proj2 (walk_both_subloop d') _ _ _ _ _ _ _ Hwalk u Hu)
      as (l & o & l' & V1 & V2 & Hout & Hsub & HV2).
    assert (before o v1 v2) as Hbefore.
    { eapply (walk_loop_tops_order d' _ _ _ _ _ _ _ Hsub Hnd); [|done..| |].
      - intros a b. apply Hapart. right. by exists u.
      - apply (forest_child_in_loop u v1 l o l' V1 V2 Hu Hout Hsub HV2 Hv1).
        by eapply list_elem_of_lookup_2.
      - apply (forest_child_in_loop u v2 l o l' V1 V2 Hu Hout Hsub HV2 Hv2).
        by eapply list_elem_of_lookup_2. }
    rewrite Hout. apply before_app_l.
    change (u :: o ++ l') with ([u] ++ o ++ l').
    by apply before_app_l, before_app_r.
Qed.

(** Along a sibling group the pids printed go up. *)
Lemma forest_sibling_pids G j1 j2 v1 v2 :
  sibling_group t' out G -> (j1 < j2)%nat ->
  G !! j1 = Some (v_ref v1) -> G !! j2 = Some (v_ref v2) ->
  v1 ∈ out -> v2 ∈ out -> pid (v_proc v1) < pid (v_proc v2).
Proof.
  intros HG Hlt H1 H2 Hv1 Hv2.
  pose proof (forest_from_dict t _ _ _ Hrun) as Hfrom.
  assert (forall w, w ∈ out -> pid_of d' (v_ref w) = pid (v_proc w)) as Hpid.
  { intros w Hw. unfold pid_of. by rewrite (Hfrom w Hw). }
  assert (StronglySorted Z.le (map (pid_of d') G)) as Hsorted.
  { destruct HG as [->|(u & Hu & ->)].
    - apply built_roots_sorted.
    - by apply (built_children_sorted t (v_ref u)), Hfrom. }
  assert (forall j c, G !! j = Some c ->
                      map (pid_of d') G !! j = Some (pid_of d' c)) as Hmap.
  { clear. induction G as [|x G IH]; intros [|j] c H; simpl in *;
      [done|done|by injection H as ->|by apply IH]. }
  pose proof (sorted_lookup _ _ _ _ _ _ Hsorted Hlt (Hmap _ _ H1) (Hmap _ _ H2))
    as Hle.
  rewrite (Hpid v1 Hv1), (Hpid v2 Hv2) in Hle.
  assert (v_ref v1 <> v_ref v2) as Hne.
  { intros Heq. rewrite <- Heq in H2.
    pose proof (NoDup_lookup _ _ _ _ (forest_group_NoDup G HG) H1 H2). lia. }
  rewrite <- (visit_ref_pid t Hidx v1 out Hfrom Hv1),
          <- (visit_ref_pid t Hidx v2 out Hfrom Hv2) in Hne.
  lia.
Qed.

End ForestOrder.

(** C6, amended: for a forest built from a snapshot with unique pids, each
    record under its own pid, two renderings with the same flags are the
    same text whenever verbose mode is off; in verbose mode they are the
    same whenever the clock gives every record the same uptime text.  The
    children of every node and the roots are in ascending order of pid.
    The text is the lines of the nodes printed, in the order of the
    traversal, and in it every member of every sibling group (the roots,
    or the children of a printed node) is printed exactly once, its line
    has the last-child connector exactly when it stands at the final
    position of its group, and the siblings of a group are printed in the
    order of the group: of two siblings the one with the smaller pid is
    printed first. *)
Theorem rendering_is_ordered (E : Env) (t : ProcessTree) :
  fresh t -> dict_ok (processes t) -> indexed_by_pid (processes t) ->
  (forall clock1 clock2,
     (verbose t = true ->
      forall k p, dict_get (processes (build_tree t)) k = Some p ->
                  format_uptime (clock1 (pid p)) p
                  = format_uptime (clock2 (pid p)) p) ->
     display_tree E (build_tree t) clock1 = display_tree E (build_tree t) clock2) /\
  (forall k p, dict_get (processes (build_tree t)) k = Some p ->
     StronglySorted Z.le (map (pid_of (processes (build_tree t))) (children p))) /\
  StronglySorted Z.le
    (map (pid_of (processes (build_tree t))) (root_processes (build_tree t))) /\
  (exists V out,
     display_roots (enough_fuel (processes (build_tree t))) (build_tree t)
       = Some (V, out) /\
     (forall clock,
        display_tree E (build_tree t) clock
        = Some (flat_map (fun v => display_node E (build_tree t)
                                     (clock (pid (v_proc v))) v) out)) /\
     (forall G j c,
        sibling_group (build_tree t) out G -> G !! j = Some c ->
        exists v, v ∈ out /\ v_ref v = c /\
                  v_is_last v = Nat.eqb j (length G - 1) /\
                  (forall v', v' ∈ out -> v_ref v' = c -> v' = v) /\
                  forall now, exists rest,
                    primary_line E (build_tree t) now v
                    = v_prefix v +:+ connector (v_is_last v) +:+ rest) /\
     (forall G j1 j2 v1 v2,
        sibling_group (build_tree t) out G -> (j1 < j2)%nat ->
        G !! j1 = Some (v_ref v1) -> G !! j2 = Some (v_ref v2) ->
        v1 ∈ out -> v2 ∈ out ->
        before out v1 v2 /\ pid (v_proc v1) < pid (v_proc v2))).
Proof.
  intros Hfresh Hok Hidx.
  destruct (display_roots_total (build_tree t)) as (V & out & Hrun).
  split; [|split; [|split]].
  - intros clock1 clock2 Hclock. unfold display_tree. rewrite Hrun.
    f_equal. apply printed_clock. intros v Hv Hverb.
    apply (Hclock Hverb (v_ref v)).
    by apply (forest_from_dict t _ _ _ Hrun).
  - apply built_children_sorted.
  - apply built_roots_sorted.
  - exists V, out. split; [done|]. split; [|split].
    + intros clock. unfold display_tree. by rewrite Hrun.
    + intros G j c HG Hj.
      destruct (forest_sibling t Hfresh Hok Hidx _ _ _ Hrun G j c HG Hj)
        as (v & Hv & Href & Hlast & Huniq).
      exists v. repeat (split; [done|]).
      intros now. apply primary_line_connector.
    + intros G j1 j2 v1 v2 HG Hlt H1 H2 Hv1 Hv2. split.
      * by apply (forest_sibling_order t Hfresh Hok Hidx _ _ _ Hrun G j1 j2).
      * by apply (forest_sibling_pids t Hfresh Hok Hidx _ _ _ Hrun G j1 j2).
Qed.

Lemma rendering_is_ordered_witness :
  (forall clock1 clock2,
     display_tree plain_env (build_tree four_processes) clock1
     = display_tree plain_env (build_tree four_processes) clock2) /\
  (exists V out,
     display_roots (enough_fuel (processes (build_tree four_processes)))
                   (build_tree four_processes) = Some (V, out) /\
     (forall G j c,
        sibling_group (build_tree four_processes) out G -> G !! j = Some c ->
        exists v, v ∈ out /\ v_ref v = c /\
                  v_is_last v = Nat.eqb j (length G - 1)) /\
     (forall v1 v2,
        v_ref v1 = 1 -> v_ref v2 = 99 -> v1 ∈ out -> v2 ∈ out ->
        before out v1 v2)).
Proof.
  destruct (rendering_is_ordered plain_env four_processes four_processes_fresh
              four_processes_ok (indexed_snapshot _ _ _))
    as (Hclock & _ & _ & V & out & Hrun & _ & Hgroup & Horder).
  split.
  - intros clock1 clock2. apply Hclock. discriminate.
  - exists V, out. split; [done|]. split.
    + intros G j c HG Hj.
      destruct (Hgroup G j c HG Hj) as (v & Hv & Href & Hlast & _). eauto.
    + intros v1 v2 H1 H2 Hv1 Hv2.
      apply (Horder (root_processes (build_tree four_processes)) 0%nat 1%nat);
        [by left|lia|by rewrite H1|by rewrite H2|done..].
Defined.
